(** * The test run orchestrator (runner.ts): grouping, sharding, suite
      filtering, the staged dispatch loop and the file collector.

    The development embeds the functions of the runner as Rocq functions.
    JavaScript objects are compared by identity; here every suite and every
    test carries a numeric identity ([sid], [tid]) and identity comparisons
    are comparisons of these numbers.  A [Map] iterates in insertion order, so
    maps are association lists that keep that order.  Code that may throw
    (reading [.run] of an undefined project) returns [option]. *)

From Stdlib Require Import String Ascii List Bool Arith ZArith Lia Permutation.
Import ListNotations.

Set Implicit Arguments.
Set Warnings "-register-all".

(** * Part I: the program *)

(** ** Data model *)

Inductive ParallelMode := PMdefault | PMparallel | PMserial.
Inductive HookType := beforeAll | afterAll | beforeEach | afterEach.
Inductive RunMode := RunDefault | RunAlways.

Record Project := mkProject {
  project_name : string;
  run : RunMode;
  stage : Z;
}.

(** A suite as it is seen from below, through [parent] links: its own
    attributes and the chain of its ancestors. *)
Inductive SuiteNode := mkSuiteNode {
  sid : nat;
  _parallelMode : ParallelMode;
  _hooks : list HookType;
  _only : bool;
  _projectConfig : option Project;
  parent : option SuiteNode;
}.

Record TestCase := mkTestCase {
  tid : nat;
  test_only : bool;
  test_parent : SuiteNode;
  _workerHash : string;
  _requireFile : string;
  repeatEachIndex : nat;
  _projectId : string;
}.

Record TestGroup := mkTestGroup {
  workerHash : string;
  requireFile : string;
  group_repeatEachIndex : nat;
  projectId : string;
  group_run : RunMode;
  tests : list TestCase;
  watchMode : bool;
}.

Definition ParallelMode_eqb (a b : ParallelMode) : bool :=
  match a, b with
  | PMdefault, PMdefault | PMparallel, PMparallel | PMserial, PMserial => true
  | _, _ => false
  end.

Definition isAlways (r : RunMode) : bool :=
  match r with RunAlways => true | RunDefault => false end.

Definition isAllHook (h : HookType) : bool :=
  match h with beforeAll | afterAll => true | _ => false end.

(** Modelled from the spec: [Suite.project()] of the suite class, which is not
    among the sources: the project attached to the suite or to its nearest
    ancestor that has one. *)
Fixpoint project (s : SuiteNode) : option Project :=
  match s with
  | mkSuiteNode _ _ _ _ (Some p) _ => Some p
  | mkSuiteNode _ _ _ _ None (Some up) => project up
  | mkSuiteNode _ _ _ _ None None => None
  end.

Definition isSome {A : Type} (o : option A) : bool :=
  match o with Some _ => true | None => false end.

(** ** Insertion-ordered maps *)

Section OrderedMap.
Variables K V : Type.
Variable eqb : K -> K -> bool.

Fixpoint mget (k : K) (m : list (K * V)) : option V :=
  match m with
  | [] => None
  | (k', v) :: rest => if eqb k k' then Some v else mget k rest
  end.

(** [Map.set]: an existing key keeps its position, a new key goes last. *)
Fixpoint mset (k : K) (v : V) (m : list (K * V)) : list (K * V) :=
  match m with
  | [] => [(k, v)]
  | (k', v') :: rest =>
      if eqb k k' then (k', v) :: rest else (k', v') :: mset k v rest
  end.

Definition mvalues (m : list (K * V)) : list V := map snd m.
End OrderedMap.

(** The keys of the [parallel] map are suites or tests. *)
Inductive Key := KSuite (s : nat) | KTest (t : nat).

Definition Key_eqb (a b : Key) : bool :=
  match a, b with
  | KSuite x, KSuite y => Nat.eqb x y
  | KTest x, KTest y => Nat.eqb x y
  | _, _ => false
  end.

(** ** createTestGroups *)

Record Bucket := mkBucket {
  general : TestGroup;
  parallel : list (Key * TestGroup);
  parallelWithHooks : TestGroup;
}.

Definition Groups := list (string * list (string * Bucket)).

Definition createGroup (test : TestCase) : option TestGroup :=
  match project (test_parent test) with
  | Some p =>
      Some {| workerHash := _workerHash test;
              requireFile := _requireFile test;
              group_repeatEachIndex := repeatEachIndex test;
              projectId := _projectId test;
              group_run := run p;
              tests := [];
              watchMode := false |}
  | None => None
  end.

Definition pushTest (g : TestGroup) (test : TestCase) : TestGroup :=
  {| workerHash := workerHash g;
     requireFile := requireFile g;
     group_repeatEachIndex := group_repeatEachIndex g;
     projectId := projectId g;
     group_run := group_run g;
     tests := tests g ++ [test];
     watchMode := watchMode g |}.

(** The three variables of the walk up the parent chain. *)
Record Walk := mkWalk {
  insideParallel : bool;
  outerMostSerialSuite : option SuiteNode;
  hasAllHooks : bool;
}.

Definition walkStep (w : Walk) (p : SuiteNode) : Walk :=
  {| outerMostSerialSuite :=
       if ParallelMode_eqb (_parallelMode p) PMserial then Some p
       else outerMostSerialSuite w;
     insideParallel :=
       insideParallel w || ParallelMode_eqb (_parallelMode p) PMparallel;
     hasAllHooks := hasAllHooks w || existsb isAllHook (_hooks p) |}.

Fixpoint walkParents (w : Walk) (p : SuiteNode) : Walk :=
  match p with
  | mkSuiteNode _ _ _ _ _ None => walkStep w p
  | mkSuiteNode _ _ _ _ _ (Some up) => walkParents (walkStep w p) up
  end.

Definition walkTest (test : TestCase) : Walk :=
  walkParents (mkWalk false None false) (test_parent test).

Definition getBucket (groups : Groups) (test : TestCase) : option Bucket :=
  match mget String.eqb (_workerHash test) groups with
  | Some withWorkerHash => mget String.eqb (_requireFile test) withWorkerHash
  | None => None
  end.

Definition setBucket (groups : Groups) (test : TestCase) (b : Bucket) : Groups :=
  let withWorkerHash :=
    match mget String.eqb (_workerHash test) groups with
    | Some m => m
    | None => []
    end in
  mset String.eqb (_workerHash test)
       (mset String.eqb (_requireFile test) b withWorkerHash) groups.

Definition freshBucket (test : TestCase) : option Bucket :=
  match createGroup test with
  | Some g => Some {| general := g; parallel := []; parallelWithHooks := g |}
  | None => None
  end.

Definition parallelKey (w : Walk) (test : TestCase) : Key :=
  match outerMostSerialSuite w with
  | Some s => KSuite (sid s)
  | None => KTest (tid test)
  end.

(** The placement of one test in its bucket (the tail of the loop body). *)
Definition placeInBucket (b : Bucket) (test : TestCase) : option Bucket :=
  let w := walkTest test in
  if insideParallel w then
    if hasAllHooks w && negb (isSome (outerMostSerialSuite w)) then
      Some {| general := general b;
              parallel := parallel b;
              parallelWithHooks := pushTest (parallelWithHooks b) test |}
    else
      let key := parallelKey w test in
      match (match mget Key_eqb key (parallel b) with
             | Some g => Some g
             | None => createGroup test
             end) with
      | Some group =>
          Some {| general := general b;
                  parallel := mset Key_eqb key (pushTest group test) (parallel b);
                  parallelWithHooks := parallelWithHooks b |}
      | None => None
      end
  else
    Some {| general := pushTest (general b) test;
            parallel := parallel b;
            parallelWithHooks := parallelWithHooks b |}.

(** One iteration of the loop over the tests. *)
Definition addTest (groups : Groups) (test : TestCase) : option Groups :=
  match (match getBucket groups test with
         | Some b => Some b
         | None => freshBucket test
         end) with
  | Some withRequireFile =>
      match placeInBucket withRequireFile test with
      | Some b' => Some (setBucket groups test b')
      | None => None
      end
  | None => None
  end.

Fixpoint addTests (groups : Groups) (ts : list TestCase) : option Groups :=
  match ts with
  | [] => Some groups
  | t :: rest =>
      match addTest groups t with
      | Some groups' => addTests groups' rest
      | None => None
      end
  end.

(** [Math.ceil(n / workers)] compared with a group's length.  For
    [workers = 0] the quotient is infinite and no group is ever full. *)
Definition ceilDiv (n workers : nat) : nat := (n + workers - 1) / workers.

Definition groupIsFull (len n workers : nat) : bool :=
  if Nat.eqb workers 0 then false else ceilDiv n workers <=? len.

(** The loop that splits [parallelWithHooks.tests]: [done] holds the groups
    already pushed and closed, [lastGroup] the one still being filled (it is
    pushed to the result when created and filled afterwards). *)
Fixpoint splitWithHooks (n workers : nat) (done : list TestGroup)
    (lastGroup : option TestGroup) (ts : list TestCase)
  : option (list TestGroup) :=
  match ts with
  | [] => Some (done ++ match lastGroup with Some g => [g] | None => [] end)
  | test :: rest =>
      match lastGroup with
      | Some g =>
          if groupIsFull (length (tests g)) n workers then
            match createGroup test with
            | Some g' => splitWithHooks n workers (done ++ [g]) (Some (pushTest g' test)) rest
            | None => None
            end
          else splitWithHooks n workers done (Some (pushTest g test)) rest
      | None =>
          match createGroup test with
          | Some g' => splitWithHooks n workers done (Some (pushTest g' test)) rest
          | None => None
          end
      end
  end.

Definition emitBucket (workers : nat) (b : Bucket) : option (list TestGroup) :=
  let ts := tests (parallelWithHooks b) in
  match splitWithHooks (length ts) workers [] None ts with
  | Some chunks =>
      Some ((if Nat.eqb (length (tests (general b))) 0 then [] else [general b])
            ++ mvalues (parallel b) ++ chunks)
  | None => None
  end.

Fixpoint emitAll (workers : nat) (bs : list Bucket) : option (list TestGroup) :=
  match bs with
  | [] => Some []
  | b :: rest =>
      match emitBucket workers b, emitAll workers rest with
      | Some gs, Some more => Some (gs ++ more)
      | _, _ => None
      end
  end.

Definition allBuckets (groups : Groups) : list Bucket :=
  flat_map (fun wh => mvalues (snd wh)) groups.

(** ** The suite tree *)

(** An entry of [_entries] refers to a child suite or to a test of the suite;
    the children themselves live in [suites] and [suite_tests] (in the source
    the three arrays hold the same objects). *)
Inductive Entry := ESuite (id : nat) | ETest (id : nat).

Inductive Suite := mkSuite {
  node : SuiteNode;
  suites : list Suite;
  suite_tests : list TestCase;
  _entries : list Entry;
}.

Definition findTest (i : nat) (ts : list TestCase) : list TestCase :=
  match find (fun t => Nat.eqb (tid t) i) ts with
  | Some t => [t]
  | None => []
  end.

(** Modelled from the spec: [Suite.allTests()] of the suite class, which is
    not among the sources: the tests of the subtree, in entry order. *)
Fixpoint allTests (s : Suite) : list TestCase :=
  match s with
  | mkSuite _ subs ts es =>
      let below := map (fun c => (sid (node c), allTests c)) subs in
      flat_map (fun e =>
                  match e with
                  | ESuite i =>
                      match mget Nat.eqb i below with
                      | Some l => l
                      | None => []
                      end
                  | ETest i => findTest i ts
                  end) es
  end.

Fixpoint addSuites (groups : Groups) (projectSuites : list Suite) : option Groups :=
  match projectSuites with
  | [] => Some groups
  | projectSuite :: rest =>
      match addTests groups (allTests projectSuite) with
      | Some groups' => addSuites groups' rest
      | None => None
      end
  end.

Definition createTestGroups (projectSuites : list Suite) (workers : nat)
  : option (list TestGroup) :=
  match addSuites [] projectSuites with
  | Some groups => emitAll workers (allBuckets groups)
  | None => None
  end.

(** ** The placement rule, in the words of the specification *)

Fixpoint ancestors (p : SuiteNode) : list SuiteNode :=
  match p with
  | mkSuiteNode _ _ _ _ _ None => [p]
  | mkSuiteNode _ _ _ _ _ (Some up) => p :: ancestors up
  end.

Definition isParallel (p : SuiteNode) : bool := ParallelMode_eqb (_parallelMode p) PMparallel.
Definition isSerial (p : SuiteNode) : bool := ParallelMode_eqb (_parallelMode p) PMserial.
Definition carriesAllHook (p : SuiteNode) : bool := existsb isAllHook (_hooks p).

(** The outermost serial suite of a chain that is listed innermost first. *)
Fixpoint outermostSerial (chain : list SuiteNode) : option SuiteNode :=
  match chain with
  | [] => None
  | p :: rest =>
      match outermostSerial rest with
      | Some s => Some s
      | None => if isSerial p then Some p else None
      end
  end.

Inductive Container := InGeneral | InParallelWithHooks | InParallel (k : Key).

Definition containerOf (test : TestCase) : Container :=
  let chain := ancestors (test_parent test) in
  if negb (existsb isParallel chain) then InGeneral
  else if existsb carriesAllHook chain && negb (existsb isSerial chain)
       then InParallelWithHooks
  else InParallel (match outermostSerial chain with
                   | Some s => KSuite (sid s)
                   | None => KTest (tid test)
                   end).

Definition testsAt (k : Key) (m : list (Key * TestGroup)) : list TestCase :=
  match mget Key_eqb k m with
  | Some g => tests g
  | None => []
  end.

(** What it means for [test] to have been added to container [c] of a bucket
    and to nothing else. *)
Definition placedIn (c : Container) (test : TestCase) (b b' : Bucket) : Prop :=
  match c with
  | InGeneral =>
      tests (general b') = tests (general b) ++ [test]
      /\ parallel b' = parallel b
      /\ parallelWithHooks b' = parallelWithHooks b
  | InParallelWithHooks =>
      general b' = general b
      /\ parallel b' = parallel b
      /\ tests (parallelWithHooks b') = tests (parallelWithHooks b) ++ [test]
  | InParallel k =>
      general b' = general b
      /\ parallelWithHooks b' = parallelWithHooks b
      /\ testsAt k (parallel b') = testsAt k (parallel b) ++ [test]
      /\ forall k', k' <> k ->
           mget Key_eqb k' (parallel b') = mget Key_eqb k' (parallel b)
  end.

(** ** Example data: one project, one file, a parallel describe with a
    [beforeAll] hook and five tests, and a serial describe inside a parallel
    one. *)

Definition exProject : Project := mkProject "chromium" RunDefault 0.
Definition exRoot : SuiteNode := mkSuiteNode 0 PMdefault [] false None None.
Definition exProjectNode : SuiteNode :=
  mkSuiteNode 1 PMdefault [] false (Some exProject) (Some exRoot).
Definition exFileNode : SuiteNode :=
  mkSuiteNode 2 PMdefault [] false None (Some exProjectNode).
Definition exHooked : SuiteNode :=
  mkSuiteNode 3 PMparallel [beforeAll] false None (Some exFileNode).
Definition exParallel : SuiteNode :=
  mkSuiteNode 4 PMparallel [] false None (Some exFileNode).
Definition exSerial : SuiteNode :=
  mkSuiteNode 5 PMserial [beforeEach] false None (Some exParallel).

Definition exTest (i : nat) (p : SuiteNode) : TestCase :=
  mkTestCase i false p "hash-a" "a.spec.ts" 0 "chromium".

Definition exHookedTests : list TestCase :=
  map (fun i => exTest i exHooked) [10; 11; 12; 13; 14].

Definition exHookedSuite : Suite :=
  mkSuite exHooked [] exHookedTests (map (fun t => ETest (tid t)) exHookedTests).
Definition exFileSuite : Suite :=
  mkSuite exFileNode [exHookedSuite] [] [ESuite 3].
Definition exProjectSuite : Suite :=
  mkSuite exProjectNode [exFileSuite] [] [ESuite 2].

(** The tests of the group that the splitting loop is filling. *)
Definition lastTests (lastGroup : option TestGroup) : list TestCase :=
  match lastGroup with Some g => tests g | None => [] end.

Definition exBucket : Bucket :=
  let g := {| workerHash := "hash-a"; requireFile := "a.spec.ts";
              group_repeatEachIndex := 0; projectId := "chromium";
              group_run := RunDefault; tests := []; watchMode := false |} in
  {| general := g;
     parallel := [];
     parallelWithHooks := fold_left pushTest exHookedTests g |}.

Definition exBucketGroups : list TestGroup :=
  Eval vm_compute in
    match emitBucket 2 exBucket with Some gs => gs | None => [] end.

(** ** Group purity *)

Definition sameAsGroup (g : TestGroup) (t : TestCase) : Prop :=
  _workerHash t = workerHash g
  /\ _requireFile t = requireFile g
  /\ repeatEachIndex t = group_repeatEachIndex g
  /\ _projectId t = projectId g.

Definition groupPure (g : TestGroup) : Prop := Forall (sameAsGroup g) (tests g).

(** The worker hash of a test determines its repeat index and its project. *)
Definition hashDetermines (input : list TestCase) : Prop :=
  forall t1 t2, In t1 input -> In t2 input ->
    _workerHash t1 = _workerHash t2 ->
    repeatEachIndex t1 = repeatEachIndex t2 /\ _projectId t1 = _projectId t2.

Section PurityDefs.
Variable input : list TestCase.

(** A group of the bucket [(wh, rf)]: its fields were copied from an input
    test of that worker hash and its tests belong to the bucket. *)
Definition groupOk (wh rf : string) (g : TestGroup) : Prop :=
  workerHash g = wh
  /\ requireFile g = rf
  /\ (exists t0, In t0 input /\ _workerHash t0 = wh
                 /\ group_repeatEachIndex g = repeatEachIndex t0
                 /\ projectId g = _projectId t0)
  /\ Forall (fun t => In t input /\ _workerHash t = wh /\ _requireFile t = rf)
            (tests g).

Definition bucketOk (wh rf : string) (b : Bucket) : Prop :=
  groupOk wh rf (general b)
  /\ groupOk wh rf (parallelWithHooks b)
  /\ Forall (groupOk wh rf) (mvalues (parallel b)).

Definition groupsOk (groups : Groups) : Prop :=
  forall wh m rf b, In (wh, m) groups -> In (rf, b) m -> bucketOk wh rf b.
End PurityDefs.

(** Two repeats of one file whose tests carry the same worker hash. *)
Definition exRepeat (i rep : nat) : TestCase :=
  mkTestCase i false exFileNode "hash-a" "a.spec.ts" rep "chromium".

Definition exRepeatedSuite : Suite :=
  mkSuite exProjectNode
          [mkSuite exFileNode [] [exRepeat 30 0; exRepeat 31 1] [ETest 30; ETest 31]]
          [] [ESuite 2].

(** ** Suite filtering *)

(** [entries.has(e)] for the set made of the given suites and tests. *)
Definition hasEntry (ss : list Suite) (ts : list TestCase) (e : Entry) : bool :=
  match e with
  | ESuite i => existsb (fun c => Nat.eqb (sid (node c)) i) ss
  | ETest i => existsb (fun t => Nat.eqb (tid t) i) ts
  end.

Definition isEmpty {A : Type} (l : list A) : bool :=
  match l with [] => true | _ :: _ => false end.

(** The function returns its boolean together with the suite as the call
    leaves it (the source mutates the suite in place). *)
Fixpoint filterSuiteWithOnlySemantics (suiteFilter : Suite -> bool)
    (testFilter : TestCase -> bool) (suite : Suite) : bool * Suite :=
  match suite with
  | mkSuite nd subs ts es =>
      let visited := map (filterSuiteWithOnlySemantics suiteFilter testFilter) subs in
      let onlySuites :=
        map snd (filter (fun rc => fst rc || suiteFilter (snd rc)) visited) in
      let onlyTests := filter testFilter ts in
      if negb (isEmpty onlySuites && isEmpty onlyTests) then
        (true, mkSuite nd onlySuites onlyTests
                       (filter (hasEntry onlySuites onlyTests) es))
      else
        (false, mkSuite nd (map snd visited) ts es)
  end.

Fixpoint filterSuite (suiteFilter : Suite -> bool)
    (testFilter : TestCase -> bool) (suite : Suite) : Suite :=
  match suite with
  | mkSuite nd subs ts es =>
      let subs' :=
        map (fun child => if suiteFilter child then child
                          else filterSuite suiteFilter testFilter child) subs in
      let ts' := filter testFilter ts in
      mkSuite nd subs' ts' (filter (hasEntry subs' ts') es)
  end.

Definition filterOnly (suite : Suite) : bool * Suite :=
  filterSuiteWithOnlySemantics (fun s => _only (node s)) test_only suite.

(** The suites of a tree: the suite itself and everything below it. *)
Fixpoint allSuites (s : Suite) : list Suite :=
  match s with
  | mkSuite _ subs _ _ => s :: flat_map allSuites subs
  end.

Inductive Subseq {A : Type} : list A -> list A -> Prop :=
| Subseq_nil : Subseq [] []
| Subseq_skip : forall x l1 l2, Subseq l1 l2 -> Subseq l1 (x :: l2)
| Subseq_keep : forall x l1 l2, Subseq l1 l2 -> Subseq (x :: l1) (x :: l2).

(** Every suite of the tree after the call comes from a suite of the tree
    before it, with the same attributes and a subsequence of its entries. *)
Definition entriesPreserved (before after : Suite) : Prop :=
  forall s', In s' (allSuites after) ->
    exists s, In s (allSuites before)
              /\ node s = node s'
              /\ Subseq (_entries s') (_entries s).

(** Suites are told apart by their identity. *)
Definition uniqueSuites (suite : Suite) : Prop :=
  NoDup (map (fun s => sid (node s)) (allSuites suite)).

Definition entriesPreservedById (before after : Suite) : Prop :=
  forall s s', In s (allSuites before) -> In s' (allSuites after) ->
    sid (node s) = sid (node s') ->
    Subseq (_entries s') (_entries s).

Local Open Scope Z_scope.

Record Shard := mkShard { current : Z; total : Z }.

Definition testCount (g : TestGroup) : Z := Z.of_nat (length (tests g)).

(** The loop that sums the tests of the project suites that can be sharded;
    a project suite without a project makes the source throw. *)
Fixpoint shardableTotalLoop (acc : Z) (projectSuites : list Suite) : option Z :=
  match projectSuites with
  | [] => Some acc
  | projectSuite :: rest =>
      match project (node projectSuite) with
      | Some p =>
          if isAlways (run p) then shardableTotalLoop acc rest
          else shardableTotalLoop (acc + Z.of_nat (length (allTests projectSuite))) rest
      | None => None
      end
  end.

Definition shardSizeOf (shardableTotal : Z) (shard : Shard) : Z :=
  shardableTotal / total shard.

Definition extraOneOf (shardableTotal : Z) (shard : Shard) : Z :=
  shardableTotal - shardSizeOf shardableTotal shard * total shard.

Definition fromOf (shardableTotal : Z) (shard : Shard) : Z :=
  let currentShard := current shard - 1 in
  shardSizeOf shardableTotal shard * currentShard
  + Z.min (extraOneOf shardableTotal shard) currentShard.

Definition toOf (shardableTotal : Z) (shard : Shard) : Z :=
  let currentShard := current shard - 1 in
  fromOf shardableTotal shard + shardSizeOf shardableTotal shard
  + (if currentShard <? extraOneOf shardableTotal shard then 1 else 0).

(** [current >= from && current < to].  With [total = 0] the source divides
    by zero, [from] and [to] are not numbers and both comparisons fail. *)
Definition startsInShard (shardableTotal : Z) (shard : Shard) (cur : Z) : bool :=
  if total shard =? 0 then false
  else (fromOf shardableTotal shard <=? cur) && (cur <? toOf shardableTotal shard).

(** The state of the walk over the groups: the counter [current] and the set
    [shardTests]. *)
Record ShardWalk := mkShardWalk {
  counter : Z;
  shardTests : list TestCase;
}.

Fixpoint shardStage (inShard : Z -> bool) (st : ShardWalk) (stage : list TestGroup)
  : ShardWalk * list TestGroup :=
  match stage with
  | [] => (st, [])
  | group :: rest =>
      let includeGroupInShard :=
        if isAlways (group_run group) then true else inShard (counter st) in
      let cur :=
        if isAlways (group_run group) then counter st
        else counter st + testCount group in
      let st' :=
        {| counter := cur;
           shardTests := if includeGroupInShard then shardTests st ++ tests group
                         else shardTests st |} in
      let '(final, shardedStage) := shardStage inShard st' rest in
      (final, if includeGroupInShard then group :: shardedStage else shardedStage)
  end.

Fixpoint shardStages (inShard : Z -> bool) (st : ShardWalk)
    (concurrentTestGroups : list (list TestGroup))
  : ShardWalk * list (list TestGroup) :=
  match concurrentTestGroups with
  | [] => (st, [])
  | stage :: rest =>
      let '(st', shardedStage) := shardStage inShard st stage in
      let '(final, more) := shardStages inShard st' rest in
      (final, if isEmpty shardedStage then more else shardedStage :: more)
  end.

Definition hasTest (ts : list TestCase) (test : TestCase) : bool :=
  existsb (fun t => Nat.eqb (tid t) (tid test)) ts.

(** The root suite and the stages as the call leaves them; [None] when the
    source throws. *)
Definition _filterForCurrentShard (shard : option Shard) (rootSuite : Suite)
    (concurrentTestGroups : list (list TestGroup))
  : option (Suite * list (list TestGroup)) :=
  match shard with
  | None => Some (rootSuite, concurrentTestGroups)
  | Some shard =>
      match shardableTotalLoop 0 (suites rootSuite) with
      | Some shardableTotal =>
          let '(final, shardConcurrentTestGroups) :=
            shardStages (startsInShard shardableTotal shard)
                        (mkShardWalk 0 []) concurrentTestGroups in
          Some (snd (filterSuiteWithOnlySemantics
                       (fun _ => false) (hasTest (shardTests final)) rootSuite),
                shardConcurrentTestGroups)
      | None => None
      end
  end.

(** ** The shard filter, in the words of the specification *)

Definition shardable (g : TestGroup) : bool := negb (isAlways (group_run g)).

(** The number of shardable tests in the groups seen so far. *)
Fixpoint counterAfter (seen : list TestGroup) : Z :=
  match seen with
  | [] => 0
  | g :: rest => (if shardable g then testCount g else 0) + counterAfter rest
  end.

Definition shardableSuite (projectSuite : Suite) : bool :=
  match project (node projectSuite) with
  | Some p => negb (isAlways (run p))
  | None => false
  end.

Definition shardableTotalOf (rootSuite : Suite) : Z :=
  Z.of_nat (length (flat_map allTests (filter shardableSuite (suites rootSuite)))).

Definition retained (from to : Z) (seen : list TestGroup) (g : TestGroup) : bool :=
  isAlways (group_run g)
  || ((from <=? counterAfter seen) && (counterAfter seen <? to)).

Fixpoint retainStage (from to : Z) (seen stage : list TestGroup) : list TestGroup :=
  match stage with
  | [] => []
  | g :: rest =>
      (if retained from to seen g then [g] else [])
        ++ retainStage from to (seen ++ [g]) rest
  end.

Fixpoint retainStages (from to : Z) (seen : list TestGroup)
    (stages : list (list TestGroup)) : list (list TestGroup) :=
  match stages with
  | [] => []
  | stage :: rest =>
      retainStage from to seen stage :: retainStages from to (seen ++ stage) rest
  end.

Definition nonEmpty {A : Type} (l : list A) : bool := negb (isEmpty l).

(** The shardable groups of a walk, each with the value of the counter when
    the walk reaches it. *)
Fixpoint starts (c : Z) (gs : list TestGroup) : list (Z * TestGroup) :=
  match gs with
  | [] => []
  | g :: rest =>
      if shardable g then (c, g) :: starts (c + testCount g) rest
      else starts c rest
  end.

Definition inInterval (from to : Z) (cg : Z * TestGroup) : bool :=
  (from <=? fst cg) && (fst cg <? to).

Definition shardableTestsOf (stages : list (list TestGroup)) : list TestCase :=
  flat_map tests (filter shardable (concat stages)).

(** The shardable tests that the filter keeps for a shard. *)
Definition retainedShardable (shard : Shard) (rootSuite : Suite)
    (stages : list (list TestGroup)) : list TestCase :=
  match _filterForCurrentShard (Some shard) rootSuite stages with
  | Some (_, stages') => shardableTestsOf stages'
  | None => []
  end.

(** One shardable group of two tests, and two shards. *)
Definition exPairSuite : Suite :=
  mkSuite exProjectNode
          [mkSuite exFileNode [] [exTest 50 exFileNode; exTest 51 exFileNode]
                   [ETest 50; ETest 51]]
          [] [ESuite 2].

Definition exPairRoot : Suite := mkSuite exRoot [exPairSuite] [] [ESuite 1].

Definition exPairStages : list (list TestGroup) :=
  Eval vm_compute in
    match createTestGroups [exPairSuite] 1 with Some gs => [gs] | None => [] end.

(** Ten tests of a fully parallel project: ten groups of one test. *)
Definition exFullyParallelNode : SuiteNode :=
  mkSuiteNode 41 PMparallel [] false (Some exProject) (Some exRoot).
Definition exTenFileNode : SuiteNode :=
  mkSuiteNode 42 PMdefault [] false None (Some exFullyParallelNode).
Definition exTenTests : list TestCase :=
  map (fun i => mkTestCase i false exTenFileNode "hash-b" "b.spec.ts" 0 "chromium")
      (seq 100 10).
Definition exTenSuite : Suite :=
  mkSuite exFullyParallelNode
          [mkSuite exTenFileNode [] exTenTests (map (fun t => ETest (tid t)) exTenTests)]
          [] [ESuite 42].
Definition exTenRoot : Suite := mkSuite exRoot [exTenSuite] [] [ESuite 41].
Definition exTenStages : list (list TestGroup) :=
  Eval vm_compute in
    match createTestGroups [exTenSuite] 1 with Some gs => [gs] | None => [] end.

(** ** One shard of one *)

(** The tests of a tree, and trees in which pruning has nothing to remove:
    every suite below the root has a test somewhere in it and the entries of
    every suite refer to its suites and tests. *)
Fixpoint treeTests (s : Suite) : list TestCase :=
  match s with
  | mkSuite _ subs ts _ => ts ++ flat_map treeTests subs
  end.

Fixpoint hasTests (s : Suite) : bool :=
  match s with
  | mkSuite _ subs ts _ => nonEmpty ts || existsb hasTests subs
  end.

Fixpoint childrenHaveTests (s : Suite) : bool :=
  match s with
  | mkSuite _ subs _ _ => forallb (fun c => hasTests c && childrenHaveTests c) subs
  end.

Fixpoint entriesConsistent (s : Suite) : bool :=
  match s with
  | mkSuite _ subs ts es => forallb (hasEntry subs ts) es && forallb entriesConsistent subs
  end.

(** Two stages: the project of the first has two tests, the project of the
    second has none. *)
Definition exSetupProject : Project := mkProject "teardown" RunDefault 1.
Definition exEmptySuite : Suite :=
  mkSuite (mkSuiteNode 60 PMdefault [] false (Some exSetupProject) (Some exRoot)) [] [] [].
Definition exTwoStageRoot : Suite :=
  mkSuite exRoot [exPairSuite; exEmptySuite] [] [ESuite 1; ESuite 60].
Definition exTwoStages : list (list TestGroup) :=
  Eval vm_compute in
    match createTestGroups [exPairSuite] 1, createTestGroups [exEmptySuite] 1 with
    | Some gs1, Some gs2 => [gs1; gs2]
    | _, _ => []
    end.

Local Close Scope Z_scope.

Inductive FullStatus := passed | failed | timedout | interrupted.
Inductive TestStatus := TSpassed | TSfailed | TStimedOut | TSskipped | TSinterrupted.

(** The calls received by the reporter.  A test event carries the identity of
    the test; [OnTestEnd] also carries the status that the result has when
    the call is made. *)
Inductive Event :=
| OnBegin
| OnError (message : string)
| OnTestBegin (test : nat)
| OnTestEnd (test : nat) (status : TestStatus)
| OnStdOut (text : string)
| OnEnd (status : FullStatus)
| OnExit.

(** What one dispatcher does, as far as the runner can see it: the events it
    reports, the results it appends to tests, whether the interrupt signal
    arrived while it ran, whether it had worker errors, and whether running
    or stopping it threw. *)
Record DispatchOutcome := mkOutcome {
  reported : list Event;
  newResults : list (nat * TestStatus);
  hadSignal : bool;
  hasWorkerErrors : bool;
  thrown : option string;
}.

(** The state that the run changes: the calls made to the reporter, the
    results of each test, and the dispatchers constructed so far. *)
Record World := mkWorld {
  events : list Event;
  results : list (nat * list TestStatus);
  dispatched : list (list TestGroup * DispatchOutcome);
}.

Definition report (w : World) (e : Event) : World :=
  mkWorld (events w ++ [e]) (results w) (dispatched w).

Definition resultsOf (w : World) (test : nat) : list TestStatus :=
  match mget Nat.eqb test (results w) with
  | Some rs => rs
  | None => []
  end.

Definition setResults (w : World) (test : nat) (rs : list TestStatus) : World :=
  mkWorld (events w) (mset Nat.eqb test rs (results w)) (dispatched w).

Definition FullStatus_eqb (a b : FullStatus) : bool :=
  match a, b with
  | passed, passed | failed, failed | timedout, timedout
  | interrupted, interrupted => true
  | _, _ => false
  end.

Section Dispatch.
(** [test.ok()] as a function of the results of the test, and the status
    of a result that was just appended: both belong to the test class, which
    is not among the sources. *)
Variable testOk : TestCase -> list TestStatus -> bool.
Variable freshStatus : TestStatus.
(** The dispatcher is an external collaborator. *)
Variable dispatch : list TestGroup -> DispatchOutcome.

Definition ok (w : World) (test : TestCase) : bool :=
  testOk test (resultsOf w (tid test)).

(** The body of the inner loop of [_skipTestsNotMarkedAsRunAlways]: append
    a result, report the beginning, set the status, report the end. *)
Definition skipTest (w : World) (test : TestCase) : World :=
  let before := resultsOf w (tid test) in
  let w1 := setResults w (tid test) (before ++ [freshStatus]) in
  let w2 := report w1 (OnTestBegin (tid test)) in
  let w3 := setResults w2 (tid test) (before ++ [TSskipped]) in
  report w3 (OnTestEnd (tid test) TSskipped).

Fixpoint _skipTestsNotMarkedAsRunAlways (w : World) (testGroups : list TestGroup)
  : World * list TestGroup :=
  match testGroups with
  | [] => (w, [])
  | group :: rest =>
      if isAlways (group_run group) then
        let '(w', runAlwaysGroups) := _skipTestsNotMarkedAsRunAlways w rest in
        (w', group :: runAlwaysGroups)
      else
        _skipTestsNotMarkedAsRunAlways (fold_left skipTest (tests group) w) rest
  end.

Definition addResult (w : World) (r : nat * TestStatus) : World :=
  setResults w (fst r) (resultsOf w (fst r) ++ [snd r]).

Definition runDispatcher (w : World) (testGroups : list TestGroup) : World :=
  let o := dispatch testGroups in
  let w1 := mkWorld (events w ++ reported o) (results w)
                    (dispatched w ++ [(testGroups, o)]) in
  fold_left addResult (newResults o) w1.

(** How one iteration of the loop over the stages ends.  [sigint] is the
    variable [sigintWatcher]: [None] while undefined, otherwise whether the
    watcher had the signal. *)
Inductive StageEnd :=
| Continue (w : World) (previousStageFailed : bool) (sigint : option bool)
| Break (w : World) (sigint : option bool) (workerErrors : bool)
| Throw (w : World) (e : string).

Definition stageHasFailure (w : World) (testGroups : list TestGroup) : bool :=
  existsb (fun testGroup => existsb (fun test => negb (ok w test)) (tests testGroup))
          testGroups.

Definition runStage (w : World) (previousStageFailed : bool) (sigint : option bool)
    (stageGroups : list TestGroup) : StageEnd :=
  let '(w1, testGroups) :=
    if previousStageFailed then _skipTestsNotMarkedAsRunAlways w stageGroups
    else (w, stageGroups) in
  if isEmpty testGroups then Continue w1 previousStageFailed sigint
  else
    let o := dispatch testGroups in
    let w2 := runDispatcher w1 testGroups in
    match thrown o with
    | Some e => Throw w2 e
    | None =>
        if hasWorkerErrors o then Break w2 (Some (hadSignal o)) true
        else if hadSignal o then Break w2 (Some true) false
        else Continue w2 (previousStageFailed || stageHasFailure w2 testGroups)
                      (Some false)
    end.

(** How the loop over the stages ends: it runs out of stages or leaves
    through a [break], with the variables [sigintWatcher] and
    [hasWorkerErrors] as they are then; or an exception escapes. *)
Inductive LoopEnd :=
| Finished (w : World) (sigint : option bool) (workerErrors : bool)
| Threw (w : World) (e : string).

Fixpoint stageLoop (w : World) (previousStageFailed : bool) (sigint : option bool)
    (concurrentTestGroups : list (list TestGroup)) : LoopEnd :=
  match concurrentTestGroups with
  | [] => Finished w sigint false
  | stageGroups :: rest =>
      match runStage w previousStageFailed sigint stageGroups with
      | Continue w' failed' sigint' => stageLoop w' failed' sigint' rest
      | Break w' sigint' workerErrors => Finished w' sigint' workerErrors
      | Throw w' e => Threw w' e
      end
  end.

(** The outcomes of what the runner calls besides the dispatcher.
    [outputDirsError] is the error that the removal of the output directories
    meets, if it fails, with the number of calls that the run makes to the
    reporter between its call of [_removeOutputDirs] and the report of that
    error: the removal goes on beside the run, see [_run]. *)
Record RunEnv := mkRunEnv {
  fatalErrors : list string;
  listOnly : bool;
  outputDirsError : option (string * nat);
  setupError : option string;
  setupSignal : bool;
  teardownErrors : list string;
  ignoreSnapshots : bool;
  globalTimeoutSeconds : string;
}.

(** [tearDown]: every failing step is reported and fails the result. *)
Definition tearDown (env : RunEnv) (w : World) (status : FullStatus)
  : World * FullStatus :=
  (fold_left (fun w' e => report w' (OnError e)) (teardownErrors env) w,
   if isEmpty (teardownErrors env) then status else failed).

(** [_performGlobalSetup]: the world, [result.status], and whether the
    teardown function is returned. *)
Definition _performGlobalSetup (env : RunEnv) (w : World)
  : World * FullStatus * bool :=
  let '(w1, status) :=
    match setupError env with
    | Some e => (report w (OnError e), failed)
    | None => (w, passed)
    end in
  if negb (FullStatus_eqb status passed) || setupSignal env then
    let '(w2, _) := tearDown env w1 status in
    (w2, if setupSignal env then interrupted else failed, false)
  else (w1, status, true).

Definition ignoreSnapshotsNote : string :=
  "NOTE: running with ignoreSnapshots option.".

(** [_run], from the report of the beginning on.  [_removeOutputDirs] is
    declared [async] and [_run] calls it without [await]: what [_run] tests is
    a promise, which is never falsy, so that [_run] does not return there and
    goes on to the global set-up while the directories are removed, whatever
    becomes of them.  The world holds the calls that [_run] itself makes; the
    report of a removal that fails is made beside them, see
    [reporterCalls]. *)
Definition _run (env : RunEnv) (rootSuite : Suite)
    (concurrentTestGroups : list (list TestGroup)) (w0 : World)
  : World * FullStatus :=
  let w := report w0 OnBegin in
  if negb (isEmpty (fatalErrors env)) then
    (fold_left (fun w' e => report w' (OnError e)) (fatalErrors env) w, failed)
  else if listOnly env then (w, passed)
  else
    (* [_removeOutputDirs(options)] is called here: the promise is truthy. *)
    let '(w1, status, hasTearDown) := _performGlobalSetup env w in
    if negb (FullStatus_eqb status passed) then (w1, status)
    else
      let w2 := if ignoreSnapshots env
                then report w1 (OnStdOut ignoreSnapshotsNote) else w1 in
      let finally (wf : World) (st : FullStatus) :=
        if hasTearDown then tearDown env wf st else (wf, st) in
      match stageLoop w2 false None concurrentTestGroups with
      | Finished w3 sigint workerErrors =>
          let status' :=
            if match sigint with Some true => true | _ => false end
            then interrupted
            else if workerErrors
                    || existsb (fun test => negb (ok w3 test)) (allTests rootSuite)
                 then failed else passed in
          finally w3 status'
      | Threw w3 e =>
          let '(w4, _) := finally (report w3 (OnError e)) passed in
          (w4, failed)
      end.

(** Whether [_run] gets as far as its call of [_removeOutputDirs]. *)
Definition removalStarted (env : RunEnv) : bool :=
  isEmpty (fatalErrors env) && negb (listOnly env).

Definition insertAt {A : Type} (n : nat) (x : A) (l : list A) : list A :=
  firstn n l ++ x :: skipn n l.

(** The calls that the reporter receives from a run that starts with no call
    made and from the removal that it started, in their order, and the number
    of them that are made before [_run] returns.  [_removeOutputDirs] is
    called when [onBegin] is the only call made; the [catch] of a removal that
    fails reports the error [later] calls of the run after that, or after the
    last call of the run, and then maybe after [_run] has returned. *)
Definition reporterCalls (env : RunEnv) (own : list Event) : list Event * nat :=
  match outputDirsError env with
  | Some (e, later) =>
      if removalStarted env then
        (insertAt (1 + later) (OnError e) own,
         if 1 + later <=? length own then S (length own) else length own)
      else (own, length own)
  | None => (own, length own)
  end.

(** How the calls that are still to come when [runAllTests] reports the end
    fall among its own: the number of them made between [onEnd] and [_onExit],
    which [runAllTests] awaits one after the other, and the number made after
    [_onExit], until the process ends. *)
Record Overlap := mkOverlap {
  beforeExit : nat;
  afterExit : nat;
}.

Definition timeoutMessage (env : RunEnv) : string :=
  ("Timed out waiting " ++ globalTimeoutSeconds env
     ++ "s for the entire test run")%string.

(** [runAllTests].  [deadline] is the outcome of the race against the
    global timeout: [None] when the run returned first, [Some k] when the
    deadline elapsed after [k] of the calls that are made before the run
    returns.  The race does not cancel the run: after the deadline the run
    goes on beside [runAllTests], and so does, in any case, a removal of the
    output directories that has not settled; [overlap] says how their calls
    fall among [onEnd] and [_onExit].  The time-out error and [onEnd] are
    reported with no [await] between them.  The results and the dispatchers of
    the world are those of the run left to finish. *)
Definition runAllTests (env : RunEnv) (deadline : option nat) (overlap : Overlap)
    (rootSuite : Suite) (concurrentTestGroups : list (list TestGroup))
  : World * FullStatus :=
  let '(w, status) := _run env rootSuite concurrentTestGroups (mkWorld [] [] []) in
  let '(calls, returned) := reporterCalls env (events w) in
  let '(made, own, fullResult) :=
    match deadline with
    | Some k => (Nat.min k returned, [OnError (timeoutMessage env)], timedout)
    | None => (returned, [], status)
    end in
  let toCome := skipn made calls in
  (mkWorld (firstn made calls ++ own ++ [OnEnd fullResult]
              ++ firstn (beforeExit overlap) toCome ++ [OnExit]
              ++ firstn (afterExit overlap) (skipn (beforeExit overlap) toCome))
           (results w) (dispatched w),
   fullResult).
End Dispatch.

(** ** Skipping after a failed stage, in the words of the specification *)

Definition runAlwaysGroups (stageGroups : list TestGroup) : list TestGroup :=
  filter (fun g => isAlways (group_run g)) stageGroups.

Definition skippedTests (stageGroups : list TestGroup) : list TestCase :=
  flat_map tests (filter (fun g => negb (isAlways (group_run g))) stageGroups).

Definition skipEvents (ts : list TestCase) : list Event :=
  flat_map (fun t => [OnTestBegin (tid t); OnTestEnd (tid t) TSskipped]) ts.

Definition occurrences (test : nat) (ts : list TestCase) : nat :=
  length (filter (fun t => Nat.eqb (tid t) test) ts).

Definition worldOf (e : StageEnd) : World :=
  match e with
  | Continue w _ _ => w
  | Break w _ _ => w
  | Throw w _ => w
  end.

(** ** Collaborators and stages for the examples *)

Definition exTestOk (_ : TestCase) (rs : list TestStatus) : bool :=
  forallb (fun s => match s with TSpassed | TSskipped => true | _ => false end) rs.

(** A dispatcher whose tests all fail, with or without worker errors. *)
Definition exDispatch (workerErrors : bool) (testGroups : list TestGroup)
  : DispatchOutcome :=
  let ts := flat_map tests testGroups in
  mkOutcome (flat_map (fun t => [OnTestBegin (tid t); OnTestEnd (tid t) TSfailed]) ts)
            (map (fun t => (tid t, TSfailed)) ts)
            false workerErrors None.

(** A dispatcher whose tests all pass. *)
Definition exPassDispatch (testGroups : list TestGroup) : DispatchOutcome :=
  let ts := flat_map tests testGroups in
  mkOutcome (flat_map (fun t => [OnTestBegin (tid t); OnTestEnd (tid t) TSpassed]) ts)
            (map (fun t => (tid t, TSpassed)) ts)
            false false None.

Definition exLateTest : TestCase :=
  mkTestCase 70 false exFileNode "hash-c" "c.spec.ts" 0 "teardown".
Definition exAlwaysTest : TestCase :=
  mkTestCase 71 false exFileNode "hash-d" "d.spec.ts" 0 "cleanup".
Definition exLateStage : list TestGroup :=
  [mkTestGroup "hash-c" "c.spec.ts" 0 "teardown" RunDefault [exLateTest] false;
   mkTestGroup "hash-d" "d.spec.ts" 0 "cleanup" RunAlways [exAlwaysTest] false].
Definition exFirstStage : list TestGroup := concat exPairStages.

Definition exAfterFirst : World :=
  Eval vm_compute in
    worldOf (runStage exTestOk TSskipped (exDispatch false) (mkWorld [] [] [])
                      false None exFirstStage).

(** ** The final status *)

Definition signalReceived (w : World) : bool :=
  existsb (fun d => hadSignal (snd d)) (dispatched w).

Definition workerErrorsReported (w : World) : bool :=
  existsb (fun d => hasWorkerErrors (snd d)) (dispatched w).

Definition someTestNotOk (testOk : TestCase -> list TestStatus -> bool)
    (w : World) (rootSuite : Suite) : bool :=
  existsb (fun test => negb (ok testOk w test)) (allTests rootSuite).

Definition sawSignal (sigint : option bool) : bool :=
  match sigint with Some true => true | _ => false end.

(** ** The file collector *)

(** The file system: a path is the list of its components; the entries of a
    directory are listed in the order in which the collector sorts them
    (by name). *)
Inductive FsNode :=
| FsFile (content : string)
| FsDir (entries : list (string * FsNode))
| FsOther.

Definition Path := list string.

Fixpoint findEntry (name : string) (entries : list (string * FsNode)) : option FsNode :=
  match entries with
  | [] => None
  | (n, child) :: rest => if String.eqb name n then Some child else findEntry name rest
  end.

Fixpoint lookupPath (root : FsNode) (path : Path) : option FsNode :=
  match path with
  | [] => Some root
  | name :: rest =>
      match root with
      | FsDir entries =>
          match findEntry name entries with
          | Some child => lookupPath child rest
          | None => None
          end
      | _ => None
      end
  end.

Definition existsSync (root : FsNode) (path : Path) : bool :=
  isSome (lookupPath root path).

Definition isDirectory (n : FsNode) : bool :=
  match n with FsDir _ => true | _ => false end.

Definition isFile (n : FsNode) : bool :=
  match n with FsFile _ => true | _ => false end.

Inductive IgnoreStatus := Ignored | Included | IgnoredButRecurse.

Definition IgnoreStatus_eqb (a b : IgnoreStatus) : bool :=
  match a, b with
  | Ignored, Ignored | Included, Included | IgnoredButRecurse, IgnoredButRecurse => true
  | _, _ => false
  end.

(** A rule of a [.gitignore] file: the directory that defines it, whether it
    is a negation, and the matcher ([match(s, partial)]). *)
Record Rule := mkRule {
  rule_dir : Path;
  negate : bool;
  rule_match : string -> bool -> bool;
}.

(** What the glob library makes of one line. *)
Record Minimatch := mkMinimatch {
  mm_comment : bool;
  mm_negate : bool;
  mm_match : string -> bool -> bool;
}.

Definition joinPath (components : list string) : string :=
  String.concat "/" components.

(** [path.relative(dir, entryPath)] for an entry below [dir]. *)
Definition relativePath (dir entryPath : Path) : string :=
  joinPath (skipn (length dir) entryPath).

Definition checkRule (entryPath : Path) (isDir : bool) (status : IgnoreStatus)
    (rule : Rule) : IgnoreStatus :=
  let ruleIncludes := negate rule in
  if Bool.eqb (IgnoreStatus_eqb status Included) ruleIncludes then status
  else
    let relative := relativePath (rule_dir rule) entryPath in
    if rule_match rule ("/" ++ relative)%string false || rule_match rule relative false
    then (if ruleIncludes then Included else Ignored)
    else if isDir && (rule_match rule ("/" ++ relative ++ "/")%string false
                      || rule_match rule (relative ++ "/")%string false)
    then (if ruleIncludes then Included else Ignored)
    else if isDir && ruleIncludes
            && (rule_match rule ("/" ++ relative)%string true
                || rule_match rule relative true)
    then IgnoredButRecurse
    else status.

Definition checkIgnores (entryPath : Path) (rules : list Rule) (isDir : bool)
    (parentStatus : IgnoreStatus) : IgnoreStatus :=
  fold_left (checkRule entryPath isDir) rules parentStatus.

Section CollectFiles.
(** The glob library, and the splitting of the content of a file into its
    trimmed lines. *)
Variable minimatch : string -> Minimatch.
Variable trimmedLines : string -> list string.

Definition parseRules (dir : Path) (content : string) : list Rule :=
  flat_map (fun s =>
              if String.eqb s "" then []
              else let rule := minimatch s in
                   if mm_comment rule then []
                   else [mkRule dir (mm_negate rule) (mm_match rule)])
           (trimmedLines content).

Definition gitignoreOf (entries : list (string * FsNode)) : option string :=
  match find (fun e => isFile (snd e) && String.eqb (fst e) ".gitignore") entries with
  | Some (_, FsFile content) => Some content
  | _ => None
  end.

(** [visit]: the files found so far go in and come out. *)
Fixpoint visit (respectGitIgnore : bool) (node : FsNode) (dir : Path)
    (rules : list Rule) (status : IgnoreStatus) (files : list Path) : list Path :=
  match node with
  | FsDir entries =>
      let rules' :=
        if respectGitIgnore then
          match gitignoreOf entries with
          | Some content => rules ++ parseRules dir content
          | None => rules
          end
        else rules in
      (fix each (es : list (string * FsNode)) (files : list Path) : list Path :=
         match es with
         | [] => files
         | (name, child) :: rest =>
             if String.eqb name "." || String.eqb name ".." then each rest files
             else if isFile child && String.eqb name ".gitignore" then each rest files
             else if isDirectory child && String.eqb name "node_modules"
                  then each rest files
             else
               let entryPath := dir ++ [name] in
               let entryStatus :=
                 checkIgnores entryPath rules' (isDirectory child) status in
               match child with
               | FsDir _ =>
                   if negb (IgnoreStatus_eqb entryStatus Ignored)
                   then each rest (visit respectGitIgnore child entryPath rules'
                                         entryStatus files)
                   else each rest files
               | FsFile _ =>
                   if IgnoreStatus_eqb entryStatus Included
                   then each rest (files ++ [entryPath])
                   else each rest files
               | FsOther => each rest files
               end
         end) entries files
  | _ => files
  end.

Definition collectFiles (root : FsNode) (testDir : Path) (respectGitIgnore : bool)
  : list Path :=
  if negb (existsSync root testDir) then []
  else
    match lookupPath root testDir with
    | Some node =>
        if negb (isDirectory node) then []
        else visit respectGitIgnore node testDir [] Included []
    | None => []
    end.
End CollectFiles.

(** A small matcher for the examples: a line [!p] is the negation of [p], a
    line starting with [#] is a comment; a pattern matches the text equal to
    it and, for a partial match, the texts that are a prefix of it. *)
Definition exMinimatch (s : string) : Minimatch :=
  match s with
  | String "#" _ => mkMinimatch true false (fun _ _ => false)
  | String "!" p =>
      mkMinimatch false true (fun t partial => String.eqb t p || (partial && String.prefix t p))
  | p => mkMinimatch false false (fun t partial => String.eqb t p || (partial && String.prefix t p))
  end.

Fixpoint exLines (acc s : string) : list string :=
  match s with
  | EmptyString => [acc]
  | String c rest =>
      if Ascii.eqb c "010" then acc :: exLines "" rest
      else exLines (acc ++ String c "")%string rest
  end.

Definition exFs : FsNode :=
  FsDir [(".gitignore", FsFile ("build/" ++ String "010" "!build/keep/"));
         ("a.spec.ts", FsFile "");
         ("build", FsDir [("keep", FsDir [("y.test.ts", FsFile "")]);
                          ("x.test.ts", FsFile "")]);
         ("node_modules", FsDir [("m.spec.ts", FsFile "")]);
         ("readme.txt", FsFile "")]%string.

(** ** Further properties of the grouper: what the buckets hold *)

Definition bucketGroups (b : Bucket) : list TestGroup :=
  general b :: mvalues (parallel b) ++ [parallelWithHooks b].

(** The tests held by a bucket and by the whole map of buckets. *)
Definition bucketTests (b : Bucket) : list TestCase :=
  tests (general b) ++ flat_map tests (mvalues (parallel b))
    ++ tests (parallelWithHooks b).

Definition groupsTests (groups : Groups) : list TestCase :=
  flat_map bucketTests (allBuckets groups).

Definition Container_eqb (a b : Container) : bool :=
  match a, b with
  | InGeneral, InGeneral => true
  | InParallelWithHooks, InParallelWithHooks => true
  | InParallel x, InParallel y => Key_eqb x y
  | _, _ => false
  end.

(** Two tests go to the same bucket. *)
Definition sameBucket (probe t : TestCase) : bool :=
  String.eqb (_workerHash t) (_workerHash probe)
  && String.eqb (_requireFile t) (_requireFile probe).

(** The tests of a list that go to the bucket of [probe] and, there, to the
    container [c], in the order of the list. *)
Definition containerContents (ts : list TestCase) (probe : TestCase) (c : Container)
  : list TestCase :=
  filter (fun t => sameBucket probe t && Container_eqb (containerOf t) c) ts.

Definition hasTestsIn (g : TestGroup) : Prop := tests g <> [].

Definition parallelHasTests (groups : Groups) : Prop :=
  forall b, In b (allBuckets groups) -> Forall hasTestsIn (mvalues (parallel b)).

(** What the bucket of [probe] holds in each container; nothing when the
    bucket does not exist. *)
Definition generalOf (groups : Groups) (probe : TestCase) : list TestCase :=
  match getBucket groups probe with
  | Some b => tests (general b)
  | None => []
  end.

Definition withHooksOf (groups : Groups) (probe : TestCase) : list TestCase :=
  match getBucket groups probe with
  | Some b => tests (parallelWithHooks b)
  | None => []
  end.

Definition parallelOf (groups : Groups) (probe : TestCase) (k : Key) : list TestCase :=
  match getBucket groups probe with
  | Some b => testsAt k (parallel b)
  | None => []
  end.

Definition containersHold (groups : Groups) (done : list TestCase) : Prop :=
  forall probe,
    generalOf groups probe = containerContents done probe InGeneral
    /\ withHooksOf groups probe = containerContents done probe InParallelWithHooks
    /\ forall k, parallelOf groups probe k = containerContents done probe (InParallel k).

Definition exGroupsAfter : Groups :=
  Eval vm_compute in
    match addSuites [] [exProjectSuite; exRepeatedSuite] with
    | Some groups => groups
    | None => []
    end.

Definition exBucketAfter : Bucket :=
  Eval vm_compute in
    match getBucket exGroupsAfter (exRepeat 30 0) with
    | Some b => b
    | None => exBucket
    end.

Definition hasProject (t : TestCase) : Prop := project (test_parent t) <> None.

(** ** Run stages *)

Section MultiMap.
Variables K V : Type.
Variable eqb : K -> K -> bool.

(** Modelled from the spec: the [MultiMap] helper, which is not among the
    sources: a map from a key to the list of the values set under it, in the
    order in which they were set; the keys are listed in the order in which
    they were first set. *)
Definition multiGet (k : K) (m : list (K * list V)) : list V :=
  match mget eqb k m with
  | Some vs => vs
  | None => []
  end.

Definition multiSet (k : K) (v : V) (m : list (K * list V)) : list (K * list V) :=
  mset eqb k (multiGet k m ++ [v]) m.

Definition multiKeys (m : list (K * list V)) : list K := map fst m.
End MultiMap.

(** [ids.sort((a, b) => a - b)]: the numbers in ascending order. *)
Fixpoint insertNumber (x : Z) (l : list Z) : list Z :=
  match l with
  | [] => [x]
  | y :: rest => if (x <=? y)%Z then x :: l else y :: insertNumber x rest
  end.

Definition sortNumbers (l : list Z) : list Z := fold_right insertNumber [] l.

Definition collectRunStages (projects : list Project) : list (list Project) :=
  let stageToProjects :=
    fold_left (fun m p => multiSet Z.eqb (stage p) p m) projects [] in
  let stageIds := sortNumbers (multiKeys stageToProjects) in
  map (fun stage => multiGet Z.eqb stage stageToProjects) stageIds.

(** Lists of numbers in strictly ascending and in ascending order. *)
Inductive Ascending : list Z -> Prop :=
| Ascending_nil : Ascending []
| Ascending_cons : forall x l,
    Forall (fun y => (x < y)%Z) l -> Ascending l -> Ascending (x :: l).

Inductive NonDescending : list Z -> Prop :=
| NonDescending_nil : NonDescending []
| NonDescending_cons : forall x l,
    Forall (fun y => (x <= y)%Z) l -> NonDescending l -> NonDescending (x :: l).

Definition inStage (id : Z) (p : Project) : bool := Z.eqb (stage p) id.

Definition exProjects : list Project :=
  [mkProject "e2e" RunDefault 1; mkProject "setup" RunDefault 0;
   mkProject "smoke" RunDefault 1; mkProject "cleanup" RunAlways 5]%Z.

(** ** The projects to run *)

Definition doubleQuote : string := String "034" "".

Definition quoted (n : string) : string := (doubleQuote ++ n ++ doubleQuote)%string.

(** [Map.delete]. *)
Definition mdelete {V : Type} (k : string) (m : list (string * V)) : list (string * V) :=
  filter (fun kv => negb (String.eqb k (fst kv))) m.

Section CollectProjects.
(** [String.prototype.toLocaleLowerCase]. *)
Variable toLocaleLowerCase : string -> string.

(** The callback of [fullConfig.projects.filter]: it removes the name of the
    project from [unknownProjects] and keeps the project when its name is in
    [projectsToFind]. *)
Definition selectProject (projectsToFind : list string)
    (acc : list Project * list (string * string)) (p : Project)
  : list Project * list (string * string) :=
  let name := toLocaleLowerCase (project_name p) in
  (if existsb (String.eqb name) projectsToFind then fst acc ++ [p] else fst acc,
   mdelete name (snd acc)).

(** The projects, or the message of the error thrown. *)
Definition _collectProjects (projects : list Project)
    (projectNames : option (list string)) : list Project + string :=
  match projectNames with
  | None => inl projects
  | Some projectNames =>
      let projectsToFind := map toLocaleLowerCase projectNames in
      let unknownProjects :=
        fold_left (fun m n => mset String.eqb (toLocaleLowerCase n) n m)
                  projectNames [] in
      let '(selected, unknown) :=
        fold_left (selectProject projectsToFind) projects ([], unknownProjects) in
      if negb (isEmpty unknown) then
        let names :=
          filter (fun name => negb (String.eqb name "")) (map project_name projects) in
        if isEmpty names then
          inr "No named projects are specified in the configuration file"%string
        else
          inr ("Project(s) " ++ String.concat ", " (map quoted (map snd unknown))
                 ++ " not found. Available named projects: "
                 ++ String.concat ", " (map quoted names))%string
      else inl selected
  end.

Definition requested (projectNames : list string) (p : Project) : bool :=
  existsb (String.eqb (toLocaleLowerCase (project_name p)))
          (map toLocaleLowerCase projectNames).
End CollectProjects.

(** Lower case for the letters of the examples. *)
Definition exLowerChar (c : ascii) : ascii :=
  let n := nat_of_ascii c in
  if (65 <=? n) && (n <=? 90) then ascii_of_nat (n + 32) else c.

Fixpoint exLower (s : string) : string :=
  match s with
  | EmptyString => EmptyString
  | String c rest => String (exLowerChar c) (exLower rest)
  end.

(** ** Further properties of the suite filters *)

(** Every test left at some level passes the test filter, except below a
    suite that passes the suite filter. *)
Fixpoint focusedOnly (suiteFilter : Suite -> bool) (testFilter : TestCase -> bool)
    (s : Suite) : bool :=
  match s with
  | mkSuite _ subs ts _ =>
      forallb testFilter ts
      && forallb (fun c => suiteFilter c || focusedOnly suiteFilter testFilter c) subs
  end.

(** The suites strictly below a suite. *)
Definition suitesBelow (s : Suite) : list Suite := flat_map allSuites (suites s).

(** Something in the tree is focused: a test passes the test filter or a suite
    below the root passes the suite filter. *)
Definition hasFocus (suiteFilter : Suite -> bool) (testFilter : TestCase -> bool)
    (s : Suite) : Prop :=
  (exists t, In t (treeTests s) /\ testFilter t = true)
  \/ (exists c, In c (suitesBelow s) /\ suiteFilter c = true).

(** ** Further properties of the shard filter *)

Definition isAlwaysGroup (g : TestGroup) : bool := isAlways (group_run g).

(** The number of tests that the range of a shard covers. *)
Definition shardWidth (n : Z) (shard : Shard) : Z := (toOf n shard - fromOf n shard)%Z.

(** ** Further properties of the dispatch loop *)

Definition loopWorld (e : LoopEnd) : World :=
  match e with
  | Finished w _ _ => w
  | Threw w _ => w
  end.

(** A dispatcher after which the loop goes on. *)
Definition quietOutcome (o : DispatchOutcome) : Prop :=
  hadSignal o = false /\ hasWorkerErrors o = false /\ thrown o = None.

Definition alwaysOnly (testGroups : list TestGroup) : Prop :=
  Forall (fun g => group_run g = RunAlways) testGroups.

(** A run whose teardown fails, and one whose set-up is interrupted. *)
Definition exTeardownEnv : RunEnv :=
  mkRunEnv [] false None None false ["teardown failed"%string] false "0"%string.

Definition exInterruptedEnv : RunEnv :=
  mkRunEnv [] false None None true [] false "0"%string.

(** ** Further properties of the file collector *)

(** The tests that make a rule decide for an entry: a match of the relative
    path, with or without a leading slash, and for a directory also a match of
    the path with a slash at its end. *)
Definition ruleMatches (entryPath : Path) (isDir : bool) (rule : Rule) : bool :=
  let relative := relativePath (rule_dir rule) entryPath in
  rule_match rule ("/" ++ relative)%string false || rule_match rule relative false
  || (isDir && (rule_match rule ("/" ++ relative ++ "/")%string false
                || rule_match rule (relative ++ "/")%string false)).

(** The last rule of the list that decides for the entry. *)
Definition lastMatch (entryPath : Path) (isDir : bool) (rules : list Rule)
  : option Rule :=
  find (ruleMatches entryPath isDir) (rev rules).

(** The entries that [visit] passes over whatever the rules: [.] and [..],
    a file [.gitignore], a directory [node_modules]. *)
Definition skippedEntry (name : string) (child : FsNode) : bool :=
  (String.eqb name "." || String.eqb name "..")
  || (isFile child && String.eqb name ".gitignore")
  || (isDirectory child && String.eqb name "node_modules").

(** [fileBelow node rel]: [rel] leads from the directory [node] to a regular
    file, through entries that are not passed over. *)
Inductive fileBelow : FsNode -> Path -> Prop :=
| fileBelow_file : forall entries name content,
    In (name, FsFile content) entries ->
    skippedEntry name (FsFile content) = false ->
    fileBelow (FsDir entries) [name]
| fileBelow_dir : forall entries name sub rest,
    In (name, FsDir sub) entries ->
    skippedEntry name (FsDir sub) = false ->
    fileBelow (FsDir sub) rest ->
    fileBelow (FsDir entries) (name :: rest).

Definition exCollected : list Path :=
  Eval vm_compute in collectFiles exMinimatch (exLines "") exFs [] true.

(** ** The configuration file *)

Definition kDefaultConfigFiles : list string :=
  ["playwright.config.ts"; "playwright.config.js"; "playwright.config.mjs"]%string.

Definition resolveConfig (root : FsNode) (configFile : Path) : option Path :=
  if existsSync root configFile then Some configFile else None.

Fixpoint resolveConfigFileFromDirectory (root : FsNode) (directory : Path)
    (configNames : list string) : option Path :=
  match configNames with
  | [] => None
  | configName :: rest =>
      match resolveConfig root (directory ++ [configName]) with
      | Some configFile => Some configFile
      | None => resolveConfigFileFromDirectory root directory rest
      end
  end.

(** [resolveConfigFile]: the configuration file, or [None] (the source's
    [null]); on the right the message of the error thrown. *)
Definition resolveConfigFile (root : FsNode) (configFileOrDirectory : Path)
  : option Path + string :=
  match lookupPath root configFileOrDirectory with
  | None => inr (joinPath configFileOrDirectory ++ " does not exist")%string
  | Some found =>
      if isDirectory found then
        inl (resolveConfigFileFromDirectory root configFileOrDirectory kDefaultConfigFiles)
      else inl (resolveConfig root configFileOrDirectory)
  end.

(** ** Duplicate titles *)

Definition newline : string := String "010" EmptyString.

Section DuplicateTitles.
(** The title path of a test below its file, joined ([titlePath().slice(2)
    .join(...)]), that title as it is displayed, and the file of the test
    relative to the root directory with its line: the test class and the paths
    are not among the sources. *)
Variable fullTitleOf : TestCase -> string.
Variable displayTitle : string -> string.
Variable relativeLocation : TestCase -> option (string * string).

Definition buildItemLocation (testOrSuite : TestCase) : string :=
  match relativeLocation testOrSuite with
  | None => EmptyString
  | Some (file, line) => (file ++ ":" ++ line)%string
  end.

(** The lines that the loop body of [createDuplicateTitlesError] pushes for
    one file suite. *)
Definition duplicateLines (fileSuite : Suite) : list string :=
  let testsByFullTitle :=
    fold_left (fun m test => multiSet String.eqb (fullTitleOf test) test m)
              (allTests fileSuite) [] in
  flat_map (fun fullTitle =>
              let tests := multiGet String.eqb fullTitle testsByFullTitle in
              if 1 <? length tests then
                (" - title: " ++ displayTitle fullTitle)%string
                  :: map (fun test => ("   - " ++ buildItemLocation test)%string) tests
              else [])
           (multiKeys testsByFullTitle).

Definition createDuplicateTitlesError (rootSuite : Suite) : option string :=
  let lines := flat_map duplicateLines (suites rootSuite) in
  if isEmpty lines then None
  else Some (String.concat newline
               (["========================================";
                 " duplicate test titles are not allowed."]
                  ++ lines ++ ["========================================"]))%string.
End DuplicateTitles.

Definition exTitle (t : TestCase) : string :=
  String (ascii_of_nat (tid t)) EmptyString.

(** ** The focused-line filter *)

Record TestFileFilter := mkTestFileFilter {
  filter_re : string;
  filter_line : option nat;
  filter_column : option nat;
}.

Record Location := mkLocation {
  loc_file : string;
  loc_line : nat;
  loc_column : nat;
}.

(** [filter.line === testLine || filter.line === null], and the same for the
    column. *)
Definition sameOrNull (wanted : option nat) (actual : nat) : bool :=
  match wanted with
  | Some n => Nat.eqb n actual
  | None => true
  end.

Section FocusedLine.
(** The matcher that the utilities make of a list of filters, and the
    locations of the suites and of the tests, by their identity: the utilities
    and the classes of suites and tests are not among the sources. *)
Variable createFileMatcherFromFilters : list TestFileFilter -> string -> bool.
Variable suiteLocation : nat -> option Location.
Variable testLocation : nat -> Location.

Definition testFileLineMatches (focusedTestFileLines : list TestFileFilter)
    (testFileName : string) (testLine testColumn : nat) : bool :=
  existsb (fun f =>
             let lineColumnOk :=
               sameOrNull (filter_line f) testLine
               && sameOrNull (filter_column f) testColumn in
             if negb lineColumnOk then false
             else createFileMatcherFromFilters [f] testFileName)
          focusedTestFileLines.

Definition focusedSuite (focusedTestFileLines : list TestFileFilter) (s : Suite) : bool :=
  match suiteLocation (sid (node s)) with
  | Some l =>
      testFileLineMatches focusedTestFileLines (loc_file l) (loc_line l) (loc_column l)
  | None => false
  end.

Definition focusedTest (focusedTestFileLines : list TestFileFilter) (t : TestCase) : bool :=
  let l := testLocation (tid t) in
  testFileLineMatches focusedTestFileLines (loc_file l) (loc_line l) (loc_column l).

Definition filterByFocusedLine (suite : Suite)
    (focusedTestFileLines : list TestFileFilter) : Suite :=
  let filterWithLine :=
    isSome (find (fun f => isSome (filter_line f)) focusedTestFileLines) in
  if negb filterWithLine then suite
  else filterSuite (focusedSuite focusedTestFileLines)
                   (focusedTest focusedTestFileLines) suite.

(** A location is focused: some filter matches its file and asks for its line
    and its column, or for none. *)
Definition focusedAt (focusedTestFileLines : list TestFileFilter) (l : Location) : Prop :=
  exists f,
    In f focusedTestFileLines
    /\ (filter_line f = None \/ filter_line f = Some (loc_line l))
    /\ (filter_column f = None \/ filter_column f = Some (loc_column l))
    /\ createFileMatcherFromFilters [f] (loc_file l) = true.
End FocusedLine.

(** ** From the configuration to the stages *)

(** How the first statements of [_collectTestGroups] end: with the run
    stages, with the error that the selection of the projects throws, or with
    a failed assertion. *)
Inductive StagesOutcome :=
| RunStages (runStages : list (list Project))
| SelectionThrows (message : string)
| AssertionFails.

Section CollectStages.
Variable toLocaleLowerCase : string -> string.

(** The first statements of [_collectTestGroups]: the projects to run, their
    stages, and the assertion that there is a stage. *)
Definition collectTestGroupsStages (projects : list Project)
    (projectFilter : option (list string)) : StagesOutcome :=
  match _collectProjects toLocaleLowerCase projects projectFilter with
  | inr e => SelectionThrows e
  | inl selected =>
      let runStages := collectRunStages selected in
      if 0 <? length runStages then RunStages runStages
      else AssertionFails
  end.
End CollectStages.

(** ** The output directories *)

(** [Set.prototype.add]. *)
Definition setAdd (x : string) (s : list string) : list string :=
  if existsb (String.eqb x) s then s else s ++ [x].

Section OutputDirs.
(** [project.outputDir]. *)
Variable outputDir : Project -> string.

(** The first statements of [_removeOutputDirs]: the directories to
    remove. *)
Definition outputDirs (projects : list Project) (projectFilter : option (list string))
  : list string :=
  fold_left (fun dirs p =>
               if match projectFilter with
                  | None => true
                  | Some names => existsb (String.eqb (project_name p)) names
                  end
               then setAdd (outputDir p) dirs else dirs)
            projects [].

(** The project is named by the filter, letter for letter. *)
Definition namedBy (projectFilter : option (list string)) (p : Project) : Prop :=
  match projectFilter with
  | None => True
  | Some names => In (project_name p) names
  end.
End OutputDirs.

Definition exOutputDir (p : Project) : string := ("out/" ++ project_name p)%string.

(** ** The global set-up, step by step *)

Module GlobalSetup.

(** How a step that is raced against the interrupt signal ends. *)
Inductive StepEnd :=
| Completes
| Throws (e : string)
| Interrupted.

(** A plugin: its [setup] and [teardown] methods, when it has them, with the
    way the set-up ends and the error that the teardown throws. *)
Record Plugin := mkPlugin {
  plugin_id : nat;
  setup : option StepEnd;
  teardown : option (option string);
}.

(** The global hooks of the configuration: [config.globalSetup] with the way
    it ends, whether the value it returns is a function, the error that this
    function throws, and [config.globalTeardown] with the error it throws. *)
Record Hooks := mkHooks {
  globalSetup : option StepEnd;
  returnsFunction : bool;
  returnedFunction : option string;
  globalTeardown : option (option string);
}.

Inductive Call :=
| PluginSetup (id : nat)
| GlobalSetupHook
| ReturnedFunction
| GlobalTeardownHook
| PluginTeardown (id : nat)
| ReporterOnError (e : string).

(** The calls made so far and [result.status]. *)
Record State := mkState {
  calls : list Call;
  status : FullStatus;
}.

Definition call (st : State) (c : Call) : State :=
  mkState (calls st ++ [c]) (status st).

(** [_runAndReportError], given what its callback threw. *)
Definition _runAndReportError (st : State) (thrown : option string) : State :=
  match thrown with
  | Some e => mkState (calls st ++ [ReporterOnError e]) failed
  | None => st
  end.

(** [globalSetupResult]: [None] while undefined, otherwise whether it is a
    function. *)
Definition tearDown (hooks : Hooks) (globalSetupResult : option bool)
    (pluginsThatWereSetUp : list Plugin) (st : State) : State :=
  let st1 :=
    match globalSetupResult with
    | Some true => _runAndReportError (call st ReturnedFunction) (returnedFunction hooks)
    | _ => st
    end in
  let st2 :=
    match globalSetupResult, globalTeardown hooks with
    | Some _, Some thrown => _runAndReportError (call st1 GlobalTeardownHook) thrown
    | _, _ => st1
    end in
  fold_left (fun s plugin =>
               match teardown plugin with
               | Some thrown =>
                   _runAndReportError (call s (PluginTeardown (plugin_id plugin))) thrown
               | None => s
               end)
            (rev pluginsThatWereSetUp) st2.

(** The loop over the plugins: the state, [pluginsThatWereSetUp], and how the
    loop ends. *)
Fixpoint setUpPlugins (plugins : list Plugin) (st : State)
    (pluginsThatWereSetUp : list Plugin) : State * list Plugin * StepEnd :=
  match plugins with
  | [] => (st, pluginsThatWereSetUp, Completes)
  | plugin :: rest =>
      match setup plugin with
      | None => setUpPlugins rest st (pluginsThatWereSetUp ++ [plugin])
      | Some Completes =>
          setUpPlugins rest (call st (PluginSetup (plugin_id plugin)))
                       (pluginsThatWereSetUp ++ [plugin])
      | Some stepEnd =>
          (call st (PluginSetup (plugin_id plugin)), pluginsThatWereSetUp, stepEnd)
      end
  end.

(** [_performGlobalSetup]: the state, and the teardown function when it is
    returned, as the values that the function closes over. *)
Definition _performGlobalSetup (hooks : Hooks) (_plugins webServerPlugins : list Plugin)
    (dockerPlugin : Plugin) (st : State)
  : State * option (option bool * list Plugin) :=
  let plugins := _plugins ++ webServerPlugins ++ [dockerPlugin] in
  let '(st1, pluginsThatWereSetUp, pluginsEnd) := setUpPlugins plugins st [] in
  let '(st2, globalSetupResult, setupEnd) :=
    match pluginsEnd with
    | Completes =>
        match globalSetup hooks with
        | Some stepEnd =>
            (call st1 GlobalSetupHook,
             match stepEnd with
             | Completes => Some (returnsFunction hooks)
             | _ => None
             end,
             stepEnd)
        | None => (st1, Some false, Completes)
        end
    | _ => (st1, None, pluginsEnd)
    end in
  let st3 :=
    _runAndReportError st2 (match setupEnd with Throws e => Some e | _ => None end) in
  let hadSignal := match setupEnd with Interrupted => true | _ => false end in
  if negb (FullStatus_eqb (status st3) passed) || hadSignal then
    let st4 := tearDown hooks globalSetupResult pluginsThatWereSetUp st3 in
    (mkState (calls st4) (if hadSignal then interrupted else failed), None)
  else (st3, Some (globalSetupResult, pluginsThatWereSetUp)).

(** [await globalTearDown?.()]. *)
Definition globalTearDown (hooks : Hooks) (closure : option (option bool * list Plugin))
    (st : State) : State :=
  match closure with
  | Some (globalSetupResult, pluginsThatWereSetUp) =>
      tearDown hooks globalSetupResult pluginsThatWereSetUp st
  | None => st
  end.

(** The plugins whose set-up completed: those before the first one whose
    set-up threw or was interrupted. *)
Fixpoint setUpPrefix (plugins : list Plugin) : list Plugin :=
  match plugins with
  | [] => []
  | plugin :: rest =>
      match setup plugin with
      | None | Some Completes => plugin :: setUpPrefix rest
      | _ => []
      end
  end.

(** The plugins whose set-up was tried: those and the next one. *)
Definition attempted (plugins : list Plugin) : list Plugin :=
  firstn (S (length (setUpPrefix plugins))) plugins.

Definition hasSetup (plugin : Plugin) : bool := isSome (setup plugin).

Definition hasTeardown (plugin : Plugin) : bool := isSome (teardown plugin).

Definition pluginSetups (cs : list Call) : list nat :=
  flat_map (fun c => match c with PluginSetup id => [id] | _ => [] end) cs.

Definition pluginTeardowns (cs : list Call) : list nat :=
  flat_map (fun c => match c with PluginTeardown id => [id] | _ => [] end) cs.

Definition isGlobalTeardown (c : Call) : bool :=
  match c with GlobalTeardownHook => true | _ => false end.

(** All the set-up completed: that of every plugin and the global one. *)
Definition setupCompleted (hooks : Hooks) (plugins : list Plugin) : bool :=
  Nat.eqb (length (setUpPrefix plugins)) (length plugins)
  && match globalSetup hooks with
     | None | Some Completes => true
     | _ => false
     end.

Definition exHooks : Hooks := mkHooks (Some Completes) true None (Some (Some "late"%string)).

Definition exPlugins : list Plugin :=
  [mkPlugin 1 (Some Completes) (Some None); mkPlugin 2 None (Some None);
   mkPlugin 3 (Some (Throws "no port"%string)) (Some None)].

Definition exDocker : Plugin := mkPlugin 9 (Some Completes) (Some None).

End GlobalSetup.

(** * Part II: the properties *)

(** ** Facts about insertion-ordered maps *)

Section OrderedMapFacts.
Variables K V : Type.
Variable eqb : K -> K -> bool.
Hypothesis eqb_spec : forall a b, eqb a b = true <-> a = b.

Lemma eqb_refl' : forall a, eqb a a = true.
Proof. intro a. apply eqb_spec. reflexivity. Qed.

Lemma eqb_neq' : forall a b, a <> b -> eqb a b = false.
Proof.
  intros a b Hne. destruct (eqb a b) eqn:E; [|reflexivity].
  apply eqb_spec in E. contradiction.
Qed.

Lemma mget_mset_same : forall k (v : V) m, mget eqb k (mset eqb k v m) = Some v.
Proof.
  intros k v m. induction m as [|[k' v'] rest IH]; simpl.
  - rewrite eqb_refl'. reflexivity.
  - destruct (eqb k k') eqn:E; simpl; rewrite E; [reflexivity | exact IH].
Qed.

Lemma mget_mset_other : forall k k' (v : V) m,
    k' <> k -> mget eqb k' (mset eqb k v m) = mget eqb k' m.
Proof.
  intros k k' v m Hne. induction m as [|[k0 v0] rest IH]; simpl.
  - rewrite (eqb_neq' Hne). reflexivity.
  - destruct (eqb k k0) eqn:E; simpl.
    + apply eqb_spec in E. subst k0. rewrite (eqb_neq' Hne). reflexivity.
    + destruct (eqb k' k0); [reflexivity | exact IH].
Qed.

Lemma mget_In : forall k (v : V) m, mget eqb k m = Some v -> In (k, v) m.
Proof.
  intros k v m. induction m as [|[k' v'] rest IH]; simpl; [discriminate|].
  destruct (eqb k k') eqn:E.
  - intro H. injection H as ->. apply eqb_spec in E. subst. left. reflexivity.
  - intro H. right. exact (IH H).
Qed.

Lemma In_mset : forall k (v : V) m x,
    In x (mset eqb k v m) -> x = (k, v) \/ In x m.
Proof.
  intros k v m x. induction m as [|[k' v'] rest IH]; simpl.
  - intros [H|[]]. left. symmetry. exact H.
  - destruct (eqb k k') eqn:E; simpl.
    + apply eqb_spec in E. subst k'. intros [H|H]; [left; symmetry; exact H | right; right; exact H].
    + intros [H|H]; [right; left; exact H|].
      destruct (IH H) as [H'|H']; [left; exact H' | right; right; exact H'].
Qed.
End OrderedMapFacts.

Arguments mget_mset_same [K V eqb] eqb_spec k v m.
Arguments mget_mset_other [K V eqb] eqb_spec [k k'] v m _.
Arguments mget_In [K V eqb] eqb_spec k [v] m _.
Arguments In_mset [K V eqb] eqb_spec k v m x _.

Lemma Key_eqb_spec : forall a b, Key_eqb a b = true <-> a = b.
Proof.
  intros [x|x] [y|y]; simpl; split; intro H;
    try discriminate; try (apply Nat.eqb_eq in H; subst; reflexivity);
    try (injection H as ->; apply Nat.eqb_refl).
Qed.

Lemma string_eqb_spec : forall a b : string, String.eqb a b = true <-> a = b.
Proof. intros a b. apply String.eqb_eq. Qed.

(** ** The walk up the parent chain computes the three facts of the rule *)

Lemma SuiteNode_chain_ind (P : SuiteNode -> Prop) :
  (forall i m h o c, P (mkSuiteNode i m h o c None)) ->
  (forall i m h o c up, P up -> P (mkSuiteNode i m h o c (Some up))) ->
  forall p, P p.
Proof.
  intros Htop Hstep.
  fix IH 1. intros [i m h o c [up|]].
  - apply Hstep. apply IH.
  - apply Htop.
Qed.

Lemma outermostSerial_isSome : forall chain,
    isSome (outermostSerial chain) = existsb isSerial chain.
Proof.
  induction chain as [|p rest IH]; simpl; [reflexivity|].
  destruct (outermostSerial rest); simpl in *.
  - rewrite <- IH. apply eq_sym, orb_true_r.
  - rewrite <- IH, orb_false_r. destruct (isSerial p); reflexivity.
Qed.

Lemma walkParents_spec : forall p w,
    walkParents w p =
    {| insideParallel := insideParallel w || existsb isParallel (ancestors p);
       outerMostSerialSuite :=
         match outermostSerial (ancestors p) with
         | Some s => Some s
         | None => outerMostSerialSuite w
         end;
       hasAllHooks := hasAllHooks w || existsb carriesAllHook (ancestors p) |}.
Proof.
  induction p as [i m h o c | i m h o c up IH] using SuiteNode_chain_ind; intro w.
  - simpl. unfold walkStep, isParallel, isSerial, carriesAllHook. simpl.
    rewrite !orb_false_r. destruct (ParallelMode_eqb m PMserial); reflexivity.
  - simpl. rewrite IH. unfold walkStep at 1 2 3. simpl.
    unfold isParallel at 2, carriesAllHook at 2. simpl.
    rewrite <- !orb_assoc.
    rewrite (orb_comm (ParallelMode_eqb m PMparallel)).
    rewrite (orb_comm (existsb isAllHook h)).
    f_equal.
    destruct (outermostSerial (ancestors up)); [reflexivity|].
    unfold isSerial. simpl. destruct (ParallelMode_eqb m PMserial); reflexivity.
Qed.

Lemma walkTest_spec : forall test,
    let chain := ancestors (test_parent test) in
    insideParallel (walkTest test) = existsb isParallel chain
    /\ outerMostSerialSuite (walkTest test) = outermostSerial chain
    /\ hasAllHooks (walkTest test) = existsb carriesAllHook chain.
Proof.
  intro test. unfold walkTest. rewrite walkParents_spec. simpl.
  repeat split. destruct (outermostSerial _); reflexivity.
Qed.

Lemma placeInBucket_placedIn : forall b test b',
    placeInBucket b test = Some b' -> placedIn (containerOf test) test b b'.
Proof.
  intros b test b'. unfold placeInBucket, containerOf, parallelKey.
  destruct (walkTest_spec test) as (Hp & Hs & Hh).
  rewrite Hp, Hs, Hh, outermostSerial_isSome.
  destruct (existsb isParallel _); simpl.
  - destruct (existsb carriesAllHook _ && negb (existsb isSerial _)).
    + intro H. injection H as <-. simpl. auto.
    + set (key := match outermostSerial _ with Some s => KSuite (sid s) | None => KTest (tid test) end).
      destruct (mget Key_eqb key (parallel b)) as [g|] eqn:Eg.
      * intro H. injection H as <-. simpl. unfold testsAt.
        rewrite (mget_mset_same Key_eqb_spec), Eg. simpl.
        repeat split. intros k' Hk. apply (mget_mset_other Key_eqb_spec). exact Hk.
      * destruct (createGroup test) as [g|] eqn:Ec; [|discriminate].
        intro H. injection H as <-. simpl. unfold testsAt.
        rewrite (mget_mset_same Key_eqb_spec), Eg. simpl.
        unfold createGroup in Ec. destruct (project _); [|discriminate].
        injection Ec as <-. simpl.
        repeat split. intros k' Hk. apply (mget_mset_other Key_eqb_spec). exact Hk.
  - intro H. injection H as <-. simpl. auto.
Qed.

Lemma getBucket_setBucket_same : forall groups test b,
    getBucket (setBucket groups test b) test = Some b.
Proof.
  intros. unfold getBucket, setBucket.
  rewrite (mget_mset_same string_eqb_spec).
  apply (mget_mset_same string_eqb_spec).
Qed.

Lemma getBucket_setBucket_other : forall groups test b other,
    (_workerHash other, _requireFile other) <> (_workerHash test, _requireFile test) ->
    getBucket (setBucket groups test b) other = getBucket groups other.
Proof.
  intros groups test b other Hne. unfold getBucket, setBucket.
  destruct (String.eqb (_workerHash other) (_workerHash test)) eqn:E.
  - apply String.eqb_eq in E. rewrite E.
    rewrite (mget_mset_same string_eqb_spec).
    assert (Hrf : _requireFile other <> _requireFile test)
      by (intro H; apply Hne; rewrite E, H; reflexivity).
    rewrite (mget_mset_other string_eqb_spec _ _ Hrf).
    destruct (mget String.eqb (_workerHash test) groups); reflexivity.
  - apply String.eqb_neq in E.
    rewrite (mget_mset_other string_eqb_spec _ _ E). reflexivity.
Qed.

(** The project that creating a group needs: if it is there, one iteration
    of the grouping loop returns. *)
Lemma addTest_total : forall groups test p,
    project (test_parent test) = Some p ->
    exists groups', addTest groups test = Some groups'.
Proof.
  intros groups test p Hp. unfold addTest, freshBucket, placeInBucket, createGroup.
  rewrite Hp.
  destruct (getBucket groups test) as [b|];
    destruct (insideParallel _); try destruct (_ && _);
    try destruct (mget Key_eqb _ _); eexists; reflexivity.
Qed.

(** ** The grouper places each test in one container *)

(** C1. One iteration of the grouping loop puts the test into exactly one of
    the three containers of its (workerHash, requireFile) bucket: [general]
    when no ancestor is parallel; [parallelWithHooks] when some ancestor
    carries a beforeAll or afterAll hook and no ancestor is serial; otherwise
    the [parallel] map under the outermost serial ancestor, or under the test
    itself when there is none.  The other containers of the bucket, the other
    keys of the [parallel] map and the other buckets are left as they were. *)
Theorem grouper_places_test : forall groups test groups',
    addTest groups test = Some groups' ->
    exists b b',
      (getBucket groups test = Some b
       \/ (getBucket groups test = None /\ freshBucket test = Some b))
      /\ getBucket groups' test = Some b'
      /\ placedIn (containerOf test) test b b'
      /\ forall other,
          (_workerHash other, _requireFile other)
            <> (_workerHash test, _requireFile test) ->
          getBucket groups' other = getBucket groups other.
Proof.
  intros groups test groups'. unfold addTest.
  destruct (getBucket groups test) as [b|] eqn:Eb.
  - destruct (placeInBucket b test) as [b'|] eqn:Ep; [|discriminate].
    intro H. injection H as <-. exists b, b'. repeat split.
    + left. reflexivity.
    + apply getBucket_setBucket_same.
    + apply placeInBucket_placedIn. exact Ep.
    + intros other Hne. apply getBucket_setBucket_other. exact Hne.
  - destruct (freshBucket test) as [b|] eqn:Ef; [|discriminate].
    destruct (placeInBucket b test) as [b'|] eqn:Ep; [|discriminate].
    intro H. injection H as <-. exists b, b'. repeat split.
    + right. split; reflexivity.
    + apply getBucket_setBucket_same.
    + apply placeInBucket_placedIn. exact Ep.
    + intros other Hne. apply getBucket_setBucket_other. exact Hne.
Qed.

Lemma grouper_places_test_witness :
  exists groups' b b',
    addTest [] (exTest 20 exSerial) = Some groups'
    /\ freshBucket (exTest 20 exSerial) = Some b
    /\ getBucket groups' (exTest 20 exSerial) = Some b'
    /\ placedIn (InParallel (KSuite 5)) (exTest 20 exSerial) b b'.
Proof.
  destruct (grouper_places_test [] (exTest 20 exSerial) eq_refl)
    as (b & b' & Hb & Hb' & Hplaced & _).
  eexists. exists b, b'. split; [reflexivity|].
  destruct Hb as [Hb | [_ Hb]]; [discriminate Hb|].
  split; [exact Hb|]. split; [exact Hb'|]. exact Hplaced.
Defined.

(** ** Splitting the tests with hooks into chunks *)

Lemma ceilDiv_pos : forall n workers, 1 <= n -> 1 <= workers -> 1 <= ceilDiv n workers.
Proof.
  intros n workers Hn Hw. unfold ceilDiv.
  apply Nat.div_str_pos. lia.
Qed.

(** [ceilDiv] is the ceiling of the quotient. *)
Lemma ceilDiv_is_ceiling : forall n workers,
    1 <= workers ->
    n <= ceilDiv n workers * workers /\ ceilDiv n workers * workers < n + workers.
Proof.
  intros n workers Hw. unfold ceilDiv.
  pose proof (Nat.div_mod (n + workers - 1) workers ltac:(lia)) as Hdm.
  pose proof (Nat.mod_upper_bound (n + workers - 1) workers ltac:(lia)) as Hlt.
  nia.
Qed.

Lemma Forall_removelast : forall (A : Type) (P : A -> Prop) l,
    Forall P l -> Forall P (removelast l).
Proof.
  intros A P l H. induction H as [|x l Hx Hl IH]; simpl; [constructor|].
  destruct l; [constructor|]. constructor; assumption.
Qed.

Section Chunks.
Variables n workers size : nat.
Hypothesis size_pos : 1 <= size.
Hypothesis full_iff : forall len, groupIsFull len n workers = (size <=? len).

Lemma splitWithHooks_chunks : forall ts done lastGroup gs,
    splitWithHooks n workers done lastGroup ts = Some gs ->
    Forall (fun g => length (tests g) = size) done ->
    (forall g, lastGroup = Some g -> 1 <= length (tests g) <= size) ->
    concat (map tests gs) = concat (map tests done) ++ lastTests lastGroup ++ ts
    /\ Forall (fun g => length (tests g) = size) (removelast gs)
    /\ Forall (fun g => 1 <= length (tests g) <= size) gs.
Proof.
  induction ts as [|test rest IH]; intros done lastGroup gs Hrun Hdone Hlast.
  - simpl in Hrun. injection Hrun as <-. destruct lastGroup as [g|]; simpl.
    + rewrite map_app, concat_app. simpl. rewrite !app_nil_r.
      split; [reflexivity|]. split.
      * rewrite removelast_last. exact Hdone.
      * apply Forall_app. split.
        -- eapply Forall_impl; [|exact Hdone]. simpl. intros. lia.
        -- constructor; [apply Hlast; reflexivity | constructor].
    + rewrite !app_nil_r. split; [reflexivity|]. split.
      * apply Forall_removelast. exact Hdone.
      * eapply Forall_impl; [|exact Hdone]. simpl. intros. lia.
  - simpl in Hrun. destruct lastGroup as [g|].
    + rewrite full_iff in Hrun.
      pose proof (Hlast g eq_refl) as Hg.
      destruct (size <=? length (tests g)) eqn:Efull.
      * apply Nat.leb_le in Efull.
        destruct (createGroup test) as [g'|] eqn:Ec; [|discriminate].
        assert (Hempty : tests g' = []).
        { unfold createGroup in Ec. destruct (project _); [|discriminate].
          injection Ec as <-. reflexivity. }
        apply IH in Hrun.
        -- destruct Hrun as (Hcat & Hrest). split; [|exact Hrest].
           rewrite Hcat. simpl. rewrite Hempty, map_app, concat_app. simpl.
           rewrite app_nil_r, <- app_assoc. reflexivity.
        -- apply Forall_app. split; [exact Hdone|].
           constructor; [lia | constructor].
        -- intros g0 Hg0. injection Hg0 as <-. simpl. rewrite Hempty. simpl. lia.
      * apply Nat.leb_gt in Efull. apply IH in Hrun.
        -- destruct Hrun as (Hcat & Hrest). split; [|exact Hrest].
           rewrite Hcat. simpl. rewrite <- !app_assoc. reflexivity.
        -- exact Hdone.
        -- intros g0 Hg0. injection Hg0 as <-. simpl. rewrite length_app. simpl. lia.
    + destruct (createGroup test) as [g'|] eqn:Ec; [|discriminate].
      assert (Hempty : tests g' = []).
      { unfold createGroup in Ec. destruct (project _); [|discriminate].
        injection Ec as <-. reflexivity. }
      apply IH in Hrun.
      * destruct Hrun as (Hcat & Hrest). split; [|exact Hrest].
        rewrite Hcat. simpl. rewrite Hempty. reflexivity.
      * exact Hdone.
      * intros g0 Hg0. injection Hg0 as <-. simpl. rewrite Hempty. simpl. lia.
Qed.
End Chunks.

(** C5. For a bucket and a positive number of workers, the groups emitted for
    the bucket end with the groups made from [parallelWithHooks.tests]: the
    tests of these groups, concatenated in order, are the container's tests;
    every group but the last holds exactly ceil(n / workers) tests and the
    last holds between one and that many.  Five tests under a parallel
    describe with a [beforeAll] hook and two workers give two groups, of
    three and two tests. *)
Theorem parallelWithHooks_chunks : forall workers b gs,
    1 <= workers ->
    emitBucket workers b = Some gs ->
    let n := length (tests (parallelWithHooks b)) in
    (exists chunks,
        gs = (if Nat.eqb (length (tests (general b))) 0 then [] else [general b])
               ++ mvalues (parallel b) ++ chunks
        /\ concat (map tests chunks) = tests (parallelWithHooks b)
        /\ Forall (fun g => length (tests g) = ceilDiv n workers) (removelast chunks)
        /\ Forall (fun g => 1 <= length (tests g) <= ceilDiv n workers) chunks)
    /\ option_map (map (fun g => map tid (tests g)))
                  (createTestGroups [exProjectSuite] 2)
       = Some [[10; 11; 12]; [13; 14]].
Proof.
  intros workers b gs Hw Hemit n. split; [|reflexivity].
  unfold emitBucket in Hemit. fold n in Hemit.
  destruct (splitWithHooks n workers [] None (tests (parallelWithHooks b)))
    as [chunks|] eqn:Es; [|discriminate].
  injection Hemit as <-. exists chunks. split; [reflexivity|].
  destruct (tests (parallelWithHooks b)) as [|t0 ts0] eqn:Ets.
  - simpl in Es. injection Es as <-. simpl. repeat constructor.
  - assert (Hn : 1 <= n) by (unfold n; simpl; lia).
    apply (@splitWithHooks_chunks n workers (ceilDiv n workers)) in Es.
    + simpl in Es. exact Es.
    + apply ceilDiv_pos; assumption.
    + intro len. unfold groupIsFull.
      destruct (Nat.eqb_spec workers 0); [lia | reflexivity].
    + constructor.
    + intros g Hg. discriminate Hg.
Qed.

Lemma parallelWithHooks_chunks_witness :
  1 <= 2
  /\ emitBucket 2 exBucket = Some exBucketGroups
  /\ exists chunks,
      exBucketGroups = [] ++ mvalues (parallel exBucket) ++ chunks
      /\ concat (map tests chunks) = tests (parallelWithHooks exBucket)
      /\ Forall (fun g => length (tests g) = 3) (removelast chunks)
      /\ Forall (fun g => 1 <= length (tests g) <= 3) chunks.
Proof.
  split; [lia|]. split; [reflexivity|].
  exact (proj1 (@parallelWithHooks_chunks 2 exBucket exBucketGroups
                  (le_S 1 1 (le_n 1)) eq_refl)).
Defined.

(** The result of the grouper is the concatenation of what each bucket
    emits, bucket by bucket. *)
Lemma emitAll_concat : forall workers bs gs,
    emitAll workers bs = Some gs ->
    exists parts,
      Forall2 (fun b part => emitBucket workers b = Some part) bs parts
      /\ gs = concat parts.
Proof.
  intros workers. induction bs as [|b rest IH]; intros gs H; simpl in H.
  - injection H as <-. exists []. split; constructor.
  - destruct (emitBucket workers b) as [part|] eqn:Eb; [|discriminate].
    destruct (emitAll workers rest) as [more|] eqn:Er; [|discriminate].
    injection H as <-. destruct (IH more eq_refl) as (parts & HF & ->).
    exists (part :: parts). split; [constructor; assumption | reflexivity].
Qed.

Section Purity.
Variable input : list TestCase.

Lemma createGroup_ok : forall test g,
    In test input -> createGroup test = Some g ->
    groupOk input (_workerHash test) (_requireFile test) g.
Proof.
  intros test g Hin Hc. unfold createGroup in Hc.
  destruct (project _); [|discriminate]. injection Hc as <-.
  unfold groupOk. simpl. repeat split; [|constructor].
  exists test. repeat split. exact Hin.
Qed.

Lemma pushTest_ok : forall test g,
    In test input ->
    groupOk input (_workerHash test) (_requireFile test) g ->
    groupOk input (_workerHash test) (_requireFile test) (pushTest g test).
Proof.
  intros test g Hin (Hw & Hr & Ht0 & Hall). unfold groupOk. simpl.
  repeat split; try assumption.
  apply Forall_app. split; [exact Hall|]. constructor; [|constructor].
  repeat split. exact Hin.
Qed.

Lemma Forall_mvalues_mset : forall (P : TestGroup -> Prop) k v m,
    P v -> Forall P (mvalues m) -> Forall P (mvalues (mset Key_eqb k v m)).
Proof.
  intros P k v m Hv Hm. apply Forall_forall. intros g Hg.
  unfold mvalues in Hg. apply in_map_iff in Hg. destruct Hg as ([k' g'] & <- & Hin).
  apply (In_mset Key_eqb_spec) in Hin. destruct Hin as [Heq|Hin].
  - injection Heq as -> ->. exact Hv.
  - rewrite Forall_forall in Hm. apply Hm. unfold mvalues.
    apply in_map_iff. exists (k', g'). split; [reflexivity | exact Hin].
Qed.

Lemma placeInBucket_ok : forall b test b',
    In test input ->
    bucketOk input (_workerHash test) (_requireFile test) b ->
    placeInBucket b test = Some b' ->
    bucketOk input (_workerHash test) (_requireFile test) b'.
Proof.
  intros b test b' Hin (Hg & Hh & Hp). unfold placeInBucket.
  destruct (insideParallel _).
  - destruct (_ && _).
    + intro H. injection H as <-. unfold bucketOk. simpl.
      split; [exact Hg|]. split; [|exact Hp]. apply pushTest_ok; assumption.
    + destruct (mget Key_eqb _ (parallel b)) as [g|] eqn:Eg.
      * intro H. injection H as <-. unfold bucketOk. simpl.
        split; [exact Hg|]. split; [exact Hh|].
        apply Forall_mvalues_mset; [|exact Hp].
        apply pushTest_ok; [exact Hin|].
        rewrite Forall_forall in Hp. apply Hp. unfold mvalues.
        apply in_map_iff. eexists. split; [|apply (mget_In Key_eqb_spec); exact Eg].
        reflexivity.
      * destruct (createGroup test) as [g|] eqn:Ec; [|discriminate].
        intro H. injection H as <-. unfold bucketOk. simpl.
        split; [exact Hg|]. split; [exact Hh|].
        apply Forall_mvalues_mset; [|exact Hp].
        apply pushTest_ok; [exact Hin|]. apply createGroup_ok; assumption.
  - intro H. injection H as <-. unfold bucketOk. simpl.
    split; [|split; [exact Hh | exact Hp]]. apply pushTest_ok; assumption.
Qed.

Lemma getBucket_ok : forall groups test b,
    groupsOk input groups -> getBucket groups test = Some b ->
    bucketOk input (_workerHash test) (_requireFile test) b.
Proof.
  intros groups test b Hok. unfold getBucket.
  destruct (mget String.eqb (_workerHash test) groups) as [m|] eqn:Em; [|discriminate].
  intro Hb. apply (mget_In string_eqb_spec) in Em, Hb. eapply Hok; eassumption.
Qed.

Lemma setBucket_ok : forall groups test b,
    groupsOk input groups ->
    bucketOk input (_workerHash test) (_requireFile test) b ->
    groupsOk input (setBucket groups test b).
Proof.
  intros groups test b Hok Hb wh m rf b0 Hm Hb0. unfold setBucket in Hm.
  apply (In_mset string_eqb_spec) in Hm. destruct Hm as [Heq|Hm].
  - injection Heq as -> ->.
    apply (In_mset string_eqb_spec) in Hb0. destruct Hb0 as [Heq|Hb0].
    + injection Heq as -> ->. exact Hb.
    + destruct (mget String.eqb (_workerHash test) groups) as [m0|] eqn:Em; [|contradiction].
      apply (mget_In string_eqb_spec) in Em. eapply Hok; eassumption.
  - eapply Hok; eassumption.
Qed.

Lemma addTest_ok : forall groups test groups',
    In test input -> groupsOk input groups ->
    addTest groups test = Some groups' -> groupsOk input groups'.
Proof.
  intros groups test groups' Hin Hok. unfold addTest.
  destruct (getBucket groups test) as [b|] eqn:Eb.
  - destruct (placeInBucket b test) as [b'|] eqn:Ep; [|discriminate].
    intro H. injection H as <-. apply setBucket_ok; [exact Hok|].
    eapply placeInBucket_ok; [exact Hin | | exact Ep].
    eapply getBucket_ok; eassumption.
  - unfold freshBucket. destruct (createGroup test) as [g|] eqn:Ec; [|discriminate].
    destruct (placeInBucket _ test) as [b'|] eqn:Ep; [|discriminate].
    intro H. injection H as <-. apply setBucket_ok; [exact Hok|].
    eapply placeInBucket_ok; [exact Hin | | exact Ep].
    pose proof (@createGroup_ok test g Hin Ec) as Hg.
    unfold bucketOk. simpl. split; [exact Hg|]. split; [exact Hg | constructor].
Qed.

Lemma addTests_ok : forall ts groups groups',
    incl ts input -> groupsOk input groups ->
    addTests groups ts = Some groups' -> groupsOk input groups'.
Proof.
  induction ts as [|t rest IH]; intros groups groups' Hincl Hok H; simpl in H.
  - injection H as <-. exact Hok.
  - destruct (addTest groups t) as [g1|] eqn:E1; [|discriminate].
    apply (IH g1); [ | | exact H].
    + intros x Hx. apply Hincl. right. exact Hx.
    + eapply addTest_ok; [| exact Hok | exact E1]. apply Hincl. left. reflexivity.
Qed.

Lemma splitWithHooks_ok : forall n workers wh rf ts done lastGroup gs,
    Forall (fun t => In t input /\ _workerHash t = wh /\ _requireFile t = rf) ts ->
    Forall (groupOk input wh rf) done ->
    (forall g, lastGroup = Some g -> groupOk input wh rf g) ->
    splitWithHooks n workers done lastGroup ts = Some gs ->
    Forall (groupOk input wh rf) gs.
Proof.
  intros n workers wh rf. induction ts as [|test rest IH];
    intros done lastGroup gs Hts Hdone Hlast Hrun; simpl in Hrun.
  - injection Hrun as <-. apply Forall_app. split; [exact Hdone|].
    destruct lastGroup as [g|]; constructor; [apply Hlast; reflexivity | constructor].
  - inversion Hts as [|? ? (Hin & Hwh & Hrf) Hrest]; subst.
    assert (Hnew : forall g', createGroup test = Some g' ->
              forall g0, Some (pushTest g' test) = Some g0 ->
              groupOk input (_workerHash test) (_requireFile test) g0).
    { intros g' Hc g0 Hg0. injection Hg0 as <-.
      apply pushTest_ok; [exact Hin|]. apply createGroup_ok; assumption. }
    destruct lastGroup as [g|].
    + destruct (groupIsFull _ _ _).
      * destruct (createGroup test) as [g'|] eqn:Ec; [|discriminate].
        eapply IH; [exact Hrest | | | exact Hrun].
        -- apply Forall_app. split; [exact Hdone|].
           constructor; [apply Hlast; reflexivity | constructor].
        -- apply Hnew. reflexivity.
      * eapply IH; [exact Hrest | exact Hdone | | exact Hrun].
        intros g0 Hg0. injection Hg0 as <-.
        apply pushTest_ok; [exact Hin|]. apply Hlast. reflexivity.
    + destruct (createGroup test) as [g'|] eqn:Ec; [|discriminate].
      eapply IH; [exact Hrest | exact Hdone | | exact Hrun].
      apply Hnew. reflexivity.
Qed.

Lemma emitBucket_ok : forall workers wh rf b gs,
    bucketOk input wh rf b -> emitBucket workers b = Some gs ->
    Forall (groupOk input wh rf) gs.
Proof.
  intros workers wh rf b gs (Hg & Hh & Hp). unfold emitBucket.
  destruct (splitWithHooks _ _ _ _ _) as [chunks|] eqn:Es; [|discriminate].
  intro H. injection H as <-. apply Forall_app. split.
  - destruct (Nat.eqb _ 0); constructor; [exact Hg | constructor].
  - apply Forall_app. split; [exact Hp|].
    eapply splitWithHooks_ok; [ | | | exact Es].
    + apply Hh.
    + constructor.
    + intros g Hnone. discriminate Hnone.
Qed.

Lemma groupOk_pure : forall wh rf g,
    groupOk input wh rf g ->
    Forall (fun t => _workerHash t = workerHash g /\ _requireFile t = requireFile g)
           (tests g)
    /\ (hashDetermines input -> groupPure g).
Proof.
  intros wh rf g (Hw & Hr & (t0 & Hin0 & Hwh0 & Hrei & Hpid) & Hall). split.
  - eapply Forall_impl; [|exact Hall]. simpl.
    intros t (_ & Ht1 & Ht2). rewrite Hw, Hr. split; assumption.
  - intro Hdet. unfold groupPure. eapply Forall_impl; [|exact Hall]. simpl.
    intros t (Hin & Ht1 & Ht2). unfold sameAsGroup.
    destruct (Hdet t t0 Hin Hin0) as (H1 & H2); [congruence|].
    rewrite Hw, Hr, Hrei, Hpid. repeat split; assumption.
Qed.
End Purity.

Lemma addSuites_ok : forall input projectSuites groups groups',
    incl (flat_map allTests projectSuites) input ->
    groupsOk input groups ->
    addSuites groups projectSuites = Some groups' ->
    groupsOk input groups'.
Proof.
  intros input. induction projectSuites as [|s rest IH];
    intros groups groups' Hincl Hok H; simpl in H.
  - injection H as <-. exact Hok.
  - destruct (addTests groups (allTests s)) as [g1|] eqn:E1; [|discriminate].
    simpl in Hincl. apply (IH g1); [ | | exact H].
    + intros x Hx. apply Hincl. apply in_or_app. right. exact Hx.
    + eapply addTests_ok; [| exact Hok | exact E1].
      intros x Hx. apply Hincl. apply in_or_app. left. exact Hx.
Qed.

Lemma allBuckets_ok : forall input groups b,
    groupsOk input groups -> In b (allBuckets groups) ->
    exists wh rf, bucketOk input wh rf b.
Proof.
  intros input groups b Hok Hb. unfold allBuckets in Hb.
  apply in_flat_map in Hb. destruct Hb as ([wh m] & Hm & Hb).
  unfold mvalues in Hb. simpl in Hb. apply in_map_iff in Hb.
  destruct Hb as ([rf b0] & <- & Hb0). exists wh, rf. eapply Hok; eassumption.
Qed.

Lemma emitAll_ok : forall input workers bs gs,
    (forall b, In b bs -> exists wh rf, bucketOk input wh rf b) ->
    emitAll workers bs = Some gs ->
    forall g, In g gs -> exists wh rf, groupOk input wh rf g.
Proof.
  intros input workers. induction bs as [|b rest IH]; intros gs Hbs H g Hg; simpl in H.
  - injection H as <-. destruct Hg.
  - destruct (emitBucket workers b) as [part|] eqn:Eb; [|discriminate].
    destruct (emitAll workers rest) as [more|] eqn:Er; [|discriminate].
    injection H as <-. apply in_app_or in Hg. destruct Hg as [Hg|Hg].
    + destruct (Hbs b (or_introl eq_refl)) as (wh & rf & Hb).
      exists wh, rf. pose proof (emitBucket_ok _ Hb Eb) as HF.
      rewrite Forall_forall in HF. apply HF. exact Hg.
    + apply (IH more); [ | reflexivity | exact Hg].
      intros b0 Hb0. apply Hbs. right. exact Hb0.
Qed.

(** C2, as stated, fails: the grouper keys its buckets by worker hash and
    file only, so two tests that differ in their repeat index but carry the
    same worker hash land in one group. *)
Lemma group_purity_counterexample :
  exists g,
    createTestGroups [exRepeatedSuite] 1 = Some [g]
    /\ ~ groupPure g.
Proof.
  eexists. split; [vm_compute; reflexivity|].
  intro H. unfold groupPure in H. simpl in H.
  inversion H as [|? ? _ H2]; subst.
  inversion H2 as [|? ? (_ & _ & Hrep & _) _]; subst.
  simpl in Hrep. discriminate Hrep.
Qed.

(** C2, amended. Every test of an emitted group has the group's worker hash
    and file; when, among the tests given to the grouper, the worker hash
    determines the repeat index and the project, every test of the group also
    has the group's repeat index and project. *)
Theorem group_purity : forall projectSuites workers gs,
    createTestGroups projectSuites workers = Some gs ->
    forall g, In g gs ->
      Forall (fun t => _workerHash t = workerHash g /\ _requireFile t = requireFile g)
             (tests g)
      /\ (hashDetermines (flat_map allTests projectSuites) -> groupPure g).
Proof.
  intros projectSuites workers gs Hrun g Hg. unfold createTestGroups in Hrun.
  destruct (addSuites [] projectSuites) as [groups|] eqn:Ea; [|discriminate].
  assert (Hok : groupsOk (flat_map allTests projectSuites) groups).
  { eapply addSuites_ok; [apply incl_refl | | exact Ea].
    intros wh m rf b []. }
  destruct (emitAll_ok (input := flat_map allTests projectSuites) workers
              (allBuckets groups) (fun b Hb => allBuckets_ok b Hok Hb) Hrun g Hg)
    as (wh & rf & Hgok).
  eapply groupOk_pure. exact Hgok.
Qed.

Lemma exProjectSuite_hashDetermines :
  hashDetermines (flat_map allTests [exProjectSuite]).
Proof.
  intros t1 t2 H1 H2 _. vm_compute in H1, H2.
  repeat (destruct H1 as [<-|H1]; [|]); try contradiction;
    repeat (destruct H2 as [<-|H2]; [|]); try contradiction;
    split; reflexivity.
Qed.

Lemma group_purity_witness :
  exists gs,
    createTestGroups [exProjectSuite] 2 = Some gs
    /\ forall g, In g gs -> groupPure g.
Proof.
  eexists. split; [vm_compute; reflexivity|].
  intros g Hg.
  apply (@group_purity [exProjectSuite] 2 _ eq_refl g Hg).
  exact exProjectSuite_hashDetermines.
Defined.

Lemma Subseq_refl : forall (A : Type) (l : list A), Subseq l l.
Proof. induction l; constructor; assumption. Qed.

Lemma Subseq_filter : forall (A : Type) (f : A -> bool) l, Subseq (filter f l) l.
Proof.
  induction l as [|x l IH]; simpl; [constructor|].
  destruct (f x); constructor; exact IH.
Qed.

Lemma Suite_tree_ind (P : Suite -> Prop) :
  (forall nd subs ts es, Forall P subs -> P (mkSuite nd subs ts es)) ->
  forall s, P s.
Proof.
  intros H. fix IH 1. intros [nd subs ts es]. apply H.
  induction subs as [|c rest IHrest]; constructor; [apply IH | exact IHrest].
Qed.

Lemma allSuites_self : forall s, In s (allSuites s).
Proof. intros [nd subs ts es]. left. reflexivity. Qed.

Lemma allSuites_child : forall nd subs ts es c x,
    In c subs -> In x (allSuites c) -> In x (allSuites (mkSuite nd subs ts es)).
Proof.
  intros nd subs ts es c x Hc Hx. simpl. right.
  apply in_flat_map. exists c. split; assumption.
Qed.

Lemma filterSuiteWithOnlySemantics_entries : forall suiteFilter testFilter suite,
    entriesPreserved suite
      (snd (filterSuiteWithOnlySemantics suiteFilter testFilter suite)).
Proof.
  intros sF tF. induction suite as [nd subs ts es IH] using Suite_tree_ind.
  rewrite Forall_forall in IH.
  assert (Hchild : forall c', In c' (map snd (map (filterSuiteWithOnlySemantics sF tF) subs)) ->
            forall s', In s' (allSuites c') ->
            exists s, In s (allSuites (mkSuite nd subs ts es))
                      /\ node s = node s' /\ Subseq (_entries s') (_entries s)).
  { intros c' Hc' s' Hs'. rewrite map_map in Hc'. apply in_map_iff in Hc'.
    destruct Hc' as (c & <- & Hc). destruct (IH c Hc s' Hs') as (s & Hs & Hn & Hsub).
    exists s. split; [|split; assumption]. eapply allSuites_child; eassumption. }
  intros s' Hs'. simpl in Hs'.
  destruct (negb _) in Hs'; simpl in Hs'.
  - destruct Hs' as [<-|Hs'].
    + exists (mkSuite nd subs ts es). split; [left; reflexivity|].
      split; [reflexivity | apply Subseq_filter].
    + apply in_flat_map in Hs'. destruct Hs' as (c' & Hc' & Hs').
      apply (Hchild c'); [|exact Hs'].
      apply in_map_iff in Hc'. destruct Hc' as (rc & <- & Hrc).
      apply filter_In in Hrc. apply in_map. apply Hrc.
  - destruct Hs' as [<-|Hs'].
    + exists (mkSuite nd subs ts es). split; [left; reflexivity|].
      split; [reflexivity | apply Subseq_refl].
    + apply in_flat_map in Hs'. destruct Hs' as (c' & Hc' & Hs').
      apply (Hchild c'); assumption.
Qed.

Lemma filterSuite_entries : forall suiteFilter testFilter suite,
    entriesPreserved suite (filterSuite suiteFilter testFilter suite).
Proof.
  intros sF tF. induction suite as [nd subs ts es IH] using Suite_tree_ind.
  rewrite Forall_forall in IH.
  intros s' Hs'. simpl in Hs'. destruct Hs' as [<-|Hs'].
  - exists (mkSuite nd subs ts es). split; [left; reflexivity|].
    split; [reflexivity | apply Subseq_filter].
  - apply in_flat_map in Hs'. destruct Hs' as (c' & Hc' & Hs').
    apply in_map_iff in Hc'. destruct Hc' as (c & <- & Hc).
    destruct (sF c).
    + exists s'. split; [eapply allSuites_child; eassumption|].
      split; [reflexivity | apply Subseq_refl].
    + destruct (IH c Hc s' Hs') as (s & Hs & Hn & Hsub).
      exists s. split; [|split; assumption]. eapply allSuites_child; eassumption.
Qed.

(** The two filters on the example tree, keeping test 50 only: the plain
    filter keeps the suite that has no test, the only-semantics filter prunes
    it. *)
Example filters_on_example_tree :
  map (@_entries)
      (allSuites (filterSuite (fun _ => false) (fun t => Nat.eqb (tid t) 50)
                              exTwoStageRoot))
  = [[ESuite 1; ESuite 60]; [ESuite 2]; [ETest 50]; []]
  /\ map (@_entries)
         (allSuites (snd (filterSuiteWithOnlySemantics
                            (fun _ => false) (fun t => Nat.eqb (tid t) 50)
                            exTwoStageRoot)))
     = [[ESuite 1]; [ESuite 2]; [ETest 50]].
Proof. split; reflexivity. Qed.

Lemma NoDup_map_same : forall (A B : Type) (f : A -> B) l x y,
    NoDup (map f l) -> In x l -> In y l -> f x = f y -> x = y.
Proof.
  intros A B f. induction l as [|a l IH]; intros x y Hnd Hx Hy Heq; [destruct Hx|].
  simpl in Hnd. inversion Hnd as [|? ? Hnotin Hnd']; subst.
  destruct Hx as [->|Hx], Hy as [->|Hy].
  - reflexivity.
  - exfalso. apply Hnotin. rewrite Heq. apply in_map. exact Hy.
  - exfalso. apply Hnotin. rewrite <- Heq. apply in_map. exact Hx.
  - apply IH; assumption.
Qed.

Lemma entriesPreserved_by_id : forall before after,
    uniqueSuites before -> entriesPreserved before after ->
    entriesPreservedById before after.
Proof.
  intros before after Hu Hp s s' Hs Hs' Hid.
  destruct (Hp s' Hs') as (s0 & Hs0 & Hnode & Hsub).
  assert (s0 = s).
  { apply (NoDup_map_same (fun s => sid (node s)) _ _ _ Hu Hs0 Hs).
    rewrite Hnode. symmetry. exact Hid. }
  subst s0. exact Hsub.
Qed.

(** C9. After plain filtering and after filtering with only-semantics, every
    suite of the resulting tree is a suite of the tree before the filter (same
    identity and attributes) whose entries are a subsequence of the entries it
    had before; when the suites of the tree have distinct identities, the
    entries of a suite after the filter are a subsequence of the entries that
    the suite of that identity had before. *)
Theorem filters_preserve_entry_order : forall suiteFilter testFilter suite,
    let only := snd (filterSuiteWithOnlySemantics suiteFilter testFilter suite) in
    let plain := filterSuite suiteFilter testFilter suite in
    (entriesPreserved suite only /\ entriesPreserved suite plain)
    /\ (uniqueSuites suite ->
        entriesPreservedById suite only /\ entriesPreservedById suite plain).
Proof.
  intros sF tF suite only plain.
  assert (H1 : entriesPreserved suite only)
    by apply filterSuiteWithOnlySemantics_entries.
  assert (H2 : entriesPreserved suite plain) by apply filterSuite_entries.
  split; [split; assumption|].
  intro Hu. split; apply entriesPreserved_by_id; assumption.
Qed.

Lemma filters_preserve_entry_order_witness :
  uniqueSuites exPairRoot
  /\ entriesPreservedById exPairRoot
       (snd (filterSuiteWithOnlySemantics (fun _ => false)
               (fun t => Nat.eqb (tid t) 50) exPairRoot))
  /\ entriesPreservedById exPairRoot
       (filterSuite (fun _ => false) (fun t => Nat.eqb (tid t) 50) exPairRoot).
Proof.
  assert (Hu : uniqueSuites exPairRoot).
  { unfold uniqueSuites. simpl.
    repeat (constructor; [simpl; intro H; repeat (destruct H as [H|H]; [discriminate H|]); exact H|]).
    constructor. }
  split; [exact Hu|].
  exact (proj2 (@filters_preserve_entry_order (fun _ => false)
                  (fun t => Nat.eqb (tid t) 50) exPairRoot) Hu).
Defined.

Local Open Scope Z_scope.

Lemma shardableTotalLoop_spec : forall projectSuites acc n,
    shardableTotalLoop acc projectSuites = Some n ->
    n = acc + Z.of_nat (length (flat_map allTests (filter shardableSuite projectSuites))).
Proof.
  induction projectSuites as [|s rest IH]; intros acc n H; simpl in H.
  - injection H as <-. simpl. lia.
  - simpl. unfold shardableSuite at 1.
    destruct (project (node s)) as [p|]; [|discriminate].
    destruct (isAlways (run p)); simpl.
    + apply IH. exact H.
    + apply IH in H. rewrite length_app. lia.
Qed.

Lemma shardableTotalLoop_total : forall projectSuites acc,
    Forall (fun s => project (node s) <> None) projectSuites ->
    exists n, shardableTotalLoop acc projectSuites = Some n.
Proof.
  induction projectSuites as [|s rest IH]; intros acc H; simpl.
  - eexists. reflexivity.
  - inversion H as [|? ? Hs Hrest]; subst.
    destruct (project (node s)) as [p|]; [|contradiction].
    destruct (isAlways (run p)); apply IH; exact Hrest.
Qed.

Lemma counterAfter_app : forall l1 l2,
    counterAfter (l1 ++ l2) = counterAfter l1 + counterAfter l2.
Proof.
  induction l1 as [|g l1 IH]; intro l2; simpl; [reflexivity|].
  rewrite IH. lia.
Qed.

Section ShardWalkFacts.
Variable inShard : Z -> bool.
Variables from to : Z.
Hypothesis inShard_spec : forall c, inShard c = (from <=? c) && (c <? to).

Lemma shardStage_spec : forall stage seen st,
    counter st = counterAfter seen ->
    shardStage inShard st stage =
    ({| counter := counterAfter (seen ++ stage);
        shardTests := shardTests st
                      ++ flat_map tests (retainStage from to seen stage) |},
     retainStage from to seen stage).
Proof.
  intro stage. induction stage as [|g rest IH]; intros seen [c ts] Hc; simpl in *.
  - rewrite !app_nil_r. subst c. reflexivity.
  - subst c.
    rewrite (IH (seen ++ [g])).
    2:{ simpl. rewrite counterAfter_app. simpl. unfold shardable.
        destruct (isAlways (group_run g)); simpl; lia. }
    simpl. rewrite <- app_assoc. simpl.
    unfold retained. rewrite inShard_spec.
    destruct (isAlways (group_run g)); simpl.
    + rewrite <- app_assoc. reflexivity.
    + destruct ((from <=? counterAfter seen) && (counterAfter seen <? to)); simpl.
      * rewrite <- app_assoc. reflexivity.
      * reflexivity.
Qed.

Lemma shardStages_spec : forall stages seen st,
    counter st = counterAfter seen ->
    shardStages inShard st stages =
    ({| counter := counterAfter (seen ++ concat stages);
        shardTests := shardTests st
                      ++ flat_map tests (concat (retainStages from to seen stages)) |},
     filter nonEmpty (retainStages from to seen stages)).
Proof.
  induction stages as [|stage rest IH]; intros seen [c ts] Hc; simpl in *.
  - rewrite !app_nil_r. subst c. reflexivity.
  - rewrite (shardStage_spec stage seen {| counter := c; shardTests := ts |} Hc). simpl.
    rewrite (IH (seen ++ stage)) by reflexivity. simpl.
    rewrite flat_map_app, <- !app_assoc.
    destruct (retainStage from to seen stage); reflexivity.
Qed.
End ShardWalkFacts.

Lemma flat_map_filter_nonEmpty : forall (gss : list (list TestGroup)),
    concat (filter nonEmpty gss) = concat gss.
Proof.
  induction gss as [|gs rest IH]; simpl; [reflexivity|].
  destruct gs; simpl; [exact IH | rewrite IH; reflexivity].
Qed.

(** The division is the floor of the quotient and the remainder counts the
    shards that receive one test more. *)
Lemma shardSize_floor : forall n shard,
    0 < total shard ->
    shardSizeOf n shard * total shard <= n < (shardSizeOf n shard + 1) * total shard
    /\ 0 <= extraOneOf n shard < total shard.
Proof.
  intros n shard Ht. unfold extraOneOf, shardSizeOf.
  pose proof (Z.div_mod n (total shard) ltac:(lia)) as Hdm.
  pose proof (Z.mod_pos_bound n (total shard) Ht) as Hb.
  nia.
Qed.

Lemma filterForCurrentShard_result : forall shard rootSuite stages rootSuite' stages',
    total shard <> 0 ->
    _filterForCurrentShard (Some shard) rootSuite stages = Some (rootSuite', stages') ->
    let n := shardableTotalOf rootSuite in
    stages' = filter nonEmpty (retainStages (fromOf n shard) (toOf n shard) [] stages)
    /\ rootSuite' =
       snd (filterSuiteWithOnlySemantics
              (fun _ => false) (hasTest (flat_map tests (concat stages'))) rootSuite).
Proof.
  intros shard rootSuite stages rootSuite' stages' Ht Hrun n.
  unfold _filterForCurrentShard in Hrun.
  destruct (shardableTotalLoop 0 (suites rootSuite)) as [n0|] eqn:En; [|discriminate].
  apply shardableTotalLoop_spec in En. simpl in En. fold (shardableTotalOf rootSuite) in En.
  fold n in En. subst n0.
  rewrite (@shardStages_spec (startsInShard n shard) (fromOf n shard) (toOf n shard))
    with (seen := []) in Hrun.
  - simpl in Hrun. injection Hrun as <- <-. split; [reflexivity|].
    rewrite flat_map_filter_nonEmpty. reflexivity.
  - intro c. unfold startsInShard.
    destruct (Z.eqb_spec (total shard) 0); [contradiction | reflexivity].
  - reflexivity.
Qed.

Lemma filterForCurrentShard_total : forall shard rootSuite stages,
    Forall (fun s => project (node s) <> None) (suites rootSuite) ->
    exists rootSuite' stages',
      _filterForCurrentShard (Some shard) rootSuite stages = Some (rootSuite', stages').
Proof.
  intros shard rootSuite stages Hproj. unfold _filterForCurrentShard.
  destruct (shardableTotalLoop_total 0 Hproj) as (n0 & ->).
  destruct (shardStages _ _ _). eexists. eexists. reflexivity.
Qed.

(** C3. With a shard configuration whose total is positive, the filter uses
    [shardSize = floor(shardableTotal / total)] and
    [extraOne = shardableTotal - shardSize * total], where [shardableTotal]
    counts the tests of the project suites whose project does not run always,
    and the bounds [from] and [to] of the current shard.  Walking the stages in
    order, it keeps every group that runs always, and keeps a shardable group
    exactly when the number of shardable tests in the groups before it lies in
    [from, to); stages left without a group are dropped, and the suite tree is
    pruned to the tests of the groups kept. *)
Theorem shard_filter_follows_spec : forall shard rootSuite stages rootSuite' stages',
    0 < total shard ->
    _filterForCurrentShard (Some shard) rootSuite stages = Some (rootSuite', stages') ->
    let n := shardableTotalOf rootSuite in
    let shardSize := shardSizeOf n shard in
    let extraOne := extraOneOf n shard in
    let k := current shard - 1 in
    let from := shardSize * k + Z.min extraOne k in
    let to := from + shardSize + (if k <? extraOne then 1 else 0) in
    (shardSize * total shard <= n < (shardSize + 1) * total shard)
    /\ extraOne = n - shardSize * total shard
    /\ stages' = filter nonEmpty (retainStages from to [] stages)
    /\ rootSuite' =
       snd (filterSuiteWithOnlySemantics
              (fun _ => false) (hasTest (flat_map tests (concat stages'))) rootSuite).
Proof.
  intros shard rootSuite stages rootSuite' stages' Ht Hrun n shardSize extraOne k from to.
  split; [apply shardSize_floor; exact Ht|]. split; [reflexivity|].
  apply filterForCurrentShard_result; [lia | exact Hrun].
Qed.

(** ** The shards partition the shardable groups *)

Section ShardIntervals.
Variables n tot : Z.
Hypothesis tot_pos : 0 < tot.
Hypothesis n_nonneg : 0 <= n.

Lemma size_bounds : 0 <= (n / tot) /\ 0 <= (n - n / tot * tot) < tot.
Proof.
  pose proof (Z.div_mod n tot ltac:(lia)) as Hdm.
  pose proof (Z.mod_pos_bound n tot tot_pos) as Hb.
  pose proof (Z.div_pos n tot n_nonneg tot_pos) as Hs.
  nia.
Qed.

Lemma fromOf_unfold : forall k,
    fromOf n (mkShard k tot) = (n / tot) * (k - 1) + Z.min (n - n / tot * tot) (k - 1).
Proof. reflexivity. Qed.

Lemma toOf_next : forall k, toOf n (mkShard k tot) = fromOf n (mkShard (k + 1) tot).
Proof.
  intro k. unfold toOf. rewrite !fromOf_unfold.
  change (shardSizeOf n (mkShard k tot)) with (n / tot).
  change (extraOneOf n (mkShard k tot)) with (n - n / tot * tot).
  change (current (mkShard k tot)) with k.
  replace (k + 1 - 1) with (k - 1 + 1) by lia.
  destruct (Z.ltb_spec (k - 1) (n - n / tot * tot)); lia.
Qed.

Lemma fromOf_first : fromOf n (mkShard 1 tot) = 0.
Proof. rewrite fromOf_unfold. pose proof size_bounds. lia. Qed.

Lemma fromOf_last : fromOf n (mkShard (tot + 1) tot) = n.
Proof. rewrite fromOf_unfold. pose proof size_bounds. lia. Qed.

Lemma fromOf_mono : forall k1 k2,
    k1 <= k2 -> fromOf n (mkShard k1 tot) <= fromOf n (mkShard k2 tot).
Proof.
  intros k1 k2 Hk. rewrite !fromOf_unfold. pose proof size_bounds as (Hs & _).
  assert ((n / tot) * (k1 - 1) <= (n / tot) * (k2 - 1)) by nia. lia.
Qed.

(** Every counter value below the total starts in some shard... *)
Lemma shard_exists : forall c,
    0 <= c < n ->
    exists k, 1 <= k <= tot
              /\ fromOf n (mkShard k tot) <= c < toOf n (mkShard k tot).
Proof.
  intros c Hc.
  assert (Hstep : forall m : nat,
             c < fromOf n (mkShard (Z.of_nat m + 1) tot) ->
             exists k, 1 <= k <= Z.of_nat m
                       /\ fromOf n (mkShard k tot) <= c < toOf n (mkShard k tot)).
  { induction m as [|m IH]; intro Hlt.
    - simpl in Hlt. rewrite fromOf_first in Hlt. lia.
    - destruct (Z_lt_dec c (fromOf n (mkShard (Z.of_nat m + 1) tot))) as [Hlo|Hhi].
      + destruct (IH Hlo) as (k & Hk & Hin). exists k. split; [lia | exact Hin].
      + exists (Z.of_nat m + 1). split; [lia|]. rewrite toOf_next.
        replace (Z.of_nat m + 1 + 1) with (Z.of_nat (S m) + 1) by lia. lia. }
  destruct (Hstep (Z.to_nat tot)) as (k & Hk & Hin).
  - rewrite Z2Nat.id by lia. rewrite fromOf_last. lia.
  - exists k. split; [lia | exact Hin].
Qed.

(** ... and in one shard only. *)
Lemma shard_unique : forall c k1 k2,
    fromOf n (mkShard k1 tot) <= c < toOf n (mkShard k1 tot) ->
    fromOf n (mkShard k2 tot) <= c < toOf n (mkShard k2 tot) ->
    k1 = k2.
Proof.
  intros c k1 k2 H1 H2. rewrite toOf_next in H1, H2.
  destruct (Z.lt_trichotomy k1 k2) as [Hlt|[Heq|Hgt]]; [|exact Heq|].
  - pose proof (@fromOf_mono (k1 + 1) k2 ltac:(lia)). lia.
  - pose proof (@fromOf_mono (k2 + 1) k1 ltac:(lia)). lia.
Qed.

Lemma shard_bounds : forall k,
    1 <= k <= tot ->
    0 <= fromOf n (mkShard k tot)
    /\ fromOf n (mkShard k tot) <= toOf n (mkShard k tot)
    /\ toOf n (mkShard k tot) <= n.
Proof.
  intros k Hk. rewrite toOf_next.
  pose proof (@fromOf_mono 1 k ltac:(lia)) as H1.
  pose proof (@fromOf_mono k (k + 1) ltac:(lia)) as H2.
  pose proof (@fromOf_mono (k + 1) (tot + 1) ltac:(lia)) as H3.
  rewrite fromOf_first in H1. rewrite fromOf_last in H3. lia.
Qed.

Lemma shard_width : forall k,
    toOf n (mkShard k tot) - fromOf n (mkShard k tot)
    = shardSizeOf n (mkShard k tot)
      + (if k - 1 <? extraOneOf n (mkShard k tot) then 1 else 0).
Proof. intro k. unfold toOf. simpl. lia. Qed.
End ShardIntervals.

Lemma retainStage_app : forall from to l1 l2 seen,
    retainStage from to seen (l1 ++ l2)
    = retainStage from to seen l1 ++ retainStage from to (seen ++ l1) l2.
Proof.
  intros from to. induction l1 as [|g l1 IH]; intros l2 seen; simpl.
  - rewrite app_nil_r. reflexivity.
  - rewrite IH, <- !app_assoc. reflexivity.
Qed.

Lemma retainStages_concat : forall from to stages seen,
    concat (retainStages from to seen stages)
    = retainStage from to seen (concat stages).
Proof.
  intros from to. induction stages as [|st rest IH]; intro seen; simpl.
  - reflexivity.
  - rewrite IH, retainStage_app. reflexivity.
Qed.

Lemma retainStage_shardable : forall from to gs seen,
    filter shardable (retainStage from to seen gs)
    = map snd (filter (inInterval from to) (starts (counterAfter seen) gs)).
Proof.
  intros from to. induction gs as [|g rest IH]; intro seen; simpl; [reflexivity|].
  rewrite filter_app, IH, counterAfter_app. simpl.
  unfold retained, shardable at 1 2 3.
  destruct (isAlways (group_run g)) eqn:Ea; simpl.
  - unfold shardable. rewrite Ea. simpl. rewrite !Z.add_0_r. reflexivity.
  - rewrite Z.add_0_r. unfold inInterval at 2. simpl.
    destruct ((from <=? counterAfter seen) && (counterAfter seen <? to)); simpl.
    + unfold shardable. rewrite Ea. reflexivity.
    + reflexivity.
Qed.

Lemma starts_snd : forall gs c, map snd (starts c gs) = filter shardable gs.
Proof.
  induction gs as [|g rest IH]; intro c; simpl; [reflexivity|].
  destruct (shardable g); simpl; rewrite IH; reflexivity.
Qed.

Lemma counterAfter_nonneg : forall gs, 0 <= counterAfter gs.
Proof.
  induction gs as [|g rest IH]; simpl; [lia|].
  unfold testCount. destruct (shardable g); lia.
Qed.

Lemma starts_range : forall gs c c' g,
    In (c', g) (starts c gs) ->
    c <= c' /\ c' + testCount g <= c + counterAfter gs.
Proof.
  induction gs as [|g0 rest IH]; intros c c' g Hin; simpl in *; [contradiction|].
  pose proof (counterAfter_nonneg rest) as Hnn.
  destruct (shardable g0).
  - destruct Hin as [Heq|Hin].
    + injection Heq as <- <-. lia.
    + apply IH in Hin. unfold testCount in *. lia.
  - apply IH in Hin. lia.
Qed.

Lemma retainedShardable_spec : forall shard rootSuite stages,
    0 < total shard ->
    Forall (fun s => project (node s) <> None) (suites rootSuite) ->
    let n := shardableTotalOf rootSuite in
    retainedShardable shard rootSuite stages
    = flat_map tests
        (map snd (filter (inInterval (fromOf n shard) (toOf n shard))
                         (starts 0 (concat stages)))).
Proof.
  intros shard rootSuite stages Ht Hproj n. unfold retainedShardable.
  destruct (@filterForCurrentShard_total shard rootSuite stages Hproj)
    as (rootSuite' & stages' & Erun).
  rewrite Erun.
  destruct (@filterForCurrentShard_result shard rootSuite stages rootSuite' stages'
              ltac:(lia) Erun) as (Hst & _).
  unfold shardableTestsOf. rewrite Hst, flat_map_filter_nonEmpty.
  rewrite retainStages_concat, retainStage_shardable. reflexivity.
Qed.

Lemma NoDup_app_disjoint : forall (A : Type) (l1 l2 : list A) x,
    NoDup (l1 ++ l2) -> In x l1 -> In x l2 -> False.
Proof.
  induction l1 as [|a l1 IH]; intros l2 x Hnd H1 H2; [destruct H1|].
  simpl in Hnd. inversion Hnd as [|? ? Hnotin Hnd']; subst.
  destruct H1 as [->|H1].
  - apply Hnotin. apply in_or_app. right. exact H2.
  - exact (IH l2 x Hnd' H1 H2).
Qed.

Lemma NoDup_app_right : forall (A : Type) (l1 l2 : list A),
    NoDup (l1 ++ l2) -> NoDup l2.
Proof.
  induction l1 as [|a l1 IH]; intros l2 H; [exact H|].
  inversion H; subst. apply IH. assumption.
Qed.

(** In a duplicate-free concatenation an element belongs to one part only. *)
Lemma NoDup_flat_map_same : forall (A B : Type) (f : A -> list B) l x y t,
    NoDup (flat_map f l) -> In x l -> In y l -> In t (f x) -> In t (f y) -> x = y.
Proof.
  intros A B f. induction l as [|a l IH]; intros x y t Hnd Hx Hy Htx Hty; [destruct Hx|].
  simpl in Hnd. destruct Hx as [->|Hx], Hy as [->|Hy].
  - reflexivity.
  - exfalso. eapply NoDup_app_disjoint; [exact Hnd | exact Htx |].
    apply in_flat_map. exists y. split; assumption.
  - exfalso. eapply NoDup_app_disjoint; [exact Hnd | exact Hty |].
    apply in_flat_map. exists x. split; assumption.
  - apply (IH x y t); try assumption. eapply NoDup_app_right. exact Hnd.
Qed.

Lemma starts_singletons_count : forall from to gs c,
    Forall (fun g => length (tests g) = 1%nat) (filter shardable gs) ->
    Z.of_nat (length (filter (inInterval from to) (starts c gs)))
    = Z.max 0 (Z.min to (c + counterAfter gs) - Z.max from c).
Proof.
  intros from to. induction gs as [|g rest IH]; intros c Hone; simpl in *.
  - lia.
  - pose proof (counterAfter_nonneg rest) as Hnn.
    destruct (shardable g).
    + inversion Hone as [|? ? Hg Hrest]; subst.
      unfold testCount. rewrite Hg.
      specialize (IH (c + Z.of_nat 1) Hrest).
      cbn [filter]. unfold inInterval at 1. cbn [fst].
      change (Z.of_nat 1) with 1 in *.
      remember (length (filter (inInterval from to) (starts (c + 1) rest))) as len.
      destruct (Z.leb_spec from c); destruct (Z.ltb_spec c to); cbn [andb length];
        rewrite <- ?Heqlen; lia.
    + rewrite (IH c Hone). lia.
Qed.

Lemma flat_map_singletons_length : forall (gs : list TestGroup),
    Forall (fun g => length (tests g) = 1%nat) gs ->
    length (flat_map tests gs) = length gs.
Proof.
  induction gs as [|g rest IH]; intro H; simpl; [reflexivity|].
  inversion H as [|? ? Hg Hrest]; subst.
  rewrite length_app, Hg, (IH Hrest). reflexivity.
Qed.

Lemma Forall_filter_sub : forall (A : Type) (P : A -> Prop) (f : A -> bool) l,
    Forall P l -> Forall P (filter f l).
Proof.
  intros A P f l H. rewrite Forall_forall in *. intros x Hx.
  apply filter_In in Hx. apply H. apply Hx.
Qed.

(** C4, as stated, fails in its count: a group goes whole to the shard in
    which its first test falls.  With two tests in one group and two shards,
    the first shard keeps both tests although
    [shardSize + (0 < extraOne ? 1 : 0)] is one; the second shard keeps none. *)
Lemma shard_count_counterexample :
  createTestGroups (suites exPairRoot) 1 = Some (concat exPairStages)
  /\ shardableTotalOf exPairRoot = 2
  /\ Z.of_nat (length (retainedShardable (mkShard 1 2) exPairRoot exPairStages)) = 2
  /\ shardSizeOf 2 (mkShard 1 2)
     + (if 1 - 1 <? extraOneOf 2 (mkShard 1 2) then 1 else 0) = 1
  /\ retainedShardable (mkShard 2 2) exPairRoot exPairStages = [].
Proof. repeat split; vm_compute; reflexivity. Qed.

(** C4, amended. Let the groups of the stages hold [shardableTotal] shardable
    tests in all, no shardable group be empty and no shardable test occur
    twice.  Running the filter for each shard 1 .. total, a test is shardable
    exactly when some shard keeps it, and no two shards keep the same test.  A
    group goes whole to the shard in which its first test falls; when every
    shardable group holds one test, shard [k] keeps
    [shardSize + (k - 1 < extraOne ? 1 : 0)] shardable tests. *)
Theorem shards_partition_tests : forall rootSuite stages tot,
    0 < tot ->
    Forall (fun s => project (node s) <> None) (suites rootSuite) ->
    counterAfter (concat stages) = shardableTotalOf rootSuite ->
    Forall (fun g => tests g <> []) (filter shardable (concat stages)) ->
    NoDup (shardableTestsOf stages) ->
    let n := shardableTotalOf rootSuite in
    let kept k := retainedShardable (mkShard k tot) rootSuite stages in
    (forall t, In t (shardableTestsOf stages)
               <-> exists k, 1 <= k <= tot /\ In t (kept k))
    /\ (forall k1 k2 t,
           1 <= k1 <= tot -> 1 <= k2 <= tot ->
           In t (kept k1) -> In t (kept k2) -> k1 = k2)
    /\ (Forall (fun g => length (tests g) = 1%nat) (filter shardable (concat stages)) ->
        forall k, 1 <= k <= tot ->
          Z.of_nat (length (kept k))
          = shardSizeOf n (mkShard k tot)
            + (if k - 1 <? extraOneOf n (mkShard k tot) then 1 else 0)).
Proof.
  intros rootSuite stages tot Htot Hproj Hsum Hne Hnd n kept.
  assert (Hn : 0 <= n) by (unfold n, shardableTotalOf; lia).
  assert (Hkept : forall k, kept k =
            flat_map tests
              (map snd (filter (inInterval (fromOf n (mkShard k tot)) (toOf n (mkShard k tot)))
                               (starts 0 (concat stages))))).
  { intro k. unfold kept. apply retainedShardable_spec; [exact Htot | exact Hproj]. }
  assert (Hin : forall k t, In t (kept k) <->
            exists c g, In (c, g) (starts 0 (concat stages))
                        /\ fromOf n (mkShard k tot) <= c < toOf n (mkShard k tot)
                        /\ In t (tests g)).
  { intros k t. rewrite Hkept. split.
    - intro H. apply in_flat_map in H. destruct H as (g & Hg & Ht).
      apply in_map_iff in Hg. destruct Hg as ([c g0] & Heq & Hcg). simpl in Heq. subst g0.
      apply filter_In in Hcg. destruct Hcg as (Hcg & Hint).
      unfold inInterval in Hint. simpl in Hint. exists c, g.
      split; [exact Hcg|]. split; [lia | exact Ht].
    - intros (c & g & Hcg & Hint & Ht). apply in_flat_map. exists g. split; [|exact Ht].
      apply in_map_iff. exists (c, g). split; [reflexivity|].
      apply filter_In. split; [exact Hcg|]. unfold inInterval. simpl. lia. }
  assert (Hshardable : forall t, In t (shardableTestsOf stages) <->
            exists c g, In (c, g) (starts 0 (concat stages)) /\ In t (tests g)).
  { intro t. unfold shardableTestsOf. rewrite <- (starts_snd (concat stages) 0). split.
    - intro H. apply in_flat_map in H. destruct H as (g & Hg & Ht).
      apply in_map_iff in Hg. destruct Hg as ([c g0] & Heq & Hcg). simpl in Heq. subst g0.
      exists c, g. split; assumption.
    - intros (c & g & Hcg & Ht). apply in_flat_map. exists g. split; [|exact Ht].
      apply in_map_iff. exists (c, g). split; [reflexivity | exact Hcg]. }
  split; [|split].
  - intro t. rewrite Hshardable. split.
    + intros (c & g & Hcg & Ht).
      assert (Hc : 0 <= c < n).
      { pose proof Hcg as Hr. apply starts_range in Hr. destruct Hr as (Hlo & Hhi).
        assert (Hg : tests g <> []).
        { rewrite Forall_forall in Hne. apply Hne.
          rewrite <- (starts_snd (concat stages) 0). apply in_map_iff.
          exists (c, g). split; [reflexivity | exact Hcg]. }
        unfold testCount in Hhi. destruct (tests g); [contradiction|].
        simpl length in Hhi. unfold n. lia. }
      destruct (@shard_exists n tot Htot Hn c Hc) as (k & Hk & Hint).
      exists k. split; [exact Hk|]. apply Hin. exists c, g. repeat split; try assumption; lia.
    + intros (k & _ & Hk). apply Hin in Hk. destruct Hk as (c & g & Hcg & _ & Ht).
      exists c, g. split; assumption.
  - intros k1 k2 t _ _ H1 H2. apply Hin in H1, H2.
    destruct H1 as (c1 & g1 & Hcg1 & Hint1 & Ht1).
    destruct H2 as (c2 & g2 & Hcg2 & Hint2 & Ht2).
    assert (Heq : (c1, g1) = (c2, g2)).
    { apply (@NoDup_flat_map_same _ _ (fun cg => tests (snd cg))
               (starts 0 (concat stages)) (c1, g1) (c2, g2) t); try assumption.
      unfold shardableTestsOf in Hnd.
      rewrite <- (starts_snd (concat stages) 0), flat_map_concat_map, map_map,
        <- flat_map_concat_map in Hnd. exact Hnd. }
    injection Heq as <- <-.
    exact (@shard_unique n tot Htot Hn c1 k1 k2 Hint1 Hint2).
  - intros Hone k Hk. rewrite Hkept.
    rewrite flat_map_singletons_length.
    2:{ rewrite Forall_forall in *. intros g Hg. apply Hone.
        rewrite <- (starts_snd (concat stages) 0).
        apply in_map_iff in Hg. destruct Hg as (cg & <- & Hcg).
        apply filter_In in Hcg. apply in_map. apply Hcg. }
    rewrite length_map, starts_singletons_count by exact Hone.
    pose proof (@shard_bounds n tot Htot Hn k Hk) as (Hlo & Hmid & Hhi).
    rewrite <- (@shard_width n tot k). unfold n in *. lia.
Qed.

Lemma shard_filter_follows_spec_witness :
  exists rootSuite' stages',
    _filterForCurrentShard (Some (mkShard 3 3)) exTenRoot exTenStages
    = Some (rootSuite', stages')
    /\ map (map (fun g => map tid (tests g))) stages' = [[[107%nat]; [108%nat]; [109%nat]]]
    /\ stages' = filter nonEmpty (retainStages 7 10 [] exTenStages).
Proof.
  destruct (_filterForCurrentShard (Some (mkShard 3 3)) exTenRoot exTenStages)
    as [[rootSuite' stages']|] eqn:Erun; [|vm_compute in Erun; discriminate Erun].
  exists rootSuite', stages'. split; [reflexivity|].
  destruct (@shard_filter_follows_spec (mkShard 3 3) exTenRoot exTenStages
              rootSuite' stages' eq_refl Erun) as (_ & _ & Hst & _).
  split; [|exact Hst].
  rewrite Hst. vm_compute. reflexivity.
Defined.

Lemma exTen_NoDup : NoDup (shardableTestsOf exTenStages).
Proof.
  apply (NoDup_map_inv tid). vm_compute.
  repeat (constructor; [simpl; intro H; repeat (destruct H as [H|H]; [discriminate H|]); exact H|]).
  constructor.
Qed.

Lemma shards_partition_tests_witness :
  (forall t, In t (shardableTestsOf exTenStages)
             <-> exists k, 1 <= k <= 3
                           /\ In t (retainedShardable (mkShard k 3) exTenRoot exTenStages))
  /\ Z.of_nat (length (retainedShardable (mkShard 1 3) exTenRoot exTenStages)) = 4
  /\ Z.of_nat (length (retainedShardable (mkShard 3 3) exTenRoot exTenStages)) = 3.
Proof.
  assert (Hproj : Forall (fun s => project (node s) <> None) (suites exTenRoot))
    by (repeat constructor; discriminate).
  assert (Hsum : counterAfter (concat exTenStages) = shardableTotalOf exTenRoot)
    by (vm_compute; reflexivity).
  assert (Hne : Forall (fun g => tests g <> []) (filter shardable (concat exTenStages)))
    by (repeat constructor; discriminate).
  assert (Hone : Forall (fun g => length (tests g) = 1%nat)
                        (filter shardable (concat exTenStages)))
    by (repeat constructor).
  destruct (@shards_partition_tests exTenRoot exTenStages 3 eq_refl Hproj Hsum Hne
              exTen_NoDup) as (Hunion & _ & Hcount).
  split; [exact Hunion|]. split.
  - rewrite (Hcount Hone 1 ltac:(lia)). vm_compute. reflexivity.
  - rewrite (Hcount Hone 3 ltac:(lia)). vm_compute. reflexivity.
Defined.

Lemma filter_all : forall (A : Type) (f : A -> bool) l,
    forallb f l = true -> filter f l = l.
Proof.
  induction l as [|x l IH]; simpl; [reflexivity|].
  intro H. apply andb_prop in H. destruct H as (Hx & Hl).
  rewrite Hx, (IH Hl). reflexivity.
Qed.

Lemma filterSuiteWithOnlySemantics_keeps_all : forall testFilter suite,
    (forall t, In t (treeTests suite) -> testFilter t = true) ->
    childrenHaveTests suite = true ->
    entriesConsistent suite = true ->
    filterSuiteWithOnlySemantics (fun _ => false) testFilter suite
    = (hasTests suite, suite).
Proof.
  intros tF. induction suite as [nd subs ts es IH] using Suite_tree_ind.
  intros Hall Hch Hcons. cbn [childrenHaveTests entriesConsistent] in Hch, Hcons.
  apply andb_prop in Hcons. destruct Hcons as (Hes & Hsubs).
  rewrite forallb_forall in Hch, Hsubs. rewrite Forall_forall in IH.
  assert (Hvisited : map (filterSuiteWithOnlySemantics (fun _ => false) tF) subs
                     = map (fun c => (true, c)) subs).
  { apply map_ext_in. intros c Hc.
    specialize (Hch c Hc). apply andb_prop in Hch. destruct Hch as (Hh & Hcc).
    rewrite (IH c Hc); [rewrite Hh; reflexivity | | exact Hcc | exact (Hsubs c Hc)].
    intros t Ht. apply Hall. simpl. apply in_or_app. right.
    apply in_flat_map. exists c. split; assumption. }
  assert (Hts : filter tF ts = ts).
  { apply filter_all. apply forallb_forall. intros t Ht. apply Hall.
    simpl. apply in_or_app. left. exact Ht. }
  cbn [filterSuiteWithOnlySemantics hasTests]. rewrite Hvisited, Hts.
  assert (Hkeep : map snd (filter (fun rc : bool * Suite => fst rc || false)
                                  (map (fun c => (true, c)) subs)) = subs).
  { clear. induction subs as [|c rest IHr]; simpl; [reflexivity|]. rewrite IHr. reflexivity. }
  rewrite Hkeep.
  destruct subs as [|c rest]; destruct ts as [|t ts']; simpl.
  - reflexivity.
  - rewrite (filter_all _ _ Hes). reflexivity.
  - rewrite (filter_all _ _ Hes).
    specialize (Hch c (or_introl eq_refl)). apply andb_prop in Hch. destruct Hch as (Hh & _).
    rewrite Hh. reflexivity.
  - rewrite (filter_all _ _ Hes). reflexivity.
Qed.

Lemma starts_app : forall l1 l2 c,
    starts c (l1 ++ l2) = starts c l1 ++ starts (c + counterAfter l1) l2.
Proof.
  induction l1 as [|g l1 IH]; intros l2 c; simpl.
  - rewrite Z.add_0_r. reflexivity.
  - destruct (shardable g); simpl; rewrite IH.
    + rewrite Z.add_assoc. reflexivity.
    + reflexivity.
Qed.

Lemma retainStage_all : forall from to gs seen,
    (forall c g, In (c, g) (starts (counterAfter seen) gs) -> from <= c < to) ->
    retainStage from to seen gs = gs.
Proof.
  intros from to. induction gs as [|g rest IH]; intros seen Hin; simpl; [reflexivity|].
  simpl in Hin. rewrite IH.
  - unfold retained. unfold shardable in Hin.
    destruct (isAlways (group_run g)); simpl; [reflexivity|].
    simpl in Hin. specialize (Hin _ _ (or_introl eq_refl)).
    destruct (Z.leb_spec from (counterAfter seen)); [|lia].
    destruct (Z.ltb_spec (counterAfter seen) to); [|lia]. reflexivity.
  - intros c g0 Hc. apply (Hin c g0). rewrite counterAfter_app in Hc. simpl in Hc.
    destruct (shardable g).
    + right. rewrite Z.add_0_r in Hc. exact Hc.
    + rewrite !Z.add_0_r in Hc. exact Hc.
Qed.

Lemma retainStages_all : forall from to stages seen,
    (forall c g, In (c, g) (starts (counterAfter seen) (concat stages)) -> from <= c < to) ->
    retainStages from to seen stages = stages.
Proof.
  intros from to. induction stages as [|st rest IH]; intros seen Hin; simpl; [reflexivity|].
  simpl in Hin. rewrite starts_app in Hin. f_equal.
  - apply retainStage_all. intros c g Hc. apply (Hin c g). apply in_or_app. left. exact Hc.
  - apply IH. intros c g Hc. apply (Hin c g). apply in_or_app. right.
    rewrite counterAfter_app in Hc. exact Hc.
Qed.

(** C8, as stated, fails: the filter drops a stage that has no group and
    prunes a suite that has no test, also for one shard of one. *)
Lemma shard_identity_counterexample :
  createTestGroups [exPairSuite] 1 = Some (nth 0 exTwoStages [])
  /\ createTestGroups [exEmptySuite] 1 = Some (nth 1 exTwoStages [])
  /\ exists rootSuite' stages',
      _filterForCurrentShard (Some (mkShard 1 1)) exTwoStageRoot exTwoStages
      = Some (rootSuite', stages')
      /\ length exTwoStages = 2%nat
      /\ length stages' = 1%nat
      /\ length (suites exTwoStageRoot) = 2%nat
      /\ length (suites rootSuite') = 1%nat
      /\ _entries rootSuite' = [ESuite 1].
Proof.
  split; [vm_compute; reflexivity|]. split; [vm_compute; reflexivity|].
  eexists. eexists. split; [vm_compute; reflexivity|].
  repeat split.
Qed.

(** C8, amended. Let the groups of the stages hold [shardableTotal] shardable
    tests in all and no shardable group be empty.  With shard 1 of 1 the filter
    keeps every group and drops only the stages that have no group, so stages
    that all have a group come out as they went in; and the suite tree is
    unchanged when every test of the tree is in a group, every suite below the
    root has a test in it and the entries of every suite refer to its suites
    and tests. *)
Theorem shard_one_of_one_keeps_all : forall rootSuite stages,
    Forall (fun s => project (node s) <> None) (suites rootSuite) ->
    counterAfter (concat stages) = shardableTotalOf rootSuite ->
    Forall (fun g => tests g <> []) (filter shardable (concat stages)) ->
    exists rootSuite',
      _filterForCurrentShard (Some (mkShard 1 1)) rootSuite stages
      = Some (rootSuite', filter nonEmpty stages)
      /\ (forallb nonEmpty stages = true -> filter nonEmpty stages = stages)
      /\ ((forall t, In t (treeTests rootSuite) ->
                     hasTest (flat_map tests (concat stages)) t = true) ->
          childrenHaveTests rootSuite = true ->
          entriesConsistent rootSuite = true ->
          rootSuite' = rootSuite).
Proof.
  intros rootSuite stages Hproj Hsum Hne.
  destruct (@filterForCurrentShard_total (mkShard 1 1) rootSuite stages Hproj)
    as (rootSuite' & stages' & Erun).
  destruct (@filterForCurrentShard_result (mkShard 1 1) rootSuite stages rootSuite' stages'
              ltac:(simpl; lia) Erun) as (Hst & Hroot).
  set (n := shardableTotalOf rootSuite) in *.
  assert (Hn : 0 <= n) by (unfold n, shardableTotalOf; lia).
  assert (Hfrom : fromOf n (mkShard 1 1) = 0) by (apply fromOf_first; lia).
  assert (Hto : toOf n (mkShard 1 1) = n).
  { rewrite toOf_next. apply (@fromOf_last n 1); lia. }
  rewrite Hfrom, Hto in Hst.
  rewrite retainStages_all in Hst.
  - subst stages'. exists rootSuite'. split; [exact Erun|]. split.
    + apply filter_all.
    + intros Hall Hch Hcons. rewrite Hroot.
      rewrite flat_map_filter_nonEmpty.
      rewrite filterSuiteWithOnlySemantics_keeps_all; [reflexivity | | exact Hch | exact Hcons].
      exact Hall.
  - intros c g Hcg. simpl in Hcg.
    pose proof Hcg as Hr. apply starts_range in Hr. destruct Hr as (Hlo & Hhi).
    assert (Hg : tests g <> []).
    { rewrite Forall_forall in Hne. apply Hne.
      rewrite <- (starts_snd (concat stages) 0). apply in_map_iff.
      exists (c, g). split; [reflexivity | exact Hcg]. }
    unfold testCount in Hhi. destruct (tests g); [contradiction|].
    simpl length in Hhi. unfold n. lia.
Qed.

Lemma shard_one_of_one_keeps_all_witness :
  _filterForCurrentShard (Some (mkShard 1 1)) exTenRoot exTenStages
  = Some (exTenRoot, exTenStages).
Proof.
  assert (Hproj : Forall (fun s => project (node s) <> None) (suites exTenRoot))
    by (repeat constructor; discriminate).
  assert (Hsum : counterAfter (concat exTenStages) = shardableTotalOf exTenRoot)
    by (vm_compute; reflexivity).
  assert (Hne : Forall (fun g => tests g <> []) (filter shardable (concat exTenStages)))
    by (repeat constructor; discriminate).
  destruct (@shard_one_of_one_keeps_all exTenRoot exTenStages Hproj Hsum Hne)
    as (rootSuite' & Hrun & Hstages & Htree).
  rewrite Hrun. rewrite (Hstages eq_refl). rewrite Htree; [reflexivity | | reflexivity | reflexivity].
  intros t Ht. vm_compute in Ht.
  repeat (destruct Ht as [<-|Ht]; [vm_compute; reflexivity|]). contradiction.
Defined.

Local Close Scope Z_scope.

Lemma nat_eqb_spec : forall a b : nat, Nat.eqb a b = true <-> a = b.
Proof. intros a b. apply Nat.eqb_eq. Qed.

Lemma resultsOf_setResults_same : forall w test rs,
    resultsOf (setResults w test rs) test = rs.
Proof.
  intros. unfold resultsOf, setResults. simpl.
  rewrite (mget_mset_same nat_eqb_spec). reflexivity.
Qed.

Lemma resultsOf_setResults_other : forall w test rs other,
    other <> test -> resultsOf (setResults w test rs) other = resultsOf w other.
Proof.
  intros w test rs other Hne. unfold resultsOf, setResults. simpl.
  rewrite (mget_mset_other nat_eqb_spec _ _ Hne). reflexivity.
Qed.

Section DispatchFacts.
Variable testOk : TestCase -> list TestStatus -> bool.
Variable freshStatus : TestStatus.
Variable dispatch : list TestGroup -> DispatchOutcome.

Lemma skipTest_effect : forall w test,
    events (skipTest freshStatus w test)
    = events w ++ [OnTestBegin (tid test); OnTestEnd (tid test) TSskipped]
    /\ dispatched (skipTest freshStatus w test) = dispatched w
    /\ forall t, resultsOf (skipTest freshStatus w test) t
                 = resultsOf w t ++ repeat TSskipped (occurrences t [test]).
Proof.
  intros w test. unfold skipTest. simpl. rewrite <- app_assoc. simpl.
  split; [reflexivity|]. split; [reflexivity|].
  intro t. unfold occurrences. simpl.
  destruct (Nat.eqb_spec (tid test) t) as [<-|Hne]; simpl.
  - unfold resultsOf at 1. simpl.
    rewrite (mget_mset_same nat_eqb_spec). reflexivity.
  - unfold resultsOf at 1. simpl.
    rewrite !(mget_mset_other nat_eqb_spec) by congruence.
    rewrite app_nil_r. reflexivity.
Qed.

Lemma occurrences_app : forall t l1 l2,
    occurrences t (l1 ++ l2) = occurrences t l1 + occurrences t l2.
Proof. intros. unfold occurrences. rewrite filter_app, length_app. reflexivity. Qed.

Lemma skipTests_effect : forall ts w,
    events (fold_left (skipTest freshStatus) ts w) = events w ++ skipEvents ts
    /\ dispatched (fold_left (skipTest freshStatus) ts w) = dispatched w
    /\ forall t, resultsOf (fold_left (skipTest freshStatus) ts w) t
                 = resultsOf w t ++ repeat TSskipped (occurrences t ts).
Proof.
  induction ts as [|test rest IH]; intro w; simpl.
  - rewrite app_nil_r. split; [reflexivity|]. split; [reflexivity|].
    intro t. rewrite app_nil_r. reflexivity.
  - destruct (IH (skipTest freshStatus w test)) as (He & Hd & Hr).
    destruct (skipTest_effect w test) as (He1 & Hd1 & Hr1).
    rewrite He, Hd, He1, Hd1, <- app_assoc. split; [reflexivity|]. split; [reflexivity|].
    intro t. rewrite Hr, Hr1, <- app_assoc, <- repeat_app.
    change (test :: rest) with ([test] ++ rest). rewrite occurrences_app. reflexivity.
Qed.

(** What [_skipTestsNotMarkedAsRunAlways] returns and does. *)
Lemma skipTestsNotMarkedAsRunAlways_effect : forall testGroups w,
    let w' := fst (_skipTestsNotMarkedAsRunAlways freshStatus w testGroups) in
    snd (_skipTestsNotMarkedAsRunAlways freshStatus w testGroups)
    = runAlwaysGroups testGroups
    /\ events w' = events w ++ skipEvents (skippedTests testGroups)
    /\ dispatched w' = dispatched w
    /\ forall t, resultsOf w' t
                 = resultsOf w t
                   ++ repeat TSskipped (occurrences t (skippedTests testGroups)).
Proof.
  induction testGroups as [|g rest IH]; intro w; simpl.
  - rewrite app_nil_r. repeat split. intro t. rewrite app_nil_r. reflexivity.
  - unfold runAlwaysGroups, skippedTests in *. simpl.
    destruct (isAlways (group_run g)); simpl.
    + specialize (IH w).
      destruct (_skipTestsNotMarkedAsRunAlways freshStatus w rest) as [w' kept].
      simpl in *. destruct IH as (Hk & He & Hd & Hr).
      rewrite Hk. repeat split; assumption.
    + specialize (IH (fold_left (skipTest freshStatus) (tests g) w)).
      destruct (skipTests_effect (tests g) w) as (He1 & Hd1 & Hr1).
      destruct (_skipTestsNotMarkedAsRunAlways freshStatus _ rest) as [w' kept].
      simpl in *. destruct IH as (Hk & He & Hd & Hr).
      split; [exact Hk|]. split; [|split].
      * rewrite He, He1. unfold skipEvents. rewrite flat_map_app, app_assoc. reflexivity.
      * rewrite Hd, Hd1. reflexivity.
      * intro t. rewrite Hr, Hr1, <- app_assoc, <- repeat_app.
        fold (skippedTests rest). rewrite <- occurrences_app. reflexivity.
Qed.

Lemma addResults_effect : forall rs w,
    events (fold_left addResult rs w) = events w
    /\ dispatched (fold_left addResult rs w) = dispatched w.
Proof.
  induction rs as [|r rest IH]; intro w; simpl; [split; reflexivity|].
  destruct (IH (addResult w r)) as (He & Hd). rewrite He, Hd. split; reflexivity.
Qed.

Lemma runDispatcher_effect : forall w testGroups,
    events (runDispatcher dispatch w testGroups)
    = events w ++ reported (dispatch testGroups)
    /\ dispatched (runDispatcher dispatch w testGroups)
       = dispatched w ++ [(testGroups, dispatch testGroups)].
Proof.
  intros w testGroups. unfold runDispatcher.
  destruct (addResults_effect (newResults (dispatch testGroups))
              (mkWorld (events w ++ reported (dispatch testGroups)) (results w)
                       (dispatched w ++ [(testGroups, dispatch testGroups)])))
    as (He & Hd).
  rewrite He, Hd. split; reflexivity.
Qed.

Lemma runStage_after_failure : forall w sigint stageGroups,
    let w2 := fst (_skipTestsNotMarkedAsRunAlways freshStatus w stageGroups) in
    let kept := runAlwaysGroups stageGroups in
    (kept = [] ->
     runStage testOk freshStatus dispatch w true sigint stageGroups
     = Continue w2 true sigint)
    /\ (kept <> [] ->
        let stageEnd := runStage testOk freshStatus dispatch w true sigint stageGroups in
        dispatched (worldOf stageEnd) = dispatched w ++ [(kept, dispatch kept)]
        /\ events (worldOf stageEnd)
           = events w ++ skipEvents (skippedTests stageGroups) ++ reported (dispatch kept)).
Proof.
  intros w sigint stageGroups w2 kept.
  destruct (skipTestsNotMarkedAsRunAlways_effect stageGroups w) as (Hk & He & Hd & _).
  fold w2 in He, Hd. fold kept in Hk.
  unfold runStage.
  destruct (_skipTestsNotMarkedAsRunAlways freshStatus w stageGroups) as [w1 groups] eqn:Es.
  simpl in Hk, w2. subst groups. subst w2. split.
  - intros ->. reflexivity.
  - intro Hne. destruct kept as [|g rest] eqn:Ek; [contradiction|]. cbn [isEmpty].
    destruct (runDispatcher_effect w1 (g :: rest)) as (He2 & Hd2).
    assert (Hw : worldOf
              match thrown (dispatch (g :: rest)) with
              | Some e => Throw (runDispatcher dispatch w1 (g :: rest)) e
              | None =>
                  if hasWorkerErrors (dispatch (g :: rest))
                  then Break (runDispatcher dispatch w1 (g :: rest))
                             (Some (hadSignal (dispatch (g :: rest)))) true
                  else if hadSignal (dispatch (g :: rest))
                       then Break (runDispatcher dispatch w1 (g :: rest)) (Some true) false
                       else Continue (runDispatcher dispatch w1 (g :: rest))
                              (true || stageHasFailure testOk
                                         (runDispatcher dispatch w1 (g :: rest)) (g :: rest))
                              (Some false)
              end = runDispatcher dispatch w1 (g :: rest)).
    { destruct (thrown _); [reflexivity|].
      destruct (hasWorkerErrors _); [reflexivity|].
      destruct (hadSignal _); reflexivity. }
    cbv zeta. rewrite Hw, He2, Hd2, He, Hd, <- app_assoc. split; reflexivity.
Qed.

(** When an iteration lets the loop go on and the stage had a failing test,
    the next iteration runs with [previousStageFailed] set. *)
Lemma runStage_sets_flag : forall w previousStageFailed sigint stageGroups w1 failed1 sigint1,
    runStage testOk freshStatus dispatch w previousStageFailed sigint stageGroups
    = Continue w1 failed1 sigint1 ->
    previousStageFailed = true \/ stageHasFailure testOk w1 stageGroups = true ->
    failed1 = true.
Proof.
  intros w pf sigint stageGroups w1 failed1 sigint1 Hrun Hfail. unfold runStage in Hrun.
  destruct pf.
  - destruct (_skipTestsNotMarkedAsRunAlways freshStatus w stageGroups) as [w' groups].
    destruct (isEmpty groups); [injection Hrun as _ <- _; reflexivity|].
    destruct (thrown _); [discriminate|].
    destruct (hasWorkerErrors _); [discriminate|].
    destruct (hadSignal _); [discriminate|].
    injection Hrun as _ <- _. reflexivity.
  - destruct Hfail as [Hfail|Hfail]; [discriminate|].
    destruct stageGroups as [|g rest]; [discriminate Hfail|]. cbn [isEmpty] in Hrun.
    destruct (thrown _); [discriminate|].
    destruct (hasWorkerErrors _); [discriminate|].
    destruct (hadSignal _); [discriminate|].
    injection Hrun as <- <- _. simpl. exact Hfail.
Qed.
End DispatchFacts.

(** C7, as stated, fails: when the stage with the failing test also ends with
    worker errors, the loop is left and the next stage is neither skipped nor
    run: no event is reported for its tests and no result is appended. *)
Lemma skip_after_failure_counterexample :
  exists w,
    stageLoop exTestOk TSskipped (exDispatch true) (mkWorld [] [] []) false None
              [exFirstStage; exLateStage]
    = Finished w (Some false) true
    /\ stageHasFailure exTestOk w exFirstStage = true
    /\ skippedTests exLateStage = [exLateTest]
    /\ ~ In (OnTestBegin 70) (events w)
    /\ ~ In (OnTestEnd 70 TSskipped) (events w)
    /\ resultsOf w 70 = [].
Proof.
  eexists. split; [vm_compute; reflexivity|].
  split; [vm_compute; reflexivity|]. split; [reflexivity|].
  split; [|split; [|reflexivity]];
    simpl; intro H; repeat (destruct H as [H|H]; [discriminate H|]); exact H.
Qed.

(** C7, amended. When an iteration of the stage loop lets the loop go on (no
    worker errors, no interrupt, no exception) and its stage had a failing
    test, or an earlier stage had one, the next stage is handled by
    skip-non-always: for every test of every group that does not run always,
    in order, the reporter receives [onTestBegin] and then [onTestEnd] with
    status skipped and a skipped result is appended to the test; only the
    groups that run always are kept, in their order; with no group kept the
    stage is passed over and no dispatcher is constructed, otherwise one
    dispatcher is constructed, for the groups kept. *)
Theorem skip_non_always_after_failed_stage :
  forall testOk freshStatus dispatch w previousStageFailed sigint
         stageGroups w1 failed1 sigint1 nextGroups,
    runStage testOk freshStatus dispatch w previousStageFailed sigint stageGroups
    = Continue w1 failed1 sigint1 ->
    previousStageFailed = true \/ stageHasFailure testOk w1 stageGroups = true ->
    let stageEnd := runStage testOk freshStatus dispatch w1 failed1 sigint1 nextGroups in
    let w2 := fst (_skipTestsNotMarkedAsRunAlways freshStatus w1 nextGroups) in
    let kept := runAlwaysGroups nextGroups in
    snd (_skipTestsNotMarkedAsRunAlways freshStatus w1 nextGroups) = kept
    /\ events w2 = events w1 ++ skipEvents (skippedTests nextGroups)
    /\ (forall t, resultsOf w2 t
                  = resultsOf w1 t
                    ++ repeat TSskipped (occurrences t (skippedTests nextGroups)))
    /\ (kept = [] -> stageEnd = Continue w2 true sigint1)
    /\ (kept <> [] ->
        dispatched (worldOf stageEnd) = dispatched w1 ++ [(kept, dispatch kept)]
        /\ events (worldOf stageEnd) = events w2 ++ reported (dispatch kept)).
Proof.
  intros testOk freshStatus dispatch w pf sigint stageGroups w1 failed1 sigint1 nextGroups
         Hrun Hfail stageEnd w2 kept.
  assert (Hflag : failed1 = true) by (eapply runStage_sets_flag; eassumption).
  subst failed1.
  destruct (skipTestsNotMarkedAsRunAlways_effect freshStatus nextGroups w1)
    as (Hk & He & _ & Hr).
  destruct (runStage_after_failure testOk freshStatus dispatch w1 sigint1 nextGroups)
    as (Hnone & Hsome).
  split; [exact Hk|]. split; [exact He|]. split; [exact Hr|]. split; [exact Hnone|].
  intro Hne. destruct (Hsome Hne) as (Hd & He2). split; [exact Hd|].
  unfold stageEnd, w2. rewrite He2, He, <- app_assoc. reflexivity.
Qed.

Lemma skip_non_always_after_failed_stage_witness :
  runStage exTestOk TSskipped (exDispatch false) (mkWorld [] [] []) false None exFirstStage
  = Continue exAfterFirst true (Some false)
  /\ stageHasFailure exTestOk exAfterFirst exFirstStage = true
  /\ let stageEnd :=
       runStage exTestOk TSskipped (exDispatch false) exAfterFirst true (Some false)
                exLateStage in
     dispatched (worldOf stageEnd)
     = dispatched exAfterFirst
         ++ [(runAlwaysGroups exLateStage, exDispatch false (runAlwaysGroups exLateStage))]
     /\ events (worldOf stageEnd)
        = events (fst (_skipTestsNotMarkedAsRunAlways TSskipped exAfterFirst exLateStage))
            ++ reported (exDispatch false (runAlwaysGroups exLateStage)).
Proof.
  split; [reflexivity|]. split; [reflexivity|].
  destruct (@skip_non_always_after_failed_stage exTestOk TSskipped (exDispatch false)
              (mkWorld [] [] []) false None exFirstStage exAfterFirst true (Some false)
              exLateStage eq_refl (or_intror eq_refl)) as (_ & _ & _ & _ & Hsome).
  apply Hsome. discriminate.
Defined.

Section FinalStatus.
Variable testOk : TestCase -> list TestStatus -> bool.
Variable freshStatus : TestStatus.
Variable dispatch : list TestGroup -> DispatchOutcome.
Hypothesis no_exception : forall testGroups, thrown (dispatch testGroups) = None.

(** While the loop goes on, no dispatcher has had a signal or worker errors;
    when it ends, its two variables say whether one has. *)
Lemma stageLoop_end : forall stages w previousStageFailed sigint,
    signalReceived w = false ->
    workerErrorsReported w = false ->
    sawSignal sigint = false ->
    exists w' sigint' workerErrors,
      stageLoop testOk freshStatus dispatch w previousStageFailed sigint stages
      = Finished w' sigint' workerErrors
      /\ sawSignal sigint' = signalReceived w'
      /\ workerErrors = workerErrorsReported w'.
Proof.
  induction stages as [|stageGroups rest IH]; intros w pf sigint Hs He Hsig.
  - exists w, sigint, false. simpl. repeat split; congruence.
  - simpl. unfold runStage.
    assert (Hskip : forall w1 groups,
               (if pf then _skipTestsNotMarkedAsRunAlways freshStatus w stageGroups
                else (w, stageGroups)) = (w1, groups) ->
               dispatched w1 = dispatched w).
    { intros w1 groups Heq. destruct pf.
      - destruct (skipTestsNotMarkedAsRunAlways_effect freshStatus stageGroups w)
          as (_ & _ & Hd & _).
        rewrite Heq in Hd. exact Hd.
      - injection Heq as <- _. reflexivity. }
    destruct (if pf then _ else _) as [w1 groups] eqn:Egroups.
    specialize (Hskip w1 groups eq_refl).
    destruct (isEmpty groups).
    + apply IH; unfold signalReceived, workerErrorsReported in *;
        try rewrite Hskip; assumption.
    + rewrite no_exception.
      destruct (runDispatcher_effect dispatch w1 groups) as (_ & Hd).
      assert (Hsr : signalReceived (runDispatcher dispatch w1 groups)
                    = hadSignal (dispatch groups)).
      { unfold signalReceived in *. rewrite Hd, Hskip, existsb_app, Hs. simpl.
        apply orb_false_r. }
      assert (Her : workerErrorsReported (runDispatcher dispatch w1 groups)
                    = hasWorkerErrors (dispatch groups)).
      { unfold workerErrorsReported in *. rewrite Hd, Hskip, existsb_app, He. simpl.
        apply orb_false_r. }
      destruct (hasWorkerErrors (dispatch groups)) eqn:Ew.
      * eexists. eexists. eexists. split; [reflexivity|].
        rewrite Hsr, Her. split; [|reflexivity].
        simpl. destruct (hadSignal (dispatch groups)); reflexivity.
      * destruct (hadSignal (dispatch groups)) eqn:Eh.
        -- eexists. eexists. eexists. split; [reflexivity|].
           rewrite Hsr, Her. split; reflexivity.
        -- apply IH; [rewrite Hsr | rewrite Her | ]; reflexivity.
Qed.
End FinalStatus.

(** C6, as stated, fails: a run that passes collection and is not in list
    mode ends failed when a step of the global teardown throws, although there
    was no timeout, no signal, no worker error, and the two tests were run and
    are ok. *)
Lemma final_status_counterexample :
  let env :=
    mkRunEnv [] false None None false ["globalTeardown failed"%string] false "0" in
  let '(w, status) :=
    runAllTests exTestOk TSskipped exPassDispatch env None (mkOverlap 0 0)
                exPairRoot exPairStages in
  status = failed
  /\ setupSignal env = false
  /\ signalReceived w = false
  /\ workerErrorsReported w = false
  /\ someTestNotOk exTestOk w exPairRoot = false
  /\ map fst (dispatched w) = exPairStages
  /\ resultsOf w 50 = [TSpassed]
  /\ resultsOf w 51 = [TSpassed].
Proof. vm_compute. repeat split. Qed.

(** C6, amended. For a run that passes collection without fatal errors, is
    not in list mode, meets no error in the global setup and in the teardown
    and no exception from a dispatcher: the final status is timedout when the
    deadline of the global timeout elapsed first, and then the error is
    reported through [onError]; otherwise interrupted when the interrupt
    signal was received; otherwise failed when a dispatcher reported worker
    errors or some test of the root suite is not ok; otherwise passed.
    (Whether the output directories could be removed makes no difference.) *)
Theorem final_status :
  forall testOk freshStatus dispatch env deadline overlap rootSuite stages,
    fatalErrors env = [] ->
    listOnly env = false ->
    setupError env = None ->
    teardownErrors env = [] ->
    (forall testGroups, thrown (dispatch testGroups) = None) ->
    let wr := fst (_run testOk freshStatus dispatch env rootSuite stages (mkWorld [] [] [])) in
    let final :=
      runAllTests testOk freshStatus dispatch env deadline overlap rootSuite stages in
    snd final
    = match deadline with
      | Some _ => timedout
      | None =>
          if setupSignal env || signalReceived wr then interrupted
          else if workerErrorsReported wr || someTestNotOk testOk wr rootSuite
               then failed
               else passed
      end
    /\ (forall k, deadline = Some k ->
                  In (OnError (timeoutMessage env)) (events (fst final)))
    /\ In (OnEnd (snd final)) (events (fst final)).
Proof.
  intros testOk freshStatus dispatch env deadline overlap rootSuite stages
         Hfatal Hlist Hsetup Htear Hthrow wr final.
  assert (Hrun : snd (_run testOk freshStatus dispatch env rootSuite stages (mkWorld [] [] []))
                 = if setupSignal env || signalReceived wr then interrupted
                   else if workerErrorsReported wr || someTestNotOk testOk wr rootSuite
                        then failed else passed).
  { unfold wr, _run, _performGlobalSetup, tearDown.
    rewrite Hfatal, Hlist, Hsetup, Htear. simpl.
    destruct (setupSignal env); simpl; [reflexivity|].
    set (w2 := if ignoreSnapshots env then _ else _).
    destruct (@stageLoop_end testOk freshStatus dispatch Hthrow stages w2 false None)
      as (w3 & sigint & we & Hloop & Hsig & Hwe).
    - unfold w2. destruct (ignoreSnapshots env); reflexivity.
    - unfold w2. destruct (ignoreSnapshots env); reflexivity.
    - reflexivity.
    - rewrite Hloop. simpl. fold (sawSignal sigint). rewrite Hsig, Hwe. reflexivity. }
  unfold final, runAllTests.
  destruct (_run testOk freshStatus dispatch env rootSuite stages (mkWorld [] [] []))
    as [w status] eqn:Erun.
  simpl in Hrun. fold wr in Hrun.
  destruct (reporterCalls env (events w)) as [calls returned].
  destruct deadline as [k|]; cbn [fst snd events].
  - split; [reflexivity|]. split.
    + intros k0 _. apply in_or_app. right. left. reflexivity.
    + apply in_or_app. right. right. left. reflexivity.
  - split; [exact Hrun|]. split.
    + intros k0 Hk. discriminate Hk.
    + apply in_or_app. right. left. reflexivity.
Qed.

Lemma final_status_witness :
  let env :=
    mkRunEnv [] false (Some ("EACCES: permission denied"%string, 2)) None false []
             false "0" in
  snd (runAllTests exTestOk TSskipped (exDispatch false) env None (mkOverlap 0 0)
                   exPairRoot exPairStages)
  = failed
  /\ snd (runAllTests exTestOk TSskipped exPassDispatch env None (mkOverlap 0 0)
                      exPairRoot exPairStages)
     = passed
  /\ snd (runAllTests exTestOk TSskipped (exDispatch false) env (Some 3) (mkOverlap 2 1)
                      exPairRoot exPairStages)
     = timedout.
Proof.
  intro env. split; [|split].
  - rewrite (proj1 (@final_status exTestOk TSskipped (exDispatch false) env None
                      (mkOverlap 0 0) exPairRoot exPairStages eq_refl eq_refl eq_refl
                      eq_refl (fun _ => eq_refl))).
    vm_compute. reflexivity.
  - rewrite (proj1 (@final_status exTestOk TSskipped exPassDispatch env None
                      (mkOverlap 0 0) exPairRoot exPairStages eq_refl eq_refl eq_refl
                      eq_refl (fun _ => eq_refl))).
    vm_compute. reflexivity.
  - exact (proj1 (@final_status exTestOk TSskipped (exDispatch false) env (Some 3)
                    (mkOverlap 2 1) exPairRoot exPairStages eq_refl eq_refl eq_refl
                    eq_refl (fun _ => eq_refl))).
Defined.

(** A removal of the output directories that fails does not stop the run:
    the two tests are dispatched and pass, the error is reported while the run
    goes on, and the result is passed.  When the deadline elapses after two
    calls, the run goes on beside the report of the end. *)
Example removal_failure_and_timeout :
  let env := mkRunEnv [] false (Some ("EBUSY"%string, 2)) None false [] false "0" in
  (let '(w, status) :=
     runAllTests exTestOk TSskipped exPassDispatch env None (mkOverlap 0 0)
                 exPairRoot exPairStages in
   status = passed
   /\ map fst (dispatched w) = exPairStages
   /\ events w
      = [OnBegin; OnTestBegin 50; OnTestEnd 50 TSpassed; OnError "EBUSY"%string;
         OnTestBegin 51; OnTestEnd 51 TSpassed; OnEnd passed; OnExit])
  /\ (let '(w, status) :=
        runAllTests exTestOk TSskipped exPassDispatch env (Some 2) (mkOverlap 1 1)
                    exPairRoot exPairStages in
      status = timedout
      /\ events w
         = [OnBegin; OnTestBegin 50; OnError (timeoutMessage env); OnEnd timedout;
            OnTestEnd 50 TSpassed; OnExit; OnError "EBUSY"%string]).
Proof. vm_compute. repeat split. Qed.

(** The collector on the example tree: with the ignore file honoured, the
    excluded directory is entered for the sake of the re-included one; without
    it every file outside [node_modules] is listed. *)
Example collectFiles_gitignore :
  collectFiles exMinimatch (exLines "") exFs [] true
  = [["a.spec.ts"]; ["build"; "keep"; "y.test.ts"]; ["readme.txt"]]%string
  /\ collectFiles exMinimatch (exLines "") exFs [] false
     = [["a.spec.ts"]; ["build"; "keep"; "y.test.ts"]; ["build"; "x.test.ts"];
        ["readme.txt"]]%string.
Proof. split; vm_compute; reflexivity. Qed.

(** C10. For a test directory that does not exist, or that exists and is not
    a directory, the collector returns the empty list, whatever the value of
    [respectGitIgnore]. *)
Theorem collectFiles_missing_or_not_directory :
  forall minimatch trimmedLines root testDir respectGitIgnore,
    (lookupPath root testDir = None
     \/ exists node, lookupPath root testDir = Some node /\ isDirectory node = false) ->
    collectFiles minimatch trimmedLines root testDir respectGitIgnore = [].
Proof.
  intros minimatch trimmedLines root testDir respectGitIgnore [Hnone | (node & Hsome & Hdir)];
    unfold collectFiles, existsSync.
  - rewrite Hnone. reflexivity.
  - rewrite Hsome. simpl. rewrite Hdir. reflexivity.
Qed.

Lemma collectFiles_missing_or_not_directory_witness :
  collectFiles exMinimatch (exLines "") exFs ["missing"%string] true = []
  /\ collectFiles exMinimatch (exLines "") exFs ["a.spec.ts"%string] false = [].
Proof.
  split.
  - apply collectFiles_missing_or_not_directory. left. reflexivity.
  - apply collectFiles_missing_or_not_directory. right.
    exists (FsFile ""). split; reflexivity.
Defined.

(** ** Further properties of the grouper *)

Section OrderedMapContents.
Variables K V B : Type.
Variable eqb : K -> K -> bool.
Variable f : V -> list B.

(** Setting a key replaces what the key held and leaves the rest. *)
Lemma mset_contents : forall m k (v : V),
    exists rest,
      Permutation (flat_map f (mvalues m))
                  (match mget eqb k m with Some v0 => f v0 | None => [] end ++ rest)
      /\ Permutation (flat_map f (mvalues (mset eqb k v m))) (f v ++ rest).
Proof.
  induction m as [|[k' v'] m IH]; intros k v; simpl.
  - exists []. split; [constructor | rewrite !app_nil_r; apply Permutation_refl].
  - destruct (eqb k k') eqn:E; simpl.
    + exists (flat_map f (mvalues m)). split; apply Permutation_refl.
    + destruct (IH k v) as (rest & H1 & H2). exists (f v' ++ rest). split.
      * eapply Permutation_trans; [apply Permutation_app_head; exact H1|].
        rewrite !app_assoc. apply Permutation_app_tail. apply Permutation_app_comm.
      * eapply Permutation_trans; [apply Permutation_app_head; exact H2|].
        rewrite !app_assoc. apply Permutation_app_tail. apply Permutation_app_comm.
Qed.
End OrderedMapContents.

Lemma createGroup_empty : forall test g, createGroup test = Some g -> tests g = [].
Proof.
  intros test g H. unfold createGroup in H.
  destruct (project _); [|discriminate]. injection H as <-. reflexivity.
Qed.

Lemma placeInBucket_contents : forall b test b',
    placeInBucket b test = Some b' ->
    Permutation (bucketTests b') (test :: bucketTests b).
Proof.
  intros b test b'. unfold placeInBucket, bucketTests.
  destruct (insideParallel _).
  - destruct (_ && _).
    + intro H. injection H as <-. simpl.
      rewrite !app_assoc. apply Permutation_sym. apply Permutation_cons_append.
    + set (key := parallelKey _ _).
      destruct (match mget Key_eqb key (parallel b) with
                | Some g => Some g
                | None => createGroup test
                end) as [group|] eqn:Eg; [|discriminate].
      intro H. injection H as <-. simpl.
      destruct (mset_contents Key_eqb tests (parallel b) key (pushTest group test))
        as (rest & H1 & H2).
      assert (Hold : match mget Key_eqb key (parallel b) with
                     | Some v0 => tests v0
                     | None => []
                     end = tests group).
      { destruct (mget Key_eqb key (parallel b)).
        - injection Eg as <-. reflexivity.
        - symmetry. eapply createGroup_empty. exact Eg. }
      rewrite Hold in H1. simpl in H2.
      apply Permutation_trans with
        (tests (general b) ++ ((tests group ++ [test]) ++ rest) ++ tests (parallelWithHooks b)).
      { apply Permutation_app_head. apply Permutation_app_tail. exact H2. }
      apply Permutation_trans with
        (test :: tests (general b) ++ (tests group ++ rest) ++ tests (parallelWithHooks b)).
      2:{ constructor. apply Permutation_app_head. apply Permutation_app_tail.
          apply Permutation_sym. exact H1. }
      rewrite <- !app_assoc. simpl.
      rewrite (app_assoc (tests (general b)) (tests group)).
      rewrite (app_assoc (tests (general b)) (tests group) (rest ++ _)).
      apply Permutation_sym. apply Permutation_middle.
  - intro H. injection H as <-. simpl.
    rewrite <- app_assoc. simpl. apply Permutation_sym.
    apply Permutation_cons_app. apply Permutation_refl.
Qed.

Lemma groupsTests_unfold : forall groups,
    groupsTests groups
    = flat_map (fun m => flat_map bucketTests (mvalues m)) (mvalues groups).
Proof.
  intro groups. unfold groupsTests, allBuckets, mvalues.
  induction groups as [|[wh m] rest IH]; simpl; [reflexivity|].
  rewrite flat_map_app, IH. reflexivity.
Qed.

Lemma addTest_contents : forall groups test groups',
    addTest groups test = Some groups' ->
    Permutation (groupsTests groups') (test :: groupsTests groups).
Proof.
  intros groups test groups' H. unfold addTest in H.
  destruct (match getBucket groups test with
            | Some b => Some b
            | None => freshBucket test
            end) as [b|] eqn:Eb; [|discriminate].
  destruct (placeInBucket b test) as [b'|] eqn:Ep; [|discriminate].
  injection H as <-. rewrite !groupsTests_unfold. unfold setBucket.
  set (m0 := match mget String.eqb (_workerHash test) groups with
             | Some m => m
             | None => []
             end).
  destruct (mset_contents String.eqb bucketTests m0 (_requireFile test) b')
    as (r1 & H1 & H2).
  destruct (mset_contents String.eqb (fun m => flat_map bucketTests (mvalues m)) groups
              (_workerHash test) (mset String.eqb (_requireFile test) b' m0))
    as (r2 & H3 & H4).
  assert (Hm0 : match mget String.eqb (_workerHash test) groups with
                | Some v0 => flat_map bucketTests (mvalues v0)
                | None => []
                end = flat_map bucketTests (mvalues m0)).
  { unfold m0. destruct (mget String.eqb (_workerHash test) groups); reflexivity. }
  rewrite Hm0 in H3.
  assert (Hold : match mget String.eqb (_requireFile test) m0 with
                 | Some v0 => bucketTests v0
                 | None => []
                 end = bucketTests b).
  { unfold getBucket in Eb. fold m0. unfold m0 in *.
    destruct (mget String.eqb (_workerHash test) groups) as [m|]; simpl in *.
    - destruct (mget String.eqb (_requireFile test) m).
      + injection Eb as <-. reflexivity.
      + unfold freshBucket in Eb. destruct (createGroup test) as [g|] eqn:Ec; [|discriminate].
        injection Eb as <-. unfold bucketTests. simpl.
        rewrite (createGroup_empty _ Ec). reflexivity.
    - unfold freshBucket in Eb. destruct (createGroup test) as [g|] eqn:Ec; [|discriminate].
      injection Eb as <-. unfold bucketTests. simpl.
      rewrite (createGroup_empty _ Ec). reflexivity. }
  rewrite Hold in H1.
  pose proof (placeInBucket_contents _ _ Ep) as Hb.
  eapply Permutation_trans; [exact H4|].
  eapply Permutation_trans; [apply Permutation_app_tail; exact H2|].
  eapply Permutation_trans;
    [apply Permutation_app_tail; apply Permutation_app_tail; exact Hb|].
  simpl. constructor. apply Permutation_sym.
  eapply Permutation_trans; [exact H3|].
  apply Permutation_app_tail. exact H1.
Qed.

Lemma addTests_contents : forall ts groups groups',
    addTests groups ts = Some groups' ->
    Permutation (groupsTests groups') (groupsTests groups ++ ts).
Proof.
  induction ts as [|t rest IH]; intros groups groups' H; simpl in H.
  - injection H as <-. rewrite app_nil_r. apply Permutation_refl.
  - destruct (addTest groups t) as [g1|] eqn:E1; [|discriminate].
    eapply Permutation_trans; [apply (IH _ _ H)|].
    eapply Permutation_trans;
      [apply Permutation_app_tail; apply (addTest_contents _ _ E1)|].
    simpl. apply Permutation_cons_app. apply Permutation_refl.
Qed.

Lemma addSuites_contents : forall projectSuites groups groups',
    addSuites groups projectSuites = Some groups' ->
    Permutation (groupsTests groups') (groupsTests groups ++ flat_map allTests projectSuites).
Proof.
  induction projectSuites as [|s rest IH]; intros groups groups' H; simpl in H.
  - injection H as <-. simpl. rewrite app_nil_r. apply Permutation_refl.
  - destruct (addTests groups (allTests s)) as [g1|] eqn:E1; [|discriminate].
    eapply Permutation_trans; [apply (IH _ _ H)|].
    simpl. rewrite app_assoc. apply Permutation_app_tail.
    apply (addTests_contents _ _ E1).
Qed.

Lemma splitWithHooks_concat : forall n workers ts done lastGroup gs,
    splitWithHooks n workers done lastGroup ts = Some gs ->
    flat_map tests gs = flat_map tests done ++ lastTests lastGroup ++ ts.
Proof.
  intros n workers. induction ts as [|test rest IH]; intros done lastGroup gs H; simpl in H.
  - injection H as <-. rewrite flat_map_app, app_nil_r.
    destruct lastGroup; simpl; rewrite ?app_nil_r; reflexivity.
  - destruct lastGroup as [g|].
    + destruct (groupIsFull _ _ _).
      * destruct (createGroup test) as [g'|] eqn:Ec; [|discriminate].
        rewrite (IH _ _ _ H). simpl. rewrite (createGroup_empty _ Ec), flat_map_app.
        simpl. rewrite app_nil_r, <- app_assoc. reflexivity.
      * rewrite (IH _ _ _ H). simpl. rewrite <- app_assoc. reflexivity.
    + destruct (createGroup test) as [g'|] eqn:Ec; [|discriminate].
      rewrite (IH _ _ _ H). simpl. rewrite (createGroup_empty _ Ec). reflexivity.
Qed.

Lemma emitBucket_contents : forall workers b gs,
    emitBucket workers b = Some gs -> flat_map tests gs = bucketTests b.
Proof.
  intros workers b gs H. unfold emitBucket in H.
  destruct (splitWithHooks _ _ _ _ _) as [chunks|] eqn:Es; [|discriminate].
  injection H as <-. apply splitWithHooks_concat in Es. simpl in Es.
  rewrite !flat_map_app, Es. unfold bucketTests.
  destruct (tests (general b)) eqn:Eg; simpl; rewrite ?Eg, ?app_nil_r; reflexivity.
Qed.

Lemma emitAll_contents : forall workers bs gs,
    emitAll workers bs = Some gs -> flat_map tests gs = flat_map bucketTests bs.
Proof.
  intros workers. induction bs as [|b rest IH]; intros gs H; simpl in H.
  - injection H as <-. reflexivity.
  - destruct (emitBucket workers b) as [part|] eqn:Eb; [|discriminate].
    destruct (emitAll workers rest) as [more|] eqn:Er; [|discriminate].
    injection H as <-. simpl.
    rewrite flat_map_app, (emitBucket_contents _ _ Eb), (IH _ eq_refl). reflexivity.
Qed.

(** X1. Grouping neither loses nor duplicates a test: the tests of the
    emitted groups, taken together, are the tests of the project suites, up
    to order. *)
Theorem createTestGroups_keeps_tests : forall projectSuites workers gs,
    createTestGroups projectSuites workers = Some gs ->
    Permutation (flat_map tests gs) (flat_map allTests projectSuites).
Proof.
  intros projectSuites workers gs H. unfold createTestGroups in H.
  destruct (addSuites [] projectSuites) as [groups|] eqn:Ea; [|discriminate].
  rewrite (emitAll_contents _ _ H). fold (groupsTests groups).
  apply (addSuites_contents _ _ Ea).
Qed.

Lemma createTestGroups_keeps_tests_witness :
  exists gs,
    createTestGroups [exProjectSuite; exRepeatedSuite] 2 = Some gs
    /\ Permutation (map tid (flat_map tests gs)) [10; 11; 12; 13; 14; 30; 31].
Proof.
  destruct (createTestGroups [exProjectSuite; exRepeatedSuite] 2) as [gs|] eqn:E;
    [|vm_compute in E; discriminate E].
  exists gs. split; [reflexivity|].
  exact (Permutation_map tid (@createTestGroups_keeps_tests _ _ _ E)).
Defined.

Lemma pushTest_hasTests : forall g test, hasTestsIn (pushTest g test).
Proof. intros g test. unfold hasTestsIn. simpl. destruct (tests g); discriminate. Qed.

Lemma placeInBucket_parallel_hasTests : forall b test b',
    Forall hasTestsIn (mvalues (parallel b)) ->
    placeInBucket b test = Some b' ->
    Forall hasTestsIn (mvalues (parallel b')).
Proof.
  intros b test b' Hp. unfold placeInBucket.
  destruct (insideParallel _).
  - destruct (_ && _).
    + intro H. injection H as <-. exact Hp.
    + destruct (match mget Key_eqb _ (parallel b) with
                | Some g => Some g
                | None => createGroup test
                end) as [group|]; [|discriminate].
      intro H. injection H as <-. simpl.
      apply Forall_mvalues_mset; [apply pushTest_hasTests | exact Hp].
  - intro H. injection H as <-. exact Hp.
Qed.

Lemma allBuckets_In : forall groups b,
    In b (allBuckets groups) <-> exists wh m rf, In (wh, m) groups /\ In (rf, b) m.
Proof.
  intros groups b. unfold allBuckets, mvalues. rewrite in_flat_map. split.
  - intros ([wh m] & Hm & Hb). simpl in Hb. apply in_map_iff in Hb.
    destruct Hb as ([rf b0] & <- & Hb). exists wh, m, rf. split; assumption.
  - intros (wh & m & rf & Hm & Hb). exists (wh, m). split; [exact Hm|].
    simpl. apply in_map_iff. exists (rf, b). split; [reflexivity | exact Hb].
Qed.

Lemma allBuckets_setBucket : forall groups test b' b,
    In b (allBuckets (setBucket groups test b')) ->
    b = b' \/ In b (allBuckets groups).
Proof.
  intros groups test b' b Hb. rewrite allBuckets_In in Hb.
  destruct Hb as (wh & m & rf & Hm & Hb). unfold setBucket in Hm.
  apply (In_mset string_eqb_spec) in Hm. destruct Hm as [Heq|Hm].
  - injection Heq as -> ->.
    apply (In_mset string_eqb_spec) in Hb. destruct Hb as [Heq|Hb].
    + injection Heq as -> ->. left. reflexivity.
    + right. destruct (mget String.eqb (_workerHash test) groups) as [m0|] eqn:Em;
        [|contradiction].
      apply (mget_In string_eqb_spec) in Em. apply allBuckets_In.
      exists (_workerHash test), m0, rf. split; assumption.
  - right. apply allBuckets_In. exists wh, m, rf. split; assumption.
Qed.

Lemma getBucket_In : forall groups test b,
    getBucket groups test = Some b -> In b (allBuckets groups).
Proof.
  intros groups test b H. unfold getBucket in H.
  destruct (mget String.eqb (_workerHash test) groups) as [m|] eqn:Em; [|discriminate].
  apply (mget_In string_eqb_spec) in Em, H. apply allBuckets_In.
  exists (_workerHash test), m, (_requireFile test). split; assumption.
Qed.

Lemma addTest_parallel_hasTests : forall groups test groups',
    parallelHasTests groups -> addTest groups test = Some groups' ->
    parallelHasTests groups'.
Proof.
  intros groups test groups' Hinv H. unfold addTest in H.
  destruct (getBucket groups test) as [b|] eqn:Eb.
  - destruct (placeInBucket b test) as [b'|] eqn:Ep; [|discriminate].
    injection H as <-. intros b0 Hb0.
    apply allBuckets_setBucket in Hb0. destruct Hb0 as [->|Hb0]; [|apply Hinv; exact Hb0].
    eapply placeInBucket_parallel_hasTests; [|exact Ep].
    apply Hinv. eapply getBucket_In. exact Eb.
  - unfold freshBucket in H. destruct (createGroup test) as [g|]; [|discriminate].
    destruct (placeInBucket _ test) as [b'|] eqn:Ep; [|discriminate].
    injection H as <-. intros b0 Hb0.
    apply allBuckets_setBucket in Hb0. destruct Hb0 as [->|Hb0]; [|apply Hinv; exact Hb0].
    eapply placeInBucket_parallel_hasTests; [|exact Ep]. constructor.
Qed.

Lemma addTests_parallel_hasTests : forall ts groups groups',
    parallelHasTests groups -> addTests groups ts = Some groups' ->
    parallelHasTests groups'.
Proof.
  induction ts as [|t rest IH]; intros groups groups' Hinv H; simpl in H.
  - injection H as <-. exact Hinv.
  - destruct (addTest groups t) as [g1|] eqn:E1; [|discriminate].
    eapply IH; [|exact H]. eapply addTest_parallel_hasTests; eassumption.
Qed.

Lemma addSuites_parallel_hasTests : forall projectSuites groups groups',
    parallelHasTests groups -> addSuites groups projectSuites = Some groups' ->
    parallelHasTests groups'.
Proof.
  induction projectSuites as [|s rest IH]; intros groups groups' Hinv H; simpl in H.
  - injection H as <-. exact Hinv.
  - destruct (addTests groups (allTests s)) as [g1|] eqn:E1; [|discriminate].
    eapply IH; [|exact H]. eapply addTests_parallel_hasTests; eassumption.
Qed.

Lemma splitWithHooks_hasTests : forall n workers ts done lastGroup gs,
    Forall hasTestsIn done ->
    (forall g, lastGroup = Some g -> hasTestsIn g) ->
    splitWithHooks n workers done lastGroup ts = Some gs ->
    Forall hasTestsIn gs.
Proof.
  intros n workers. induction ts as [|test rest IH];
    intros done lastGroup gs Hdone Hlast H; simpl in H.
  - injection H as <-. apply Forall_app. split; [exact Hdone|].
    destruct lastGroup as [g|]; constructor; [apply Hlast; reflexivity | constructor].
  - assert (Hnew : forall g' g0, Some (pushTest g' test) = Some g0 -> hasTestsIn g0).
    { intros g' g0 Heq. injection Heq as <-. apply pushTest_hasTests. }
    destruct lastGroup as [g|].
    + destruct (groupIsFull _ _ _).
      * destruct (createGroup test) as [g'|]; [|discriminate].
        eapply IH; [ | apply Hnew | exact H].
        apply Forall_app. split; [exact Hdone|].
        constructor; [apply Hlast; reflexivity | constructor].
      * eapply IH; [exact Hdone | apply Hnew | exact H].
    + destruct (createGroup test) as [g'|]; [|discriminate].
      eapply IH; [exact Hdone | apply Hnew | exact H].
Qed.

Lemma emitBucket_hasTests : forall workers b gs,
    Forall hasTestsIn (mvalues (parallel b)) ->
    emitBucket workers b = Some gs ->
    Forall hasTestsIn gs.
Proof.
  intros workers b gs Hp H. unfold emitBucket in H.
  destruct (splitWithHooks _ _ _ _ _) as [chunks|] eqn:Es; [|discriminate].
  injection H as <-. apply Forall_app. split.
  - destruct (tests (general b)) eqn:Eg; simpl; constructor; [|constructor].
    unfold hasTestsIn. rewrite Eg. discriminate.
  - apply Forall_app. split; [exact Hp|].
    eapply splitWithHooks_hasTests; [constructor | | exact Es].
    intros g Hg. discriminate Hg.
Qed.

(** X2. Every group that the grouper emits holds at least one test. *)
Theorem createTestGroups_groups_not_empty : forall projectSuites workers gs,
    createTestGroups projectSuites workers = Some gs ->
    forall g, In g gs -> tests g <> [].
Proof.
  intros projectSuites workers gs H. unfold createTestGroups in H.
  destruct (addSuites [] projectSuites) as [groups|] eqn:Ea; [|discriminate].
  assert (Hinv : parallelHasTests groups).
  { eapply addSuites_parallel_hasTests; [|exact Ea]. intros b []. }
  assert (Hall : Forall hasTestsIn gs).
  { revert gs H. generalize (allBuckets groups) (fun b => Hinv b).
    induction l as [|b rest IH]; intros Hbs gs H; simpl in H.
    - injection H as <-. constructor.
    - destruct (emitBucket workers b) as [part|] eqn:Eb; [|discriminate].
      destruct (emitAll workers rest) as [more|] eqn:Er; [|discriminate].
      injection H as <-. apply Forall_app. split.
      + eapply emitBucket_hasTests; [|exact Eb]. apply Hbs. left. reflexivity.
      + apply IH; [|reflexivity]. intros b0 Hb0. apply Hbs. right. exact Hb0. }
  rewrite Forall_forall in Hall. exact Hall.
Qed.

Lemma createTestGroups_groups_not_empty_witness :
  Forall (fun g => tests g <> []) exBucketGroups.
Proof.
  assert (E : createTestGroups [exProjectSuite] 2 = Some exBucketGroups)
    by (vm_compute; reflexivity).
  apply Forall_forall. exact (@createTestGroups_groups_not_empty _ _ _ E).
Defined.

Lemma chunks_total_length : forall size (gs : list TestGroup),
    gs <> [] ->
    Forall (fun g => length (tests g) = size) (removelast gs) ->
    Forall (fun g => 1 <= length (tests g) <= size) gs ->
    size * (length gs - 1) + 1 <= length (flat_map tests gs).
Proof.
  intros size. induction gs as [|g rest IH]; intros Hne Hfull Hall; [contradiction|].
  pose proof (Forall_inv Hall) as Hg. pose proof (Forall_inv_tail Hall) as Hrest.
  cbv beta in Hg.
  destruct rest as [|g' rest'].
  - simpl. rewrite app_nil_r. lia.
  - assert (Hfull' : Forall (fun g => length (tests g) = size) (g :: removelast (g' :: rest')))
      by exact Hfull.
    pose proof (Forall_inv Hfull') as Hgs. pose proof (Forall_inv_tail Hfull') as Hfr.
    specialize (IH ltac:(discriminate) Hfr Hrest).
    change (flat_map tests (g :: g' :: rest'))
      with (tests g ++ flat_map tests (g' :: rest')).
    cbv beta in Hgs. rewrite length_app. simpl length in *. nia.
Qed.

(** X3. For a positive number of workers, the tests with hooks of a bucket
    are split into at most [workers] groups: a bucket emits at most one general
    group, one group per key of its [parallel] map and [workers] groups for
    [parallelWithHooks]. *)
Theorem emitBucket_at_most_workers_chunks : forall workers b gs,
    1 <= workers ->
    emitBucket workers b = Some gs ->
    length gs
    <= (if Nat.eqb (length (tests (general b))) 0 then 0 else 1)
       + length (parallel b) + workers.
Proof.
  intros workers b gs Hw H. unfold emitBucket in H.
  set (n := length (tests (parallelWithHooks b))) in *.
  destruct (splitWithHooks n workers [] None (tests (parallelWithHooks b)))
    as [chunks|] eqn:Es; [|discriminate].
  injection H as <-. rewrite !length_app. unfold mvalues. rewrite length_map.
  assert (Hchunks : length chunks <= workers).
  { destruct chunks as [|c0 cs]; [simpl; lia|].
    pose proof (splitWithHooks_concat _ _ _ _ _ Es) as Hcat. simpl in Hcat.
    assert (Hn : 1 <= n).
    { assert (Hne : Forall hasTestsIn (c0 :: cs)).
      { eapply splitWithHooks_hasTests; [constructor | | exact Es].
        intros g Hg. discriminate Hg. }
      apply Forall_inv in Hne. unfold hasTestsIn in Hne.
      unfold n. rewrite <- Hcat, length_app.
      destruct (tests c0); [contradiction | simpl; lia]. }
    apply (@splitWithHooks_chunks n workers (ceilDiv n workers)) in Es.
    - destruct Es as (_ & Hfull & Hall).
      pose proof (@chunks_total_length (ceilDiv n workers) (c0 :: cs)
                    ltac:(discriminate) Hfull Hall) as Hlen.
      change (flat_map tests (c0 :: cs)) with (tests c0 ++ flat_map tests cs) in Hlen.
      rewrite Hcat in Hlen. fold n in Hlen.
      pose proof (ceilDiv_is_ceiling n Hw) as (Hup & _).
      pose proof (ceilDiv_pos Hn Hw) as Hpos.
      simpl length in *. nia.
    - apply ceilDiv_pos; assumption.
    - intro len. unfold groupIsFull.
      destruct (Nat.eqb_spec workers 0); [lia | reflexivity].
    - constructor.
    - intros g Hg. discriminate Hg. }
  destruct (Nat.eqb (length (tests (general b))) 0); simpl; lia.
Qed.

Lemma emitBucket_at_most_workers_chunks_witness :
  length exBucketGroups <= 0 + 0 + 2.
Proof.
  exact (@emitBucket_at_most_workers_chunks 2 exBucket exBucketGroups
           (le_S 1 1 (le_n 1)) eq_refl).
Defined.

Lemma Container_eqb_spec : forall a b, Container_eqb a b = true <-> a = b.
Proof.
  intros [| |x] [| |y]; simpl; split; intro H; try discriminate; try reflexivity.
  - apply Key_eqb_spec in H. subst. reflexivity.
  - injection H as ->. apply Key_eqb_spec. reflexivity.
Qed.

Lemma sameBucket_spec : forall probe t,
    sameBucket probe t = true
    <-> (_workerHash t, _requireFile t) = (_workerHash probe, _requireFile probe).
Proof.
  intros probe t. unfold sameBucket. rewrite andb_true_iff, !String.eqb_eq. split.
  - intros (-> & ->). reflexivity.
  - intro H. injection H as -> ->. split; reflexivity.
Qed.

Lemma getBucket_same_keys : forall groups probe t,
    sameBucket probe t = true -> getBucket groups probe = getBucket groups t.
Proof.
  intros groups probe t H. apply sameBucket_spec in H. injection H as H1 H2.
  unfold getBucket. rewrite H1, H2. reflexivity.
Qed.

(** One iteration of the grouping loop, seen from the bucket of the test. *)
Lemma addTest_placed : forall groups test groups',
    addTest groups test = Some groups' ->
    exists b b',
      (getBucket groups test = Some b
       \/ (getBucket groups test = None /\ freshBucket test = Some b))
      /\ getBucket groups' test = Some b'
      /\ placedIn (containerOf test) test b b'
      /\ forall other,
          (_workerHash other, _requireFile other)
            <> (_workerHash test, _requireFile test) ->
          getBucket groups' other = getBucket groups other.
Proof.
  intros groups test groups'. unfold addTest.
  destruct (getBucket groups test) as [b|] eqn:Eb.
  - destruct (placeInBucket b test) as [b'|] eqn:Ep; [|discriminate].
    intro H. injection H as <-. exists b, b'.
    split; [left; reflexivity|]. split; [apply getBucket_setBucket_same|].
    split; [apply placeInBucket_placedIn; exact Ep|].
    intros other Hne. apply getBucket_setBucket_other. exact Hne.
  - destruct (freshBucket test) as [b|] eqn:Ef; [|discriminate].
    destruct (placeInBucket b test) as [b'|] eqn:Ep; [|discriminate].
    intro H. injection H as <-. exists b, b'.
    split; [right; split; reflexivity|]. split; [apply getBucket_setBucket_same|].
    split; [apply placeInBucket_placedIn; exact Ep|].
    intros other Hne. apply getBucket_setBucket_other. exact Hne.
Qed.

Lemma containerContents_app : forall l1 l2 probe c,
    containerContents (l1 ++ l2) probe c
    = containerContents l1 probe c ++ containerContents l2 probe c.
Proof. intros. unfold containerContents. apply filter_app. Qed.

Lemma containerContents_one : forall probe t c,
    containerContents [t] probe c
    = if sameBucket probe t && Container_eqb (containerOf t) c then [t] else [].
Proof. intros. unfold containerContents. simpl. destruct (_ && _); reflexivity. Qed.

Lemma containersHold_addTest : forall groups done test groups',
    containersHold groups done ->
    addTest groups test = Some groups' ->
    containersHold groups' (done ++ [test]).
Proof.
  intros groups done test groups' Hinv Hadd probe.
  destruct (addTest_placed _ _ Hadd) as (b & b' & Hb & Hb' & Hplaced & Hother).
  destruct (Hinv probe) as (Hg & Hh & Hp).
  rewrite !containerContents_app, !containerContents_one.
  unfold generalOf, withHooksOf, parallelOf in *.
  destruct (sameBucket probe test) eqn:Esame.
  - rewrite (getBucket_same_keys groups' _ _ Esame), Hb'.
    rewrite (getBucket_same_keys groups _ _ Esame) in Hg, Hh, Hp.
    assert (Hold : tests (general b) = containerContents done probe InGeneral
                   /\ tests (parallelWithHooks b)
                      = containerContents done probe InParallelWithHooks
                   /\ forall k, testsAt k (parallel b)
                                = containerContents done probe (InParallel k)).
    { destruct Hb as [Hb | (Hnone & Hfresh)].
      - rewrite Hb in Hg, Hh, Hp. repeat split; assumption.
      - rewrite Hnone in Hg, Hh, Hp. unfold freshBucket in Hfresh.
        destruct (createGroup test) as [g|] eqn:Ec; [|discriminate].
        injection Hfresh as <-. simpl. rewrite (createGroup_empty _ Ec).
        repeat split; assumption. }
    destruct Hold as (Hg0 & Hh0 & Hp0). simpl.
    assert (Hk : forall k,
               containerContents (done ++ [test]) probe (InParallel k)
               = containerContents done probe (InParallel k)
                 ++ (if Container_eqb (containerOf test) (InParallel k) then [test] else [])).
    { intro k. rewrite containerContents_app, containerContents_one, Esame. reflexivity. }
    destruct (containerOf test) as [| |k0] eqn:Ec; simpl in *.
    + destruct Hplaced as (H1 & H2 & H3). rewrite H1, H2, H3, Hg0, Hh0.
      split; [reflexivity|]. split; [rewrite app_nil_r; reflexivity|].
      intro k. rewrite Hk, app_nil_r. apply Hp0.
    + destruct Hplaced as (H1 & H2 & H3). rewrite H1, H2, H3, Hg0, Hh0.
      split; [rewrite app_nil_r; reflexivity|]. split; [reflexivity|].
      intro k. rewrite Hk, app_nil_r. apply Hp0.
    + destruct Hplaced as (H1 & H2 & H3 & H4). rewrite H1, H2, Hg0, Hh0.
      split; [rewrite app_nil_r; reflexivity|]. split; [rewrite app_nil_r; reflexivity|].
      intro k. rewrite Hk. destruct (Key_eqb k0 k) eqn:Ek.
      * apply Key_eqb_spec in Ek. subst k. rewrite H3, Hp0. reflexivity.
      * rewrite app_nil_r. unfold testsAt. rewrite H4.
        -- apply Hp0.
        -- intro Heq. subst k. rewrite (proj2 (Key_eqb_spec k0 k0) eq_refl) in Ek.
           discriminate Ek.
  - assert (Hne : (_workerHash probe, _requireFile probe)
                  <> (_workerHash test, _requireFile test)).
    { intro Heq. assert (sameBucket probe test = true).
      { apply sameBucket_spec. symmetry. exact Heq. }
      congruence. }
    rewrite (Hother probe Hne). simpl. rewrite !app_nil_r.
    split; [exact Hg|]. split; [exact Hh|].
    intro k. rewrite containerContents_app, containerContents_one, Esame.
    simpl. rewrite app_nil_r. apply Hp.
Qed.

Lemma containersHold_addTests : forall ts groups done groups',
    containersHold groups done ->
    addTests groups ts = Some groups' ->
    containersHold groups' (done ++ ts).
Proof.
  induction ts as [|t rest IH]; intros groups done groups' Hinv H; simpl in H.
  - injection H as <-. rewrite app_nil_r. exact Hinv.
  - destruct (addTest groups t) as [g1|] eqn:E1; [|discriminate].
    change (t :: rest) with ([t] ++ rest). rewrite app_assoc.
    eapply IH; [|exact H]. eapply containersHold_addTest; eassumption.
Qed.

Lemma containersHold_addSuites : forall projectSuites groups done groups',
    containersHold groups done ->
    addSuites groups projectSuites = Some groups' ->
    containersHold groups' (done ++ flat_map allTests projectSuites).
Proof.
  induction projectSuites as [|s rest IH]; intros groups done groups' Hinv H; simpl in H.
  - injection H as <-. simpl. rewrite app_nil_r. exact Hinv.
  - destruct (addTests groups (allTests s)) as [g1|] eqn:E1; [|discriminate].
    simpl. rewrite app_assoc. eapply IH; [|exact H].
    eapply containersHold_addTests; eassumption.
Qed.

Lemma containersHold_start : containersHold [] [].
Proof. intro probe. repeat split. Qed.

(** X4. When the loop over the tests is done, each container of a bucket
    holds, in the order in which the tests were met, exactly the tests of that
    worker hash and file that the placement rule sends to it: [general] the
    tests outside any parallel suite, [parallelWithHooks] the hooked parallel
    tests outside any serial suite, and the [parallel] map, under each key,
    the tests of that serial suite or the single test of that identity. *)
Theorem buckets_hold_their_tests : forall projectSuites groups probe b,
    addSuites [] projectSuites = Some groups ->
    getBucket groups probe = Some b ->
    let ts := flat_map allTests projectSuites in
    tests (general b) = containerContents ts probe InGeneral
    /\ tests (parallelWithHooks b) = containerContents ts probe InParallelWithHooks
    /\ forall k, testsAt k (parallel b) = containerContents ts probe (InParallel k).
Proof.
  intros projectSuites groups probe b Hadd Hb ts.
  pose proof (containersHold_addSuites _ containersHold_start Hadd probe) as H.
  unfold generalOf, withHooksOf, parallelOf in H. rewrite Hb in H. exact H.
Qed.

Lemma buckets_hold_their_tests_witness :
  map tid (tests (general exBucketAfter)) = [30; 31]
  /\ map tid (tests (parallelWithHooks exBucketAfter)) = [10; 11; 12; 13; 14].
Proof.
  destruct (@buckets_hold_their_tests [exProjectSuite; exRepeatedSuite] exGroupsAfter
              (exRepeat 30 0) exBucketAfter eq_refl eq_refl) as (Hg & Hh & _).
  rewrite Hg, Hh. split; reflexivity.
Defined.

Lemma emitAll_In : forall workers bs gs b,
    emitAll workers bs = Some gs -> In b bs ->
    exists part, emitBucket workers b = Some part /\ incl part gs.
Proof.
  intros workers. induction bs as [|b0 rest IH]; intros gs b H Hb; [destruct Hb|].
  simpl in H.
  destruct (emitBucket workers b0) as [part|] eqn:Eb; [|discriminate].
  destruct (emitAll workers rest) as [more|] eqn:Er; [|discriminate].
  injection H as <-. destruct Hb as [->|Hb].
  - exists part. split; [exact Eb|]. apply incl_appl. apply incl_refl.
  - destruct (IH more b eq_refl Hb) as (part' & Hp & Hincl).
    exists part'. split; [exact Hp|]. apply incl_appr. exact Hincl.
Qed.

Lemma emitBucket_In : forall workers b part,
    emitBucket workers b = Some part ->
    (tests (general b) <> [] -> In (general b) part)
    /\ (forall g, In g (mvalues (parallel b)) -> In g part).
Proof.
  intros workers b part H. unfold emitBucket in H.
  destruct (splitWithHooks _ _ _ _ _) as [chunks|]; [|discriminate].
  injection H as <-. split.
  - intro Hne. apply in_or_app. left.
    destruct (tests (general b)); [contradiction | left; reflexivity].
  - intros g Hg. apply in_or_app. right. apply in_or_app. left. exact Hg.
Qed.

Lemma sameBucket_refl : forall t, sameBucket t t = true.
Proof. intro t. unfold sameBucket. rewrite !String.eqb_refl. reflexivity. Qed.

(** X5. Tests that must run together are never split: two tests of the same
    worker hash and file that the placement rule sends to the same container,
    other than [parallelWithHooks] (so: both outside any parallel suite, or
    both under the same outermost serial suite), are in one emitted group. *)
Theorem tests_of_one_container_share_a_group :
  forall projectSuites workers gs t1 t2,
    createTestGroups projectSuites workers = Some gs ->
    In t1 (flat_map allTests projectSuites) ->
    In t2 (flat_map allTests projectSuites) ->
    sameBucket t1 t2 = true ->
    containerOf t1 = containerOf t2 ->
    containerOf t1 <> InParallelWithHooks ->
    exists g, In g gs /\ In t1 (tests g) /\ In t2 (tests g).
Proof.
  intros projectSuites workers gs t1 t2 Hrun H1 H2 Hsame Hc Hnot.
  unfold createTestGroups in Hrun.
  destruct (addSuites [] projectSuites) as [groups|] eqn:Ea; [|discriminate].
  pose proof (containersHold_addSuites _ containersHold_start Ea t1) as (Hg & _ & Hp).
  simpl in Hg, Hp.
  set (ts := flat_map allTests projectSuites) in *.
  assert (Hin1 : In t1 (containerContents ts t1 (containerOf t1))).
  { apply filter_In. split; [exact H1|].
    rewrite sameBucket_refl. apply Container_eqb_spec. reflexivity. }
  assert (Hin2 : In t2 (containerContents ts t1 (containerOf t1))).
  { apply filter_In. split; [exact H2|].
    rewrite Hsame. apply Container_eqb_spec. symmetry. exact Hc. }
  unfold generalOf, parallelOf in Hg, Hp.
  destruct (getBucket groups t1) as [b|] eqn:Eb.
  - pose proof (getBucket_In _ _ Eb) as Hbin.
    destruct (emitAll_In _ _ b Hrun Hbin) as (part & Hpart & Hincl).
    pose proof Hpart as Hparts. apply emitBucket_In in Hparts.
    destruct Hparts as (Hgen & Hpar).
    destruct (containerOf t1) as [| |k] eqn:Ec; [ | contradiction | ].
    + exists (general b). rewrite Hg. split; [|split; assumption].
      apply Hincl. apply Hgen. rewrite Hg. intro Hnil. rewrite Hnil in Hin1. destruct Hin1.
    + specialize (Hp k). unfold testsAt in Hp.
      destruct (mget Key_eqb k (parallel b)) as [g|] eqn:Ek.
      * exists g. rewrite Hp. split; [|split; assumption].
        apply Hincl. apply Hpar. unfold mvalues. apply in_map_iff.
        exists (k, g). split; [reflexivity|]. apply (mget_In Key_eqb_spec). exact Ek.
      * rewrite <- Hp in Hin1. destruct Hin1.
  - destruct (containerOf t1) as [| |k]; [ | contradiction | ].
    + rewrite <- Hg in Hin1. destruct Hin1.
    + rewrite <- (Hp k) in Hin1. destruct Hin1.
Qed.

Lemma tests_of_one_container_share_a_group_witness :
  exists g,
    In g (concat exPairStages)
    /\ In (exTest 50 exFileNode) (tests g) /\ In (exTest 51 exFileNode) (tests g).
Proof.
  apply (@tests_of_one_container_share_a_group [exPairSuite] 1 (concat exPairStages)
           (exTest 50 exFileNode) (exTest 51 exFileNode)).
  - vm_compute. reflexivity.
  - simpl. left. reflexivity.
  - simpl. right. left. reflexivity.
  - reflexivity.
  - reflexivity.
  - vm_compute. discriminate.
Defined.

Lemma addTests_total : forall ts groups,
    Forall hasProject ts -> exists groups', addTests groups ts = Some groups'.
Proof.
  induction ts as [|t rest IH]; intros groups H; simpl.
  - eexists. reflexivity.
  - pose proof (Forall_inv H) as Ht. unfold hasProject in Ht.
    destruct (project (test_parent t)) as [p|] eqn:Ep; [|contradiction].
    destruct (addTest_total groups t Ep) as (g1 & ->).
    apply IH. exact (Forall_inv_tail H).
Qed.

Lemma addSuites_total : forall projectSuites groups,
    Forall hasProject (flat_map allTests projectSuites) ->
    exists groups', addSuites groups projectSuites = Some groups'.
Proof.
  induction projectSuites as [|s rest IH]; intros groups H; simpl.
  - eexists. reflexivity.
  - simpl in H. apply Forall_app in H. destruct H as (Hs & Hrest).
    destruct (addTests_total groups Hs) as (g1 & ->). apply IH. exact Hrest.
Qed.

Lemma splitWithHooks_total : forall n workers ts done lastGroup,
    Forall hasProject ts ->
    exists gs, splitWithHooks n workers done lastGroup ts = Some gs.
Proof.
  intros n workers. induction ts as [|t rest IH]; intros done lastGroup H; simpl.
  - eexists. reflexivity.
  - pose proof (Forall_inv H) as Ht. pose proof (Forall_inv_tail H) as Hrest.
    unfold hasProject in Ht. unfold createGroup.
    destruct (project (test_parent t)) as [p|]; [|contradiction].
    destruct lastGroup as [g|]; [destruct (groupIsFull _ _ _)|]; apply IH; exact Hrest.
Qed.

Lemma emitAll_total : forall workers bs,
    (forall b, In b bs -> Forall hasProject (tests (parallelWithHooks b))) ->
    exists gs, emitAll workers bs = Some gs.
Proof.
  intros workers. induction bs as [|b rest IH]; intro H; simpl.
  - eexists. reflexivity.
  - unfold emitBucket.
    destruct (splitWithHooks_total (length (tests (parallelWithHooks b))) workers
                [] None (H b (or_introl eq_refl))) as (chunks & ->).
    destruct IH as (more & ->).
    + intros b0 Hb0. apply H. right. exact Hb0.
    + eexists. reflexivity.
Qed.

(** X6. The grouper fails only for want of a project: when every test of
    the project suites has a project up its chain of parents, it returns its
    groups. *)
Theorem createTestGroups_returns : forall projectSuites workers,
    Forall hasProject (flat_map allTests projectSuites) ->
    exists gs, createTestGroups projectSuites workers = Some gs.
Proof.
  intros projectSuites workers H. unfold createTestGroups.
  destruct (addSuites_total projectSuites [] H) as (groups & Ea). rewrite Ea.
  apply emitAll_total. intros b Hb.
  pose proof (addSuites_contents _ _ Ea) as Hperm. simpl in Hperm.
  rewrite Forall_forall in *. intros t Ht. apply H.
  eapply Permutation_in; [exact Hperm|].
  unfold groupsTests. apply in_flat_map. exists b. split; [exact Hb|].
  unfold bucketTests. apply in_or_app. right. apply in_or_app. right. exact Ht.
Qed.

Lemma createTestGroups_returns_witness :
  exists gs, createTestGroups [exProjectSuite; exRepeatedSuite] 2 = Some gs.
Proof.
  apply createTestGroups_returns. unfold hasProject.
  repeat (constructor; [discriminate|]). constructor.
Defined.

(** ** Run stages *)

Section OrderedMapKeys.
Variables K V : Type.
Variable eqb : K -> K -> bool.
Hypothesis eqb_spec : forall a b, eqb a b = true <-> a = b.

Lemma mget_Some_key : forall k (v : V) m, mget eqb k m = Some v -> In k (map fst m).
Proof.
  intros k v m H. apply (mget_In eqb_spec) in H.
  apply in_map_iff. exists (k, v). split; [reflexivity | exact H].
Qed.

Lemma mget_None_key : forall k (m : list (K * V)), mget eqb k m = None -> ~ In k (map fst m).
Proof.
  intros k m. induction m as [|[k' v'] rest IH]; simpl; intros H Hin; [exact Hin|].
  destruct (eqb k k') eqn:E; [discriminate|].
  destruct Hin as [Heq|Hin]; [|exact (IH H Hin)].
  subst k'. rewrite (proj2 (eqb_spec k k) eq_refl) in E. discriminate E.
Qed.

Lemma mset_keys : forall k (v : V) m,
    map fst (mset eqb k v m)
    = if isSome (mget eqb k m) then map fst m else map fst m ++ [k].
Proof.
  intros k v m. induction m as [|[k' v'] rest IH]; simpl; [reflexivity|].
  destruct (eqb k k') eqn:E; simpl; [reflexivity|].
  rewrite IH. destruct (isSome (mget eqb k rest)); reflexivity.
Qed.
End OrderedMapKeys.

Arguments mget_Some_key [K V eqb] eqb_spec k [v] m _.
Arguments mget_None_key [K V eqb] eqb_spec k m _ _.

Lemma Z_eqb_spec : forall a b : Z, Z.eqb a b = true <-> a = b.
Proof. intros a b. apply Z.eqb_eq. Qed.

Section MultiMapFacts.
Variables K V : Type.
Variable eqb : K -> K -> bool.
Hypothesis eqb_spec : forall a b, eqb a b = true <-> a = b.
Variable keyOf : V -> K.

(** After setting every value of a list under its key, the multimap has the
    keys of the list, each once, and under each key the values of that key, in
    the order of the list. *)
Lemma multiSet_all : forall (vs : list V) m done,
    NoDup (multiKeys m) ->
    (forall k, multiGet eqb k m = filter (fun v => eqb (keyOf v) k) done) ->
    (forall k, In k (multiKeys m) <-> exists v, In v done /\ keyOf v = k) ->
    let m' := fold_left (fun m v => multiSet eqb (keyOf v) v m) vs m in
    NoDup (multiKeys m')
    /\ (forall k, multiGet eqb k m' = filter (fun v => eqb (keyOf v) k) (done ++ vs))
    /\ (forall k, In k (multiKeys m') <-> exists v, In v (done ++ vs) /\ keyOf v = k).
Proof.
  induction vs as [|v rest IH]; intros m done Hnd Hget Hkeys; simpl.
  - rewrite app_nil_r. repeat split; try assumption; apply Hkeys.
  - assert (Happ : done ++ v :: rest = (done ++ [v]) ++ rest)
      by (rewrite <- app_assoc; reflexivity).
    rewrite Happ.
    apply IH; unfold multiSet, multiKeys in *.
    + rewrite mset_keys. destruct (mget eqb (keyOf v) m) eqn:Em; simpl; [exact Hnd|].
      apply Permutation_NoDup with (l := keyOf v :: map fst m).
      * apply Permutation_cons_append.
      * constructor; [apply (mget_None_key eqb_spec); exact Em | exact Hnd].
    + intro k. unfold multiGet at 1. rewrite filter_app. simpl.
      destruct (eqb (keyOf v) k) eqn:Ek.
      * apply eqb_spec in Ek. subst k.
        rewrite (mget_mset_same eqb_spec). rewrite Hget. reflexivity.
      * rewrite (mget_mset_other eqb_spec).
        -- rewrite app_nil_r. apply Hget.
        -- intro Heq. subst k. rewrite (proj2 (eqb_spec _ _) eq_refl) in Ek. discriminate Ek.
    + intro k. rewrite mset_keys. split.
      * intro Hin.
        assert (Hcases : In k (map fst m) \/ k = keyOf v).
        { destruct (isSome (mget eqb (keyOf v) m)); [left; exact Hin|].
          apply in_app_or in Hin. destruct Hin as [Hin|[Heq|[]]];
            [left; exact Hin | right; symmetry; exact Heq]. }
        destruct Hcases as [Hin'| ->].
        -- apply Hkeys in Hin'. destruct Hin' as (v0 & Hv0 & Hk).
           exists v0. split; [apply in_or_app; left; exact Hv0 | exact Hk].
        -- exists v. split; [apply in_or_app; right; left; reflexivity | reflexivity].
      * intros (v0 & Hv0 & Hk). apply in_app_or in Hv0.
        assert (Hgoal : In k (map fst m) \/ k = keyOf v).
        { destruct Hv0 as [Hv0|[->|[]]]; [|right; symmetry; exact Hk].
          left. apply Hkeys. exists v0. split; assumption. }
        destruct (mget eqb (keyOf v) m) eqn:Em; simpl.
        -- destruct Hgoal as [Hin| ->]; [exact Hin|].
           apply (mget_Some_key eqb_spec) in Em. exact Em.
        -- apply in_or_app. destruct Hgoal as [Hin| ->];
             [left; exact Hin | right; left; reflexivity].
Qed.
End MultiMapFacts.

Lemma insertNumber_perm : forall x l, Permutation (insertNumber x l) (x :: l).
Proof.
  intros x. induction l as [|y rest IH]; simpl; [apply Permutation_refl|].
  destruct (x <=? y)%Z; [apply Permutation_refl|].
  eapply Permutation_trans; [apply perm_skip; exact IH | apply perm_swap].
Qed.

Lemma sortNumbers_perm : forall l, Permutation (sortNumbers l) l.
Proof.
  induction l as [|x rest IH]; simpl; [constructor|].
  eapply Permutation_trans; [apply insertNumber_perm | apply perm_skip; exact IH].
Qed.

Lemma insertNumber_sorted : forall x l,
    NonDescending l -> NonDescending (insertNumber x l).
Proof.
  intros x l H. induction H as [|y rest Hy Hrest IH]; simpl.
  - constructor; constructor.
  - destruct (Z.leb_spec x y).
    + constructor; [|constructor; assumption].
      constructor; [assumption|].
      eapply Forall_impl; [|exact Hy]. simpl. intros. lia.
    + constructor; [|exact IH].
      rewrite Forall_forall in *. intros z Hz.
      apply (Permutation_in _ (insertNumber_perm x rest)) in Hz.
      destruct Hz as [<-|Hz]; [lia | apply Hy; exact Hz].
Qed.

Lemma sortNumbers_sorted : forall l, NonDescending (sortNumbers l).
Proof.
  induction l as [|x rest IH]; simpl; [constructor|].
  apply insertNumber_sorted. exact IH.
Qed.

Lemma NonDescending_NoDup : forall l, NonDescending l -> NoDup l -> Ascending l.
Proof.
  intros l H. induction H as [|x rest Hx Hrest IH]; intro Hnd; [constructor|].
  inversion Hnd as [|? ? Hnotin Hnd']; subst.
  constructor; [|apply IH; exact Hnd'].
  rewrite Forall_forall in *. intros y Hy.
  specialize (Hx y Hy). assert (x <> y) by (intro; subst; contradiction). lia.
Qed.

Lemma collectRunStages_stages : forall projects,
    exists stageIds,
      collectRunStages projects = map (fun id => filter (inStage id) projects) stageIds
      /\ Ascending stageIds
      /\ forall id, In id stageIds <-> exists p, In p projects /\ stage p = id.
Proof.
  intro projects. unfold collectRunStages.
  destruct (@multiSet_all Z Project Z.eqb Z_eqb_spec stage projects [] [])
    as (Hnd & Hget & Hkeys).
  - constructor.
  - intro k. reflexivity.
  - intro k. simpl. split; [intros [] | intros (v & [] & _)].
  - simpl in Hget, Hkeys.
    set (m := fold_left (fun m p => multiSet Z.eqb (stage p) p m) projects []) in *.
    exists (sortNumbers (multiKeys m)). split; [|split].
    + apply map_ext. intro id. apply Hget.
    + apply NonDescending_NoDup; [apply sortNumbers_sorted|].
      eapply Permutation_NoDup; [apply Permutation_sym; apply sortNumbers_perm | exact Hnd].
    + intro id. rewrite <- Hkeys. split; intro Hin.
      * eapply Permutation_in; [apply sortNumbers_perm | exact Hin].
      * eapply Permutation_in; [apply Permutation_sym; apply sortNumbers_perm | exact Hin].
Qed.

(** X7. The run stages are the projects grouped by stage number: one stage
    for each stage number that some project has, the stages in strictly
    ascending order of that number, and each stage made of the projects of its
    number in the order of the configuration. *)
Theorem collectRunStages_groups_by_stage : forall projects,
    exists stageIds,
      collectRunStages projects = map (fun id => filter (inStage id) projects) stageIds
      /\ Ascending stageIds
      /\ forall id, In id stageIds <-> exists p, In p projects /\ stage p = id.
Proof. exact collectRunStages_stages. Qed.

Lemma Ascending_NoDup : forall l, Ascending l -> NoDup l.
Proof.
  intros l H. induction H as [|x rest Hx Hrest IH]; constructor; [|exact IH].
  intro Hin. rewrite Forall_forall in Hx. specialize (Hx x Hin). lia.
Qed.

Lemma filter_partition_perm : forall (A : Type) (f : A -> bool) l,
    Permutation l (filter f l ++ filter (fun x => negb (f x)) l).
Proof.
  induction l as [|x rest IH]; simpl; [constructor|].
  destruct (f x); simpl.
  - constructor. exact IH.
  - apply Permutation_cons_app. exact IH.
Qed.

Lemma filter_filter_implied : forall (A : Type) (f g : A -> bool) l,
    (forall x, f x = true -> g x = true) ->
    filter f (filter g l) = filter f l.
Proof.
  intros A f g l H. induction l as [|x rest IH]; simpl; [reflexivity|].
  destruct (g x) eqn:Eg; simpl.
  - rewrite IH. reflexivity.
  - destruct (f x) eqn:Ef; [|exact IH]. rewrite (H x Ef) in Eg. discriminate Eg.
Qed.

Lemma stages_cover : forall stageIds projects,
    NoDup stageIds ->
    (forall p, In p projects -> In (stage p) stageIds) ->
    Permutation (concat (map (fun id => filter (inStage id) projects) stageIds)) projects.
Proof.
  induction stageIds as [|id rest IH]; intros projects Hnd Hall; simpl.
  - destruct projects as [|p ps]; [constructor|]. destruct (Hall p (or_introl eq_refl)).
  - inversion Hnd as [|? ? Hnotin Hnd']; subst.
    eapply Permutation_trans; [|apply Permutation_sym; apply (filter_partition_perm (inStage id))].
    apply Permutation_app_head.
    replace (map (fun id0 => filter (inStage id0) projects) rest)
      with (map (fun id0 => filter (inStage id0)
                                   (filter (fun x => negb (inStage id x)) projects)) rest).
    + apply IH; [exact Hnd'|]. intros p Hp. apply filter_In in Hp. destruct Hp as (Hp & Hneg).
      destruct (Hall p Hp) as [Heq|Hin]; [|exact Hin].
      unfold inStage in Hneg. rewrite <- Heq, Z.eqb_refl in Hneg. discriminate Hneg.
    + apply map_ext_in. intros id0 Hid0. apply filter_filter_implied.
      intros p Hp. unfold inStage in *. apply Z.eqb_eq in Hp.
      destruct (Z.eqb_spec (stage p) id); [|reflexivity].
      exfalso. apply Hnotin. congruence.
Qed.

(** X8. Staging neither loses nor duplicates a project and makes no empty
    stage: the stages, concatenated, are the projects up to order, and there is
    no stage at all exactly when there is no project. *)
Theorem collectRunStages_partition : forall projects,
    Permutation (concat (collectRunStages projects)) projects
    /\ Forall (fun stageProjects => stageProjects <> []) (collectRunStages projects)
    /\ (collectRunStages projects = [] <-> projects = []).
Proof.
  intro projects. destruct (collectRunStages_stages projects) as (ids & Heq & Hasc & Hin).
  rewrite Heq.
  assert (Hperm : Permutation (concat (map (fun id => filter (inStage id) projects) ids))
                              projects).
  { apply stages_cover; [apply Ascending_NoDup; exact Hasc|].
    intros p Hp. apply Hin. exists p. split; [exact Hp | reflexivity]. }
  split; [exact Hperm|]. split.
  - apply Forall_forall. intros st Hst. apply in_map_iff in Hst.
    destruct Hst as (id & <- & Hid). apply Hin in Hid. destruct Hid as (p & Hp & Hs).
    intro Hnil. assert (Hpin : In p (filter (inStage id) projects)).
    { apply filter_In. split; [exact Hp|]. unfold inStage. rewrite Hs. apply Z.eqb_refl. }
    rewrite Hnil in Hpin. destruct Hpin.
  - split.
    + intro Hnil. rewrite Hnil in Hperm. simpl in Hperm.
      apply Permutation_nil in Hperm. exact Hperm.
    + intros ->. destruct ids as [|id rest]; [reflexivity|].
      exfalso. destruct (proj1 (Hin id) (or_introl eq_refl)) as (p & [] & _).
Qed.

(** The stages of the example configuration. *)
Example collectRunStages_example :
  map (map project_name) (collectRunStages exProjects)
  = [["setup"]; ["e2e"; "smoke"]; ["cleanup"]]%string.
Proof. reflexivity. Qed.

(** ** The projects to run *)

Section CollectProjectsFacts.
Variable lower : string -> string.

Lemma unknownProjects_keys : forall names m k,
    In k (map fst (fold_left (fun m n => mset String.eqb (lower n) n m) names m))
    <-> In k (map fst m) \/ exists n, In n names /\ lower n = k.
Proof.
  induction names as [|n rest IH]; intros m k; simpl.
  - split; [intro H; left; exact H | intros [H|(n & [] & _)]; exact H].
  - rewrite IH, mset_keys. split.
    + intros [Hin|(n0 & Hn0 & Hk)].
      * destruct (isSome (mget String.eqb (lower n) m)); [left; exact Hin|].
        apply in_app_or in Hin. destruct Hin as [Hin|[Heq|[]]]; [left; exact Hin|].
        right. exists n. split; [left; reflexivity | exact Heq].
      * right. exists n0. split; [right; exact Hn0 | exact Hk].
    + intros [Hin|(n0 & [->|Hn0] & Hk)].
      * left. destruct (isSome (mget String.eqb (lower n) m)); [exact Hin|].
        apply in_or_app. left. exact Hin.
      * left. destruct (mget String.eqb (lower n0) m) eqn:Em; simpl.
        -- subst k. apply (mget_Some_key string_eqb_spec) in Em. exact Em.
        -- apply in_or_app. right. left. exact Hk.
      * right. exists n0. split; assumption.
Qed.

Lemma selectProjects_result : forall projectsToFind projects selected unknown,
    fold_left (selectProject lower projectsToFind) projects (selected, unknown)
    = (selected
         ++ filter (fun p => existsb (String.eqb (lower (project_name p))) projectsToFind)
                   projects,
       filter (fun kv => negb (existsb (fun p => String.eqb (lower (project_name p)) (fst kv))
                                       projects))
              unknown).
Proof.
  intros projectsToFind. induction projects as [|p rest IH]; intros selected unknown; simpl.
  - rewrite app_nil_r. f_equal. symmetry. apply filter_all.
    apply forallb_forall. intros. reflexivity.
  - unfold selectProject at 2. simpl. rewrite IH. f_equal.
    + destruct (existsb _ projectsToFind); [rewrite <- app_assoc|]; reflexivity.
    + unfold mdelete. clear. induction unknown as [|kv more IHu]; simpl; [reflexivity|].
      destruct (String.eqb (lower (project_name p)) (fst kv)); simpl; rewrite IHu; reflexivity.
Qed.

Lemma collectProjects_result : forall projects projectNames,
    match _collectProjects lower projects (Some projectNames) with
    | inl selected =>
        selected = filter (requested lower projectNames) projects
        /\ forall n, In n projectNames ->
             exists p, In p projects /\ lower (project_name p) = lower n
    | inr _ =>
        exists n, In n projectNames
                  /\ forall p, In p projects -> lower (project_name p) <> lower n
    end.
Proof.
  intros projects projectNames. unfold _collectProjects.
  rewrite selectProjects_result. simpl.
  set (unknownProjects := fold_left _ projectNames []).
  set (unknown := filter _ unknownProjects).
  assert (Hkeys : forall k, In k (map fst unknownProjects)
                            <-> exists n, In n projectNames /\ lower n = k).
  { intro k. unfold unknownProjects. rewrite unknownProjects_keys. simpl.
    split; [intros [[]|H]; exact H | intro H; right; exact H]. }
  destruct unknown as [|[k v] more] eqn:Eu; simpl.
  - split; [reflexivity|]. intros n Hn.
    assert (Hk : In (lower n) (map fst unknownProjects)).
    { apply Hkeys. exists n. split; [exact Hn | reflexivity]. }
    apply in_map_iff in Hk. destruct Hk as ([k v] & Hkv & Hin). simpl in Hkv. subst k.
    destruct (existsb (fun p => String.eqb (lower (project_name p)) (lower n)) projects)
      eqn:Ex.
    + apply existsb_exists in Ex. destruct Ex as (p & Hp & Heq).
      apply String.eqb_eq in Heq. exists p. split; assumption.
    + assert (Hmem : In (lower n, v) unknown).
      { unfold unknown. apply filter_In. split; [exact Hin|]. simpl. rewrite Ex. reflexivity. }
      rewrite Eu in Hmem. destruct Hmem.
  - assert (Hmem : In (k, v) unknown) by (rewrite Eu; left; reflexivity).
    unfold unknown in Hmem. apply filter_In in Hmem. destruct Hmem as (Hin & Hno).
    simpl in Hno. apply negb_true_iff in Hno.
    assert (Hk : In k (map fst unknownProjects)).
    { apply in_map_iff. exists (k, v). split; [reflexivity | exact Hin]. }
    apply Hkeys in Hk. destruct Hk as (n & Hn & Heq). subst k.
    assert (Hgoal : exists n0, In n0 projectNames
                      /\ forall p, In p projects -> lower (project_name p) <> lower n0).
    { exists n. split; [exact Hn|]. intros p Hp Hpn.
      assert (existsb (fun p => String.eqb (lower (project_name p)) (lower n)) projects = true).
      { apply existsb_exists. exists p. split; [exact Hp | apply String.eqb_eq; exact Hpn]. }
      congruence. }
    destruct (isEmpty (filter _ (map project_name projects))); exact Hgoal.
Qed.
End CollectProjectsFacts.

(** X9. With a list of project names, the projects to run are the
    configured projects whose name is one of the names, letter case apart, in
    the order of the configuration, and every name is then the name of some
    project; the call throws exactly when some name is the name of no project.
    (An empty list of names selects no project.) *)
Theorem collectProjects_selects_by_name : forall lower projects projectNames,
    match _collectProjects lower projects (Some projectNames) with
    | inl selected =>
        selected = filter (requested lower projectNames) projects
        /\ forall n, In n projectNames ->
             exists p, In p projects /\ lower (project_name p) = lower n
    | inr _ =>
        exists n, In n projectNames
                  /\ forall p, In p projects -> lower (project_name p) <> lower n
    end.
Proof. exact collectProjects_result. Qed.

(** The example configuration with names in another case, and with a name
    that no project has. *)
Example collectProjects_example :
  _collectProjects exLower exProjects (Some ["SMOKE"; "Setup"]%string)
  = inl [mkProject "setup" RunDefault 0; mkProject "smoke" RunDefault 1]
  /\ _collectProjects exLower exProjects (Some ["smoke"; "firefox"]%string)
     = inr ("Project(s) " ++ quoted "firefox"
              ++ " not found. Available named projects: "
              ++ quoted "e2e" ++ ", " ++ quoted "setup" ++ ", " ++ quoted "smoke"
              ++ ", " ++ quoted "cleanup")%string
  /\ _collectProjects exLower exProjects (Some []) = inl [].
Proof. repeat split; vm_compute; reflexivity. Qed.

(** ** Further properties of the suite filters *)

Lemma isEmpty_nil : forall (A : Type) (l : list A), isEmpty l = true <-> l = [].
Proof. intros A [|x l]; simpl; split; intro H; try reflexivity; discriminate. Qed.

Lemma filter_nil_iff : forall (A : Type) (f : A -> bool) l,
    filter f l = [] <-> forall x, In x l -> f x = false.
Proof.
  intros A f. induction l as [|x rest IH]; simpl.
  - split; [intros _ x [] | reflexivity].
  - destruct (f x) eqn:E.
    + split; [discriminate|]. intro H. specialize (H x (or_introl eq_refl)). congruence.
    + rewrite IH. split.
      * intros H y [<-|Hy]; [exact E | apply H; exact Hy].
      * intros H y Hy. apply H. right. exact Hy.
Qed.

Lemma treeTests_child : forall nd subs ts es c t,
    In c subs -> In t (treeTests c) -> In t (treeTests (mkSuite nd subs ts es)).
Proof.
  intros. simpl. apply in_or_app. right. apply in_flat_map. exists c. split; assumption.
Qed.

Section OnlySemantics.
Variable suiteFilter : Suite -> bool.
Variable testFilter : TestCase -> bool.

Lemma filterSuiteWithOnlySemantics_result : forall suite,
    (fst (filterSuiteWithOnlySemantics suiteFilter testFilter suite) = true
     <-> hasFocus suiteFilter testFilter suite)
    /\ (fst (filterSuiteWithOnlySemantics suiteFilter testFilter suite) = false ->
        snd (filterSuiteWithOnlySemantics suiteFilter testFilter suite) = suite).
Proof.
  induction suite as [nd subs ts es IH] using Suite_tree_ind.
  rewrite Forall_forall in IH.
  cbn [filterSuiteWithOnlySemantics].
  set (visited := map (filterSuiteWithOnlySemantics suiteFilter testFilter) subs).
  set (onlySuites := map snd (filter (fun rc => fst rc || suiteFilter (snd rc)) visited)).
  set (onlyTests := filter testFilter ts).
  assert (Hsuites : onlySuites = [] <->
            forall c, In c subs ->
              fst (filterSuiteWithOnlySemantics suiteFilter testFilter c) = false
              /\ suiteFilter c = false).
  { unfold onlySuites. split.
    - intros Hnil c Hc. apply map_eq_nil in Hnil.
      rewrite filter_nil_iff in Hnil.
      specialize (Hnil (filterSuiteWithOnlySemantics suiteFilter testFilter c)
                       (in_map _ _ _ Hc)).
      apply orb_false_iff in Hnil. destruct Hnil as (Hf & Hs).
      split; [exact Hf|]. rewrite (proj2 (IH c Hc) Hf) in Hs. exact Hs.
    - intro H. replace (filter _ visited) with (@nil (bool * Suite)); [reflexivity|].
      symmetry. apply filter_nil_iff. intros rc Hrc. unfold visited in Hrc.
      apply in_map_iff in Hrc. destruct Hrc as (c & <- & Hc).
      destruct (H c Hc) as (Hf & Hs). rewrite Hf, (proj2 (IH c Hc) Hf), Hs. reflexivity. }
  assert (Htests : onlyTests = [] <-> forall t, In t ts -> testFilter t = false)
    by apply filter_nil_iff.
  assert (Hfocus : hasFocus suiteFilter testFilter (mkSuite nd subs ts es)
                   <-> ~ (onlySuites = [] /\ onlyTests = [])).
  { rewrite Hsuites, Htests. split.
    - intros [(t & Ht & Hpass) | (c & Hc & Hpass)] (Hs & Htn).
      + simpl in Ht. apply in_app_or in Ht. destruct Ht as [Ht|Ht].
        * rewrite (Htn t Ht) in Hpass. discriminate.
        * apply in_flat_map in Ht. destruct Ht as (c & Hc & Ht).
          destruct (Hs c Hc) as (Hf & _).
          assert (Htrue : fst (filterSuiteWithOnlySemantics suiteFilter testFilter c) = true).
          { apply (IH c Hc). left. exists t. split; assumption. }
          congruence.
      + unfold suitesBelow in Hc. simpl in Hc. apply in_flat_map in Hc.
        destruct Hc as (c0 & Hc0 & Hc). destruct (Hs c0 Hc0) as (Hf & Hsf).
        destruct c0 as [nd0 subs0 ts0 es0]. simpl in Hc. destruct Hc as [<-|Hc].
        * congruence.
        * assert (Htrue : fst (filterSuiteWithOnlySemantics suiteFilter testFilter
                                 (mkSuite nd0 subs0 ts0 es0)) = true).
          { apply (IH _ Hc0). right. exists c. split; [exact Hc | exact Hpass]. }
          congruence.
    - intro Hnot.
      destruct (existsb testFilter ts) eqn:Et.
      + apply existsb_exists in Et. destruct Et as (t & Ht & Hpass).
        left. exists t. split; [|exact Hpass]. simpl. apply in_or_app. left. exact Ht.
      + destruct (existsb (fun c => fst (filterSuiteWithOnlySemantics suiteFilter testFilter c)
                                    || suiteFilter c) subs) eqn:Es.
        * apply existsb_exists in Es. destruct Es as (c & Hc & Hor).
          apply orb_true_iff in Hor. destruct Hor as [Hf|Hsf].
          -- apply (IH c Hc) in Hf. destruct Hf as [(t & Ht & Hpass) | (d & Hd & Hpass)].
             ++ left. exists t. split; [|exact Hpass]. eapply treeTests_child; eassumption.
             ++ right. exists d. split; [|exact Hpass].
                unfold suitesBelow. simpl. apply in_flat_map. exists c. split; [exact Hc|].
                destruct c as [nd0 subs0 ts0 es0]. right. exact Hd.
          -- right. exists c. split; [|exact Hsf].
             unfold suitesBelow. simpl. apply in_flat_map. exists c.
             split; [exact Hc | apply allSuites_self].
        * exfalso. apply Hnot. split.
          -- intros c Hc. apply orb_false_iff.
             apply not_true_is_false. intro Htrue.
             assert (existsb (fun c => fst (filterSuiteWithOnlySemantics suiteFilter
                                              testFilter c) || suiteFilter c) subs = true).
             { apply existsb_exists. exists c. split; assumption. }
             congruence.
          -- intros t Ht. apply not_true_is_false. intro Htrue.
             assert (existsb testFilter ts = true).
             { apply existsb_exists. exists t. split; assumption. }
             congruence. }
  destruct onlySuites as [|s0 ss] eqn:Eos; destruct onlyTests as [|t0 tt] eqn:Eot;
    cbn [isEmpty andb negb fst snd].
  - split.
    + split; [discriminate|]. intro Hf. exfalso. apply Hfocus in Hf. apply Hf. split; reflexivity.
    + intros _. f_equal. unfold visited. rewrite map_map.
      rewrite <- (map_id subs) at 2. apply map_ext_in. intros c Hc.
      apply (IH c Hc). apply (proj1 Hsuites eq_refl c Hc).
  - split; [|discriminate]. split; [|reflexivity].
    intros _. apply Hfocus. intros (_ & H). discriminate H.
  - split; [|discriminate]. split; [|reflexivity].
    intros _. apply Hfocus. intros (H & _). discriminate H.
  - split; [|discriminate]. split; [|reflexivity].
    intros _. apply Hfocus. intros (H & _). discriminate H.
Qed.
End OnlySemantics.

(** X10. Filtering with only-semantics answers whether anything is focused:
    it returns true exactly when some test of the tree passes the test filter
    or some suite below the root passes the suite filter; and when it returns
    false it leaves the whole tree as it was. *)
Theorem only_filter_is_noop_without_focus : forall suiteFilter testFilter suite,
    (fst (filterSuiteWithOnlySemantics suiteFilter testFilter suite) = true
     <-> hasFocus suiteFilter testFilter suite)
    /\ (fst (filterSuiteWithOnlySemantics suiteFilter testFilter suite) = false ->
        snd (filterSuiteWithOnlySemantics suiteFilter testFilter suite) = suite).
Proof. exact filterSuiteWithOnlySemantics_result. Qed.

Lemma only_filter_is_noop_without_focus_witness :
  snd (filterOnly exTwoStageRoot) = exTwoStageRoot.
Proof.
  apply (proj2 (@only_filter_is_noop_without_focus
                  (fun s => _only (node s)) test_only exTwoStageRoot)).
  reflexivity.
Defined.

Lemma filterSuiteWithOnlySemantics_keeps_focused_tests :
  forall suiteFilter testFilter suite t,
    In t (treeTests suite) -> testFilter t = true ->
    In t (treeTests (snd (filterSuiteWithOnlySemantics suiteFilter testFilter suite))).
Proof.
  intros sF tF. induction suite as [nd subs ts es IH] using Suite_tree_ind.
  rewrite Forall_forall in IH. intros t Ht Hpass.
  cbn [filterSuiteWithOnlySemantics].
  set (visited := map (filterSuiteWithOnlySemantics sF tF) subs).
  set (onlySuites := map snd (filter (fun rc => fst rc || sF (snd rc)) visited)).
  set (onlyTests := filter tF ts).
  assert (Hin : In t onlyTests
                \/ exists c', In c' onlySuites /\ In t (treeTests c')).
  { simpl in Ht. apply in_app_or in Ht. destruct Ht as [Ht|Ht].
    - left. apply filter_In. split; assumption.
    - right. apply in_flat_map in Ht. destruct Ht as (c & Hc & Ht).
      exists (snd (filterSuiteWithOnlySemantics sF tF c)). split.
      + unfold onlySuites. apply in_map. apply filter_In. split.
        * unfold visited. apply in_map. exact Hc.
        * apply orb_true_iff. left.
          apply (filterSuiteWithOnlySemantics_result sF tF c).
          left. exists t. split; assumption.
      + apply IH; assumption. }
  assert (Hnonempty : negb (isEmpty onlySuites && isEmpty onlyTests) = true).
  { destruct Hin as [Hin | (c' & Hc' & _)].
    - destruct onlyTests; [destruct Hin|]. destruct onlySuites; reflexivity.
    - destruct onlySuites; [destruct Hc'|]. reflexivity. }
  rewrite Hnonempty. simpl. apply in_or_app.
  destruct Hin as [Hin | (c' & Hc' & Hin)]; [left; exact Hin|].
  right. apply in_flat_map. exists c'. split; assumption.
Qed.

Lemma filterSuite_keeps_matching_tests : forall suiteFilter testFilter suite t,
    In t (treeTests suite) -> testFilter t = true ->
    In t (treeTests (filterSuite suiteFilter testFilter suite)).
Proof.
  intros sF tF. induction suite as [nd subs ts es IH] using Suite_tree_ind.
  rewrite Forall_forall in IH. intros t Ht Hpass.
  simpl in *. apply in_app_or in Ht. apply in_or_app. destruct Ht as [Ht|Ht].
  - left. apply filter_In. split; assumption.
  - right. apply in_flat_map in Ht. destruct Ht as (c & Hc & Ht).
    apply in_flat_map. exists (if sF c then c else filterSuite sF tF c). split.
    + apply in_map_iff. exists c. split; [reflexivity | exact Hc].
    + destruct (sF c); [exact Ht | apply IH; assumption].
Qed.

(** X11. Neither filter drops a test that passes the test filter: such a
    test of the tree is still in the tree after plain filtering and after
    filtering with only-semantics (a focused test keeps its place, with the
    suites that contain it). *)
Theorem filters_keep_matching_tests : forall suiteFilter testFilter suite t,
    In t (treeTests suite) -> testFilter t = true ->
    In t (treeTests (snd (filterSuiteWithOnlySemantics suiteFilter testFilter suite)))
    /\ In t (treeTests (filterSuite suiteFilter testFilter suite)).
Proof.
  intros. split.
  - apply filterSuiteWithOnlySemantics_keeps_focused_tests; assumption.
  - apply filterSuite_keeps_matching_tests; assumption.
Qed.

Lemma filters_keep_matching_tests_witness :
  In (exTest 50 exFileNode)
     (treeTests (snd (filterSuiteWithOnlySemantics
                        (fun _ => false) (fun t => Nat.eqb (tid t) 50) exTwoStageRoot)))
  /\ In (exTest 50 exFileNode)
        (treeTests (filterSuite (fun _ => false) (fun t => Nat.eqb (tid t) 50)
                                exTwoStageRoot)).
Proof.
  apply filters_keep_matching_tests; [|reflexivity].
  simpl. left. reflexivity.
Defined.

Lemma filterSuiteWithOnlySemantics_focusedOnly : forall suiteFilter testFilter suite,
    fst (filterSuiteWithOnlySemantics suiteFilter testFilter suite) = true ->
    focusedOnly suiteFilter testFilter
                (snd (filterSuiteWithOnlySemantics suiteFilter testFilter suite)) = true.
Proof.
  intros sF tF. induction suite as [nd subs ts es IH] using Suite_tree_ind.
  rewrite Forall_forall in IH. cbn [filterSuiteWithOnlySemantics].
  destruct (negb _); [|discriminate]. intros _. cbn [snd focusedOnly].
  apply andb_true_iff. split.
  - apply forallb_forall. intros t Ht. apply filter_In in Ht. apply Ht.
  - apply forallb_forall. intros c' Hc'. apply in_map_iff in Hc'.
    destruct Hc' as (rc & <- & Hrc). apply filter_In in Hrc. destruct Hrc as (Hrc & Hkeep).
    apply in_map_iff in Hrc. destruct Hrc as (c & <- & Hc).
    apply orb_true_iff in Hkeep. apply orb_true_iff.
    destruct Hkeep as [Hf|Hs]; [right; apply IH; assumption | left; exact Hs].
Qed.

(** X12. When filtering with only-semantics finds something focused, what is
    not focused is pruned: at every level of the resulting tree the tests pass
    the test filter, except below a suite that passes the suite filter; with a
    suite filter that is never true, every test left in the tree passes the
    test filter. *)
Theorem only_filter_prunes_unfocused : forall suiteFilter testFilter suite,
    fst (filterSuiteWithOnlySemantics suiteFilter testFilter suite) = true ->
    let after := snd (filterSuiteWithOnlySemantics suiteFilter testFilter suite) in
    focusedOnly suiteFilter testFilter after = true
    /\ ((forall s, suiteFilter s = false) ->
        forall t, In t (treeTests after) -> testFilter t = true).
Proof.
  intros sF tF suite Htrue after.
  pose proof (filterSuiteWithOnlySemantics_focusedOnly sF tF suite Htrue) as Hclean.
  fold after in Hclean. split; [exact Hclean|].
  intros Hnever. clear Htrue. revert Hclean. generalize after. clear after suite.
  induction after as [nd subs ts es IH] using Suite_tree_ind.
  rewrite Forall_forall in IH. cbn [focusedOnly]. intros Hclean t Ht.
  apply andb_true_iff in Hclean. destruct Hclean as (Hts & Hsubs).
  rewrite forallb_forall in Hts, Hsubs.
  simpl in Ht. apply in_app_or in Ht. destruct Ht as [Ht|Ht]; [apply Hts; exact Ht|].
  apply in_flat_map in Ht. destruct Ht as (c & Hc & Ht).
  specialize (Hsubs c Hc). rewrite (Hnever c) in Hsubs. simpl in Hsubs.
  exact (IH c Hc Hsubs t Ht).
Qed.

Lemma only_filter_prunes_unfocused_witness :
  map tid (treeTests (snd (filterSuiteWithOnlySemantics
                             (fun _ => false) (fun t => Nat.eqb (tid t) 50)
                             exTwoStageRoot)))
  = [50]
  /\ forall t,
      In t (treeTests (snd (filterSuiteWithOnlySemantics
                              (fun _ => false) (fun t => Nat.eqb (tid t) 50)
                              exTwoStageRoot))) ->
      Nat.eqb (tid t) 50 = true.
Proof.
  split; [reflexivity|].
  exact (proj2 (@only_filter_prunes_unfocused (fun _ => false)
                  (fun t => Nat.eqb (tid t) 50) exTwoStageRoot eq_refl)
               (fun _ => eq_refl)).
Defined.

Lemma filterSuite_nodes : forall suiteFilter testFilter suite,
    map node (allSuites (filterSuite suiteFilter testFilter suite))
    = map node (allSuites suite).
Proof.
  intros sF tF. induction suite as [nd subs ts es IH] using Suite_tree_ind.
  rewrite Forall_forall in IH. simpl. f_equal.
  induction subs as [|c rest IHr]; simpl; [reflexivity|].
  rewrite !map_app, IHr.
  - f_equal. destruct (sF c); [reflexivity|]. apply IH. left. reflexivity.
  - intros c0 Hc0. apply IH. right. exact Hc0.
Qed.

Lemma filterSuite_focusedOnly : forall suiteFilter testFilter suite,
    focusedOnly suiteFilter testFilter (filterSuite suiteFilter testFilter suite) = true.
Proof.
  intros sF tF. induction suite as [nd subs ts es IH] using Suite_tree_ind.
  rewrite Forall_forall in IH. cbn [filterSuite focusedOnly].
  apply andb_true_iff. split.
  - apply forallb_forall. intros t Ht. apply filter_In in Ht. apply Ht.
  - apply forallb_forall. intros c' Hc'. apply in_map_iff in Hc'.
    destruct Hc' as (c & <- & Hc). destruct (sF c) eqn:Es.
    + rewrite Es. reflexivity.
    + rewrite (IH c Hc). apply orb_true_r.
Qed.

(** X13. Plain filtering removes tests only: the suites of the tree are the
    same after it, also those left without a test; a suite that passes the
    suite filter is kept as it is, and elsewhere the tests that remain pass the
    test filter. *)
Theorem plain_filter_keeps_suites : forall suiteFilter testFilter suite,
    map node (allSuites (filterSuite suiteFilter testFilter suite))
    = map node (allSuites suite)
    /\ focusedOnly suiteFilter testFilter (filterSuite suiteFilter testFilter suite) = true
    /\ forall c, In c (suites suite) -> suiteFilter c = true ->
                 In c (suites (filterSuite suiteFilter testFilter suite)).
Proof.
  intros sF tF suite. split; [apply filterSuite_nodes|].
  split; [apply filterSuite_focusedOnly|].
  intros c Hc Hpass. destruct suite as [nd subs ts es]. simpl in *.
  apply in_map_iff. exists c. split; [rewrite Hpass; reflexivity | exact Hc].
Qed.

(** ** Further properties of the shard filter *)

Local Open Scope Z_scope.

Lemma retainStage_always : forall from to stageGroups seen,
    filter isAlwaysGroup (retainStage from to seen stageGroups)
    = filter isAlwaysGroup stageGroups.
Proof.
  intros from to. induction stageGroups as [|g rest IH]; intro seen; simpl; [reflexivity|].
  rewrite filter_app, IH. unfold retained, isAlwaysGroup at 1 3.
  destruct (isAlways (group_run g)) eqn:Ea; simpl.
  - unfold isAlwaysGroup. rewrite Ea. reflexivity.
  - destruct (_ && _); simpl; [unfold isAlwaysGroup; rewrite Ea|]; reflexivity.
Qed.

Lemma retainStage_Subseq : forall from to stageGroups seen,
    Subseq (retainStage from to seen stageGroups) stageGroups.
Proof.
  intros from to. induction stageGroups as [|g rest IH]; intro seen; simpl; [constructor|].
  destruct (retained from to seen g); simpl; constructor; apply IH.
Qed.

Lemma Subseq_app : forall (A : Type) (l1 l1' l2 l2' : list A),
    Subseq l1 l1' -> Subseq l2 l2' -> Subseq (l1 ++ l2) (l1' ++ l2').
Proof.
  intros A l1 l1' l2 l2' H1 H2. induction H1; simpl; [exact H2 | |]; constructor; exact IHSubseq.
Qed.

Lemma retainStages_always : forall from to stages seen,
    filter isAlwaysGroup (concat (retainStages from to seen stages))
    = filter isAlwaysGroup (concat stages).
Proof.
  intros from to. induction stages as [|st rest IH]; intro seen; simpl; [reflexivity|].
  rewrite !filter_app, IH, retainStage_always. reflexivity.
Qed.

Lemma retainStages_Subseq : forall from to stages seen,
    Subseq (concat (retainStages from to seen stages)) (concat stages).
Proof.
  intros from to. induction stages as [|st rest IH]; intro seen; simpl; [constructor|].
  apply Subseq_app; [apply retainStage_Subseq | apply IH].
Qed.

(** The result of the shard filter for any shard configuration, also one
    whose total is zero. *)
Lemma filterForCurrentShard_shape : forall shard rootSuite stages rootSuite' stages',
    _filterForCurrentShard (Some shard) rootSuite stages = Some (rootSuite', stages') ->
    exists from to,
      stages' = filter nonEmpty (retainStages from to [] stages)
      /\ rootSuite' =
         snd (filterSuiteWithOnlySemantics
                (fun _ => false) (hasTest (flat_map tests (concat stages'))) rootSuite).
Proof.
  intros shard rootSuite stages rootSuite' stages' Hrun.
  destruct (Z.eqb_spec (total shard) 0) as [Hzero|Hpos].
  - unfold _filterForCurrentShard in Hrun.
    destruct (shardableTotalLoop 0 (suites rootSuite)) as [n0|]; [|discriminate].
    exists 0, 0.
    rewrite (@shardStages_spec (startsInShard n0 shard) 0 0) with (seen := []) in Hrun.
    + simpl in Hrun. injection Hrun as <- <-. split; [reflexivity|].
      rewrite flat_map_filter_nonEmpty. reflexivity.
    + intro c. unfold startsInShard. rewrite Hzero. simpl.
      destruct (Z.leb_spec 0 c); destruct (Z.ltb_spec c 0); try reflexivity; lia.
    + reflexivity.
  - eexists. eexists. apply filterForCurrentShard_result; eassumption.
Qed.

(** X14. Whatever the shard, the filter keeps every group that runs always,
    keeps the groups it keeps in their order, and leaves no stage without a
    group. *)
Theorem shard_filter_keeps_always_groups :
  forall shard rootSuite stages rootSuite' stages',
    _filterForCurrentShard (Some shard) rootSuite stages = Some (rootSuite', stages') ->
    filter isAlwaysGroup (concat stages') = filter isAlwaysGroup (concat stages)
    /\ Subseq (concat stages') (concat stages)
    /\ Forall (fun stageGroups => stageGroups <> []) stages'.
Proof.
  intros shard rootSuite stages rootSuite' stages' Hrun.
  destruct (filterForCurrentShard_shape _ _ _ Hrun) as (from & to & -> & _).
  rewrite flat_map_filter_nonEmpty. split; [apply retainStages_always|].
  split; [apply retainStages_Subseq|].
  apply Forall_forall. intros st Hst. apply filter_In in Hst.
  destruct Hst as (_ & Hne). destruct st; [discriminate Hne | discriminate].
Qed.

Lemma shard_filter_keeps_always_groups_witness :
  exists rootSuite' stages',
    _filterForCurrentShard (Some (mkShard 3 3)) exTenRoot (exTenStages ++ [exLateStage])
    = Some (rootSuite', stages')
    /\ filter isAlwaysGroup (concat stages') = filter isAlwaysGroup exLateStage.
Proof.
  destruct (_filterForCurrentShard (Some (mkShard 3 3)) exTenRoot
                                   (exTenStages ++ [exLateStage]))
    as [[rootSuite' stages']|] eqn:Erun; [|vm_compute in Erun; discriminate Erun].
  exists rootSuite', stages'. split; [reflexivity|].
  rewrite (proj1 (@shard_filter_keeps_always_groups _ _ _ _ _ Erun)).
  reflexivity.
Defined.

(** X15. The ranges of the shards tile the shardable tests: the range of
    the first shard starts at 0, each range ends where the next one starts,
    the last one ends at the number of shardable tests, every range holds
    [shardSize] or [shardSize + 1] tests, and an earlier shard never has a
    smaller range than a later one. *)
Theorem shard_ranges_tile : forall n tot,
    0 < tot -> 0 <= n ->
    fromOf n (mkShard 1 tot) = 0
    /\ (forall k, toOf n (mkShard k tot) = fromOf n (mkShard (k + 1) tot))
    /\ toOf n (mkShard tot tot) = n
    /\ (forall k, 1 <= k <= tot ->
          n / tot <= shardWidth n (mkShard k tot) <= n / tot + 1)
    /\ (forall k1 k2, 1 <= k1 <= k2 ->
          shardWidth n (mkShard k2 tot) <= shardWidth n (mkShard k1 tot)).
Proof.
  intros n tot Htot Hn.
  split; [apply fromOf_first; assumption|].
  split; [intro k; apply toOf_next|].
  split; [rewrite toOf_next; apply fromOf_last; assumption|].
  assert (Hw : forall k, shardWidth n (mkShard k tot)
                         = n / tot + (if k - 1 <? n - n / tot * tot then 1 else 0)).
  { intro k. unfold shardWidth. rewrite (shard_width n tot k). reflexivity. }
  split.
  - intros k _. rewrite Hw. destruct (k - 1 <? _); lia.
  - intros k1 k2 Hk. rewrite !Hw.
    destruct (Z.ltb_spec (k1 - 1) (n - n / tot * tot));
      destruct (Z.ltb_spec (k2 - 1) (n - n / tot * tot)); lia.
Qed.

Lemma shard_ranges_tile_witness :
  map (fun k => (fromOf 10 (mkShard k 3), toOf 10 (mkShard k 3))) [1; 2; 3]
  = [(0, 4); (4, 7); (7, 10)]
  /\ toOf 10 (mkShard 3 3) = 10.
Proof.
  split; [reflexivity|].
  exact (proj1 (proj2 (proj2 (@shard_ranges_tile 10 3 ltac:(lia) ltac:(lia))))).
Defined.

Local Close Scope Z_scope.

(** X16. The shard filter prunes the suite tree to the tests of the groups
    it keeps, when it keeps any test of the tree: every test left in the tree
    is then a test of a kept group.  When no test of the tree is in a kept
    group (a shard without tests), the tree is left as it was, with all its
    tests. *)
Theorem shard_filter_prunes_tree :
  forall shard rootSuite stages rootSuite' stages',
    _filterForCurrentShard (Some shard) rootSuite stages = Some (rootSuite', stages') ->
    let kept := flat_map tests (concat stages') in
    ((exists t, In t (treeTests rootSuite) /\ hasTest kept t = true) ->
     forall t, In t (treeTests rootSuite') -> hasTest kept t = true)
    /\ ((forall t, In t (treeTests rootSuite) -> hasTest kept t = false) ->
        rootSuite' = rootSuite).
Proof.
  intros shard rootSuite stages rootSuite' stages' Hrun kept.
  destruct (filterForCurrentShard_shape _ _ _ Hrun) as (from & to & _ & Hroot).
  fold kept in Hroot.
  destruct (filterSuiteWithOnlySemantics_result (fun _ => false) (hasTest kept) rootSuite)
    as (Hiff & Hsame).
  split.
  - intros Hsome.
    assert (Htrue : fst (filterSuiteWithOnlySemantics (fun _ => false) (hasTest kept)
                                                      rootSuite) = true).
    { apply Hiff. left. exact Hsome. }
    pose proof (filterSuiteWithOnlySemantics_focusedOnly _ _ _ Htrue) as Hclean.
    rewrite <- Hroot in Hclean. clear - Hclean.
    revert Hclean. induction rootSuite' as [nd subs ts es IH] using Suite_tree_ind.
    rewrite Forall_forall in IH. cbn [focusedOnly]. intros Hclean t Ht.
    apply andb_true_iff in Hclean. destruct Hclean as (Hts & Hsubs).
    rewrite forallb_forall in Hts, Hsubs.
    simpl in Ht. apply in_app_or in Ht. destruct Ht as [Ht|Ht]; [apply Hts; exact Ht|].
    apply in_flat_map in Ht. destruct Ht as (c & Hc & Ht).
    exact (IH c Hc (Hsubs c Hc) t Ht).
  - intros Hnone. rewrite Hroot. apply Hsame.
    apply not_true_is_false. intro Ef.
    apply Hiff in Ef. destruct Ef as [(t & Ht & Hpass) | (c & _ & Hfalse)].
    + rewrite (Hnone t Ht) in Hpass. discriminate.
    + discriminate Hfalse.
Qed.

(** Four shards for the two tests of one group: the first shard keeps the
    group; the fourth keeps no group and leaves the tree with its two tests. *)
Lemma shard_filter_prunes_tree_witness :
  exists rootSuite' stages',
    _filterForCurrentShard (Some (mkShard 4 4)) exPairRoot exPairStages
    = Some (rootSuite', stages')
    /\ stages' = []
    /\ rootSuite' = exPairRoot.
Proof.
  destruct (_filterForCurrentShard (Some (mkShard 4 4)) exPairRoot exPairStages)
    as [[rootSuite' stages']|] eqn:Erun; [|vm_compute in Erun; discriminate Erun].
  exists rootSuite', stages'. split; [reflexivity|].
  assert (Hst : stages' = []) by (vm_compute in Erun; injection Erun as _ <-; reflexivity).
  split; [exact Hst|].
  apply (proj2 (@shard_filter_prunes_tree _ _ _ _ _ Erun)).
  intros t _. rewrite Hst. reflexivity.
Defined.

(** ** Further properties of the dispatch loop *)

Section DispatchLoopFacts.
Variable testOk : TestCase -> list TestStatus -> bool.
Variable freshStatus : TestStatus.
Variable dispatch : list TestGroup -> DispatchOutcome.

Lemma runAlwaysGroups_alwaysOnly : forall stageGroups,
    alwaysOnly (runAlwaysGroups stageGroups).
Proof.
  intro stageGroups. unfold alwaysOnly, runAlwaysGroups. apply Forall_forall.
  intros g Hg. apply filter_In in Hg. destruct Hg as (_ & Hg).
  destruct (group_run g); [discriminate | reflexivity].
Qed.

(** What one iteration adds to the world: some events, and at most one
    dispatcher, constructed for a list of groups that is not empty. *)
Lemma runStage_adds : forall w previousStageFailed sigint stageGroups,
    let stageEnd :=
      runStage testOk freshStatus dispatch w previousStageFailed sigint stageGroups in
    exists newEvents newDispatched,
      events (worldOf stageEnd) = events w ++ newEvents
      /\ dispatched (worldOf stageEnd) = dispatched w ++ newDispatched
      /\ (newDispatched = []
          \/ exists testGroups,
               newDispatched = [(testGroups, dispatch testGroups)]
               /\ testGroups <> []
               /\ (previousStageFailed = true -> alwaysOnly testGroups))
      /\ (forall w' failed' sigint',
             stageEnd = Continue w' failed' sigint' ->
             Forall (fun d => quietOutcome (snd d)) newDispatched
             /\ (previousStageFailed = true -> failed' = true)).
Proof.
  intros w pf sigint stageGroups stageEnd. unfold stageEnd, runStage.
  assert (Hskip : exists w1 groups,
             (if pf then _skipTestsNotMarkedAsRunAlways freshStatus w stageGroups
              else (w, stageGroups)) = (w1, groups)
             /\ (exists ev, events w1 = events w ++ ev)
             /\ dispatched w1 = dispatched w
             /\ (pf = true -> alwaysOnly groups)).
  { destruct pf.
    - destruct (skipTestsNotMarkedAsRunAlways_effect freshStatus stageGroups w)
        as (Hk & He & Hd & _).
      destruct (_skipTestsNotMarkedAsRunAlways freshStatus w stageGroups) as [w1 groups].
      simpl in *. exists w1, groups. split; [reflexivity|].
      split; [eexists; exact He|]. split; [exact Hd|].
      intros _. rewrite Hk. apply runAlwaysGroups_alwaysOnly.
    - exists w, stageGroups. split; [reflexivity|].
      split; [exists []; rewrite app_nil_r; reflexivity|]. split; [reflexivity|].
      discriminate. }
  destruct Hskip as (w1 & groups & -> & (ev & He) & Hd & Halways).
  destruct groups as [|g rest]; cbn [isEmpty].
  - exists ev, []. simpl. rewrite app_nil_r. split; [exact He|]. split; [exact Hd|].
    split; [left; reflexivity|].
    intros w' failed' sigint' Heq. injection Heq as _ <- _.
    split; [constructor | intro H; exact H].
  - destruct (runDispatcher_effect dispatch w1 (g :: rest)) as (He2 & Hd2).
    exists (ev ++ reported (dispatch (g :: rest))), [(g :: rest, dispatch (g :: rest))].
    assert (Hw : forall e,
               e = match thrown (dispatch (g :: rest)) with
                   | Some err => Throw (runDispatcher dispatch w1 (g :: rest)) err
                   | None =>
                       if hasWorkerErrors (dispatch (g :: rest))
                       then Break (runDispatcher dispatch w1 (g :: rest))
                                  (Some (hadSignal (dispatch (g :: rest)))) true
                       else if hadSignal (dispatch (g :: rest))
                            then Break (runDispatcher dispatch w1 (g :: rest)) (Some true) false
                            else Continue (runDispatcher dispatch w1 (g :: rest))
                                   (pf || stageHasFailure testOk
                                            (runDispatcher dispatch w1 (g :: rest)) (g :: rest))
                                   (Some false)
                   end ->
               worldOf e = runDispatcher dispatch w1 (g :: rest)).
    { intros e ->. destruct (thrown _); [reflexivity|].
      destruct (hasWorkerErrors _); [reflexivity|].
      destruct (hadSignal _); reflexivity. }
    rewrite (Hw _ eq_refl), He2, Hd2, He, Hd, <- app_assoc.
    split; [reflexivity|]. split; [reflexivity|]. split.
    + right. exists (g :: rest). split; [reflexivity|]. split; [discriminate | exact Halways].
    + intros w' failed' sigint' Heq.
      destruct (thrown (dispatch (g :: rest))) eqn:Et; [discriminate|].
      destruct (hasWorkerErrors (dispatch (g :: rest))) eqn:Ew; [discriminate|].
      destruct (hadSignal (dispatch (g :: rest))) eqn:Eh; [discriminate|].
      injection Heq as _ <- _. split.
      * constructor; [|constructor]. simpl. repeat split; assumption.
      * intros ->. reflexivity.
Qed.

Lemma stageLoop_adds : forall stages w previousStageFailed sigint,
    let w' := loopWorld (stageLoop testOk freshStatus dispatch w previousStageFailed
                                   sigint stages) in
    exists newEvents newDispatched,
      events w' = events w ++ newEvents
      /\ dispatched w' = dispatched w ++ newDispatched
      /\ Forall (fun d => fst d <> [] /\ snd d = dispatch (fst d)) newDispatched
      /\ length newDispatched <= length stages
      /\ Forall (fun d => quietOutcome (snd d)) (removelast newDispatched)
      /\ (previousStageFailed = true ->
          Forall (fun d => alwaysOnly (fst d)) newDispatched).
Proof.
  induction stages as [|stageGroups rest IH]; intros w pf sigint; simpl.
  - exists [], []. rewrite !app_nil_r.
    repeat split; try solve [constructor | intros _; constructor].
  - destruct (runStage_adds w pf sigint stageGroups) as (ev & nd & He & Hd & Hnd & Hcont).
    destruct (runStage testOk freshStatus dispatch w pf sigint stageGroups)
      as [w1 failed1 sigint1 | w1 sigint1 we | w1 e] eqn:Erun; simpl in He, Hd.
    + destruct (Hcont w1 failed1 sigint1 eq_refl) as (Hquiet & Hflag).
      destruct (IH w1 failed1 sigint1) as (ev2 & nd2 & He2 & Hd2 & Hne2 & Hlen2 & Hq2 & Ha2).
      exists (ev ++ ev2), (nd ++ nd2).
      rewrite He2, Hd2, He, Hd, <- !app_assoc.
      split; [reflexivity|]. split; [reflexivity|].
      assert (Hshape : nd = [] \/ exists testGroups,
                 nd = [(testGroups, dispatch testGroups)] /\ testGroups <> []
                 /\ (pf = true -> alwaysOnly testGroups)) by exact Hnd.
      split; [|split; [|split]].
      * apply Forall_app. split; [|exact Hne2].
        destruct Hshape as [->|(tg & -> & Hne & _)]; constructor; [|constructor].
        simpl. split; [exact Hne | reflexivity].
      * rewrite length_app.
        destruct Hshape as [->|(tg & -> & _)]; simpl; lia.
      * destruct nd2 as [|d2 nd2'].
        -- rewrite app_nil_r. apply Forall_removelast. exact Hquiet.
        -- rewrite removelast_app by discriminate. apply Forall_app.
           split; [exact Hquiet | exact Hq2].
      * intros Hpf. apply Forall_app. split.
        -- destruct Hshape as [->|(tg & -> & _ & Hal)]; constructor; [|constructor].
           simpl. apply Hal. exact Hpf.
        -- apply Ha2. apply Hflag. exact Hpf.
    + exists ev, nd. split; [exact He|]. split; [exact Hd|].
      destruct Hnd as [->|(tg & -> & Hne & Hal)]; simpl.
      * repeat split; try solve [constructor | intros _; constructor | lia].
      * repeat split;
          try solve [constructor | lia | exact Hne
                    | intros Hpf; constructor; [apply Hal; exact Hpf | constructor]].
        constructor; [|constructor]. simpl. split; [exact Hne | reflexivity].
    + exists ev, nd. split; [exact He|]. split; [exact Hd|].
      destruct Hnd as [->|(tg & -> & Hne & Hal)]; simpl.
      * repeat split; try solve [constructor | intros _; constructor | lia].
      * repeat split;
          try solve [constructor | lia | exact Hne
                    | intros Hpf; constructor; [apply Hal; exact Hpf | constructor]].
        constructor; [|constructor]. simpl. split; [exact Hne | reflexivity].
Qed.
End DispatchLoopFacts.

(** X17. Once a stage has had a failing test and the loop goes on, only
    groups that run always reach a dispatcher: every dispatcher constructed
    for a later stage is constructed for groups that run always. *)
Theorem after_failure_only_always_groups_run :
  forall testOk freshStatus dispatch w previousStageFailed sigint
         stageGroups w1 failed1 sigint1 laterStages,
    runStage testOk freshStatus dispatch w previousStageFailed sigint stageGroups
    = Continue w1 failed1 sigint1 ->
    previousStageFailed = true \/ stageHasFailure testOk w1 stageGroups = true ->
    exists later,
      dispatched (loopWorld (stageLoop testOk freshStatus dispatch w1 failed1 sigint1
                                       laterStages))
      = dispatched w1 ++ later
      /\ Forall (fun d => alwaysOnly (fst d)) later.
Proof.
  intros testOk freshStatus dispatch w pf sigint stageGroups w1 failed1 sigint1 laterStages
         Hrun Hfail.
  assert (Hflag : failed1 = true) by (eapply runStage_sets_flag; eassumption).
  destruct (stageLoop_adds testOk freshStatus dispatch laterStages w1 failed1 sigint1)
    as (_ & nd & _ & Hd & _ & _ & _ & Hal).
  exists nd. split; [exact Hd | exact (Hal Hflag)].
Qed.

Lemma after_failure_only_always_groups_run_witness :
  map fst (dispatched (loopWorld (stageLoop exTestOk TSskipped (exDispatch false)
                                            exAfterFirst true (Some false)
                                            [exLateStage; exFirstStage])))
  = [exFirstStage; runAlwaysGroups exLateStage]
  /\ exists later,
      dispatched (loopWorld (stageLoop exTestOk TSskipped (exDispatch false)
                                       exAfterFirst true (Some false)
                                       [exLateStage; exFirstStage]))
      = dispatched exAfterFirst ++ later
      /\ Forall (fun d => alwaysOnly (fst d)) later.
Proof.
  split; [vm_compute; reflexivity|].
  apply (@after_failure_only_always_groups_run exTestOk TSskipped (exDispatch false)
           (mkWorld [] [] []) false None exFirstStage exAfterFirst true (Some false)
           [exLateStage; exFirstStage] eq_refl (or_intror eq_refl)).
Defined.

(** X18. The stage loop constructs at most one dispatcher per stage, never
    for an empty list of groups, and none after a dispatcher that reported
    worker errors, saw the interrupt signal or threw: such a dispatcher is the
    last one. *)
Theorem no_dispatcher_after_errors_or_interrupt :
  forall testOk freshStatus dispatch stages,
    let w := loopWorld (stageLoop testOk freshStatus dispatch (mkWorld [] [] [])
                                  false None stages) in
    length (dispatched w) <= length stages
    /\ Forall (fun d => fst d <> [] /\ snd d = dispatch (fst d)) (dispatched w)
    /\ Forall (fun d => quietOutcome (snd d)) (removelast (dispatched w)).
Proof.
  intros testOk freshStatus dispatch stages w.
  destruct (stageLoop_adds testOk freshStatus dispatch stages (mkWorld [] [] []) false None)
    as (_ & nd & _ & Hd & Hne & Hlen & Hq & _).
  simpl in Hd. fold w in Hd. rewrite Hd. repeat split; assumption.
Qed.

Section RunFacts.
Variable testOk : TestCase -> list TestStatus -> bool.
Variable freshStatus : TestStatus.
Variable dispatch : list TestGroup -> DispatchOutcome.

Lemma reportErrors_effect : forall errors w,
    let w' := fold_left (fun w' e => report w' (OnError e)) errors w in
    events w' = events w ++ map OnError errors
    /\ results w' = results w
    /\ dispatched w' = dispatched w.
Proof.
  induction errors as [|e rest IH]; intro w; simpl.
  - rewrite app_nil_r. repeat split.
  - destruct (IH (report w (OnError e))) as (He & Hr & Hd). rewrite He, Hr, Hd.
    simpl. rewrite <- app_assoc. repeat split.
Qed.

Lemma tearDown_effect : forall env w status,
    events (fst (tearDown env w status)) = events w ++ map OnError (teardownErrors env)
    /\ results (fst (tearDown env w status)) = results w
    /\ dispatched (fst (tearDown env w status)) = dispatched w
    /\ snd (tearDown env w status) <> timedout
       \/ status = timedout.
Proof.
  intros env w status. unfold tearDown. cbn [fst snd].
  destruct (reportErrors_effect (teardownErrors env) w) as (He & Hr & Hd).
  destruct status; try (right; reflexivity); left;
    (split; [exact He|]; split; [exact Hr|]; split; [exact Hd|];
     destruct (isEmpty (teardownErrors env)); discriminate).
Qed.

Lemma tearDown_status : forall env w status,
    teardownErrors env <> [] -> snd (tearDown env w status) = failed.
Proof.
  intros env w status Hne. unfold tearDown. cbn [snd].
  destruct (teardownErrors env); [congruence | reflexivity].
Qed.

(** The shape of a run that gets as far as the report of the beginning. *)
Lemma run_shape : forall env rootSuite stages w0,
    let w := fst (_run testOk freshStatus dispatch env rootSuite stages w0) in
    let status := snd (_run testOk freshStatus dispatch env rootSuite stages w0) in
    (exists later, events w = events w0 ++ OnBegin :: later)
    /\ status <> timedout
    /\ (fatalErrors env = [] -> listOnly env = false -> outputDirsError env = None ->
        (exists before, events w = before ++ map OnError (teardownErrors env))
        /\ (setupSignal env = false -> teardownErrors env <> [] -> status = failed))
    /\ (fatalErrors env <> [] \/ listOnly env = true
        \/ setupError env <> None \/ setupSignal env = true ->
        dispatched w = dispatched w0 /\ results w = results w0).
Proof.
  intros env rootSuite stages w0. unfold _run.
  destruct (fatalErrors env) as [|fatal fatals] eqn:Efatal; cbn [isEmpty negb].
  2:{ destruct (reportErrors_effect (fatal :: fatals) (report w0 OnBegin)) as (He & Hr & Hd).
      cbn [fst snd]. rewrite He, Hr, Hd. simpl. rewrite <- app_assoc. simpl.
      split; [eexists; reflexivity|]. split; [discriminate|].
      split; [intro H; discriminate H|]. intros _. split; reflexivity. }
  destruct (listOnly env) eqn:Elist.
  { cbn [fst snd]. simpl. split; [exists []; reflexivity|]. split; [discriminate|].
    split; [intros _ H; discriminate H|]. intros _. split; reflexivity. }
  unfold _performGlobalSetup.
  destruct (setupError env) as [setupErr|] eqn:Esetup.
  { cbn [FullStatus_eqb negb orb].
    destruct (tearDown_effect env (report (report w0 OnBegin) (OnError setupErr)) failed)
      as [(He & Hr & Hd & _)|H]; [|discriminate H].
    destruct (tearDown env (report (report w0 OnBegin) (OnError setupErr)) failed)
      as [w2 st2]. cbn [fst snd] in *.
    assert (Hst : FullStatus_eqb (if setupSignal env then interrupted else failed) passed
                  = false) by (destruct (setupSignal env); reflexivity).
    rewrite Hst. cbn [negb fst snd]. rewrite He, Hr, Hd. simpl.
    rewrite <- !app_assoc. simpl.
    split; [eexists; reflexivity|].
    split; [destruct (setupSignal env); discriminate|].
    split.
    - intros _ _ _. split.
      + exists (events w0 ++ [OnBegin; OnError setupErr]). rewrite <- app_assoc. reflexivity.
      + intros -> _. reflexivity.
    - intros _. split; reflexivity. }
  cbn [FullStatus_eqb negb orb].
  destruct (setupSignal env) eqn:Esignal.
  { destruct (tearDown_effect env (report w0 OnBegin) passed)
      as [(He & Hr & Hd & _)|H]; [|discriminate H].
    destruct (tearDown env (report w0 OnBegin) passed) as [w2 st2]. cbn [fst snd] in *.
    cbn [FullStatus_eqb negb fst snd]. rewrite He, Hr, Hd. simpl.
    rewrite <- !app_assoc. simpl.
    split; [eexists; reflexivity|]. split; [discriminate|].
    split.
    - intros _ _ _. split.
      + exists (events w0 ++ [OnBegin]). rewrite <- app_assoc. reflexivity.
      + intro H; discriminate H.
    - intros _. split; reflexivity. }
  cbn [FullStatus_eqb negb].
  set (w2 := if ignoreSnapshots env
             then report (report w0 OnBegin) (OnStdOut ignoreSnapshotsNote)
             else report w0 OnBegin).
  assert (Hw2 : exists note, events w2 = events w0 ++ OnBegin :: note).
  { unfold w2. destruct (ignoreSnapshots env); simpl.
    - exists [OnStdOut ignoreSnapshotsNote]. rewrite <- app_assoc. reflexivity.
    - exists []. reflexivity. }
  destruct Hw2 as (note & Hw2).
  destruct (stageLoop_adds testOk freshStatus dispatch stages w2 false None)
    as (ev & _ & He & _).
  destruct (stageLoop testOk freshStatus dispatch w2 false None stages)
    as [w3 sigint workerErrors | w3 e]; simpl in He.
  - match goal with
    | |- context [tearDown env w3 ?s] =>
        destruct (tearDown_effect env w3 s) as [(Ht & _ & _ & Hst)|Hst];
        [pose proof (tearDown_status env w3 s) as Hfail
        |exfalso; revert Hst;
         destruct (match sigint with Some true => true | _ => false end);
         [discriminate|];
         destruct (workerErrors
                   || existsb (fun test => negb (ok testOk w3 test)) (allTests rootSuite));
         discriminate]
    end.
    split; [|split; [|split]].
    + rewrite Ht, He, Hw2, <- !app_assoc. simpl. eexists. reflexivity.
    + exact Hst.
    + intros _ _ _. split; [eexists; exact Ht|]. intros _ Hne. apply Hfail. exact Hne.
    + intros [H|[H|[H|H]]]; solve [contradiction (H eq_refl) | discriminate H].
  - destruct (tearDown_effect env (report w3 (OnError e)) passed)
      as [(Ht & _)|H]; [|discriminate H].
    destruct (tearDown env (report w3 (OnError e)) passed) as [w4 st4]. cbn [fst snd] in *.
    split; [|split; [|split]].
    + rewrite Ht. simpl. rewrite He, Hw2, <- !app_assoc. simpl. eexists. reflexivity.
    + discriminate.
    + intros _ _ _. split; [eexists; exact Ht|]. intros _ _. reflexivity.
    + intros [H|[H|[H|H]]]; solve [contradiction (H eq_refl) | discriminate H].
Qed.
End RunFacts.

(** X19. Once the run is past the removal of the output directories, the
    global teardown is never left out: whether the set-up fails, the loop over
    the stages ends or an exception escapes it, the errors of the teardown are
    the last calls [_run] makes to the reporter.  Unless the set-up was
    interrupted, an error of the teardown makes the run [failed], also when the
    stages were interrupted. *)
Theorem teardown_always_runs :
  forall testOk freshStatus dispatch env rootSuite stages w0,
    fatalErrors env = [] ->
    listOnly env = false ->
    outputDirsError env = None ->
    (exists before,
        events (fst (_run testOk freshStatus dispatch env rootSuite stages w0))
        = before ++ map OnError (teardownErrors env))
    /\ (setupSignal env = false -> teardownErrors env <> [] ->
        snd (_run testOk freshStatus dispatch env rootSuite stages w0) = failed).
Proof.
  intros testOk freshStatus dispatch env rootSuite stages w0 Hfatal Hlist Hdirs.
  destruct (run_shape testOk freshStatus dispatch env rootSuite stages w0)
    as (_ & _ & H & _).
  exact (H Hfatal Hlist Hdirs).
Qed.

Lemma teardown_always_runs_witness :
  (exists before,
      events (fst (_run exTestOk TSskipped (exDispatch false) exTeardownEnv exProjectSuite
                        exTwoStages (mkWorld [] [] [])))
      = before ++ map OnError (teardownErrors exTeardownEnv))
  /\ (setupSignal exTeardownEnv = false -> teardownErrors exTeardownEnv <> [] ->
      snd (_run exTestOk TSskipped (exDispatch false) exTeardownEnv exProjectSuite
                exTwoStages (mkWorld [] [] [])) = failed).
Proof.
  apply (@teardown_always_runs exTestOk TSskipped (exDispatch false) exTeardownEnv
           exProjectSuite exTwoStages (mkWorld [] [] []) eq_refl eq_refl eq_refl).
Defined.

(** X20. [runAllTests] reports [onEnd], with the result that it returns,
    and later [_onExit].  The result is [timedout] exactly when the global
    timeout elapsed, and then the time-out error is the call just before
    [onEnd].  When the run returns in time and no removal of the output
    directories fails, the calls begin with [onBegin] and end with [onEnd],
    [_onExit].  (After a timeout the run is not cancelled: its calls may fall
    between these and after them.) *)
Theorem runAllTests_reports_begin_and_end :
  forall testOk freshStatus dispatch env deadline overlap rootSuite stages,
    let w :=
      fst (runAllTests testOk freshStatus dispatch env deadline overlap rootSuite
                       stages) in
    let fullResult :=
      snd (runAllTests testOk freshStatus dispatch env deadline overlap rootSuite
                       stages) in
    (fullResult = timedout <-> deadline <> None)
    /\ (exists before between after,
           events w = before ++ OnEnd fullResult :: between ++ OnExit :: after
           /\ (deadline <> None ->
               exists earlier, before = earlier ++ [OnError (timeoutMessage env)]))
    /\ (deadline = None -> outputDirsError env = None ->
        exists rest, events w = OnBegin :: rest ++ [OnEnd fullResult; OnExit]).
Proof.
  intros testOk freshStatus dispatch env deadline overlap rootSuite stages.
  unfold runAllTests.
  destruct (run_shape testOk freshStatus dispatch env rootSuite stages (mkWorld [] [] []))
    as ((later & Hbegin) & Hstatus & _).
  destruct (_run testOk freshStatus dispatch env rootSuite stages (mkWorld [] [] []))
    as [w status]. cbn [fst snd] in Hbegin, Hstatus.
  destruct (reporterCalls env (events w)) as [calls returned] eqn:Ecalls.
  destruct deadline as [k|]; cbn [fst snd events].
  - split; [split; [intros _; discriminate | reflexivity]|]. split.
    + exists (firstn (Nat.min k returned) calls ++ [OnError (timeoutMessage env)]),
        (firstn (beforeExit overlap) (skipn (Nat.min k returned) calls)),
        (firstn (afterExit overlap)
                (skipn (beforeExit overlap) (skipn (Nat.min k returned) calls))).
      split; [rewrite <- !app_assoc; reflexivity|].
      intros _. eexists. reflexivity.
    + intro H. discriminate H.
  - split; [split; [intro H; contradiction (Hstatus H) | intro H; contradiction (H eq_refl)]|].
    split.
    + exists (firstn returned calls),
        (firstn (beforeExit overlap) (skipn returned calls)),
        (firstn (afterExit overlap) (skipn (beforeExit overlap) (skipn returned calls))).
      split; [reflexivity|]. intro H. contradiction (H eq_refl).
    + intros _ Hnone. unfold reporterCalls in Ecalls. rewrite Hnone in Ecalls.
      injection Ecalls as <- <-.
      rewrite firstn_all, skipn_all, skipn_nil, firstn_nil. simpl in Hbegin.
      rewrite Hbegin. exists later. rewrite firstn_nil. reflexivity.
Qed.

(** X21. No dispatcher is constructed and no test gets a result when the
    run stops early: with fatal errors, in list mode, or when the global
    set-up failed or was interrupted. *)
Theorem no_tests_run_when_run_stops_early :
  forall testOk freshStatus dispatch env rootSuite stages w0,
    fatalErrors env <> [] \/ listOnly env = true
    \/ setupError env <> None \/ setupSignal env = true ->
    dispatched (fst (_run testOk freshStatus dispatch env rootSuite stages w0))
    = dispatched w0
    /\ results (fst (_run testOk freshStatus dispatch env rootSuite stages w0))
       = results w0.
Proof.
  intros testOk freshStatus dispatch env rootSuite stages w0 Hearly.
  destruct (run_shape testOk freshStatus dispatch env rootSuite stages w0)
    as (_ & _ & _ & H).
  exact (H Hearly).
Qed.

Lemma no_tests_run_when_run_stops_early_witness :
  dispatched (fst (_run exTestOk TSskipped (exDispatch false) exInterruptedEnv
                        exProjectSuite exTwoStages (mkWorld [] [] [])))
  = []
  /\ results (fst (_run exTestOk TSskipped (exDispatch false) exInterruptedEnv
                        exProjectSuite exTwoStages (mkWorld [] [] [])))
     = [].
Proof.
  apply (@no_tests_run_when_run_stops_early exTestOk TSskipped (exDispatch false)
           exInterruptedEnv exProjectSuite exTwoStages (mkWorld [] [] [])).
  right. right. right. reflexivity.
Defined.

(** ** Further properties of the file collector *)

Lemma checkRule_included : forall entryPath isDir status rule,
    IgnoreStatus_eqb (checkRule entryPath isDir status rule) Included
    = if ruleMatches entryPath isDir rule then negate rule
      else IgnoreStatus_eqb status Included.
Proof.
  intros entryPath isDir status rule. unfold checkRule, ruleMatches. cbv zeta.
  destruct (rule_match rule ("/" ++ relativePath (rule_dir rule) entryPath)%string false);
    destruct (rule_match rule (relativePath (rule_dir rule) entryPath) false);
    destruct (rule_match rule
                ("/" ++ relativePath (rule_dir rule) entryPath ++ "/")%string false);
    destruct (rule_match rule (relativePath (rule_dir rule) entryPath ++ "/")%string false);
    destruct (rule_match rule ("/" ++ relativePath (rule_dir rule) entryPath)%string true);
    destruct (rule_match rule (relativePath (rule_dir rule) entryPath) true);
    destruct isDir; destruct (negate rule); destruct status; reflexivity.
Qed.

Lemma checkIgnores_included : forall entryPath isDir rules parentStatus,
    IgnoreStatus_eqb (checkIgnores entryPath rules isDir parentStatus) Included
    = match lastMatch entryPath isDir rules with
      | Some rule => negate rule
      | None => IgnoreStatus_eqb parentStatus Included
      end.
Proof.
  intros entryPath isDir rules parentStatus. unfold checkIgnores, lastMatch.
  induction rules as [|rule rest IH] using rev_ind; [reflexivity|].
  rewrite fold_left_app, rev_app_distr. simpl.
  rewrite checkRule_included.
  destruct (ruleMatches entryPath isDir rule); [reflexivity | exact IH].
Qed.

(** X22. Among the rules of the [.gitignore] files the last one that matches
    an entry decides whether the entry is included: it is included exactly
    when that rule is a negation, and, when no rule matches, exactly when its
    directory is included. *)
Theorem last_matching_rule_decides :
  forall entryPath isDir rules parentStatus,
    checkIgnores entryPath rules isDir parentStatus = Included
    <-> match lastMatch entryPath isDir rules with
        | Some rule => negate rule = true
        | None => parentStatus = Included
        end.
Proof.
  intros entryPath isDir rules parentStatus.
  pose proof (checkIgnores_included entryPath isDir rules parentStatus) as H.
  destruct (lastMatch entryPath isDir rules) as [rule|].
  - rewrite <- H. destruct (checkIgnores entryPath rules isDir parentStatus);
      simpl; split; intro E; try reflexivity; discriminate E.
  - destruct (checkIgnores entryPath rules isDir parentStatus);
      destruct parentStatus; simpl in H; split; intro E;
      try reflexivity; try discriminate E; discriminate H.
Qed.

Lemma FsNode_tree_ind (P : FsNode -> Prop) :
  (forall content, P (FsFile content)) ->
  P FsOther ->
  (forall entries, Forall (fun e => P (snd e)) entries -> P (FsDir entries)) ->
  forall n, P n.
Proof.
  intros Hfile Hother Hdir. fix IH 1. intros [content|entries|].
  - apply Hfile.
  - apply Hdir.
    induction entries as [|[name child] rest IHrest]; constructor;
      [apply IH | exact IHrest].
  - apply Hother.
Qed.

Lemma skippedEntry_false : forall name child,
    (String.eqb name "." || String.eqb name "..") = false ->
    (isFile child && String.eqb name ".gitignore") = false ->
    (isDirectory child && String.eqb name "node_modules") = false ->
    skippedEntry name child = false.
Proof.
  intros name child H1 H2 H3. unfold skippedEntry. rewrite H1, H2, H3. reflexivity.
Qed.

Lemma skippedEntry_split : forall name child,
    skippedEntry name child = false ->
    (String.eqb name "." || String.eqb name "..") = false
    /\ (isFile child && String.eqb name ".gitignore") = false
    /\ (isDirectory child && String.eqb name "node_modules") = false.
Proof.
  intros name child H. unfold skippedEntry in H.
  apply orb_false_iff in H. destruct H as (H & H3).
  apply orb_false_iff in H. destruct H as (H1 & H2). repeat split; assumption.
Qed.

Section VisitFacts.
Variable minimatch : string -> Minimatch.
Variable trimmedLines : string -> list string.

(** What [visit] appends: files below the directory; and all of them when the
    rules are not in use. *)
Lemma visit_appends : forall respectGitIgnore node dir rules status files,
    exists new,
      visit minimatch trimmedLines respectGitIgnore node dir rules status files
      = files ++ new
      /\ (forall p, In p new -> exists rel, p = dir ++ rel /\ fileBelow node rel)
      /\ (respectGitIgnore = false -> rules = [] -> status = Included ->
          forall rel, fileBelow node rel -> In (dir ++ rel) new).
Proof.
  intros respectGitIgnore node.
  induction node as [content| |entries IH] using FsNode_tree_ind;
    intros dir rules status files.
  - exists []. simpl. rewrite app_nil_r. split; [reflexivity|].
    split; [intros p []|]. intros _ _ _ rel H. inversion H.
  - exists []. simpl. rewrite app_nil_r. split; [reflexivity|].
    split; [intros p []|]. intros _ _ _ rel H. inversion H.
  - cbn [visit].
    set (rules' := if respectGitIgnore
                   then match gitignoreOf entries with
                        | Some content =>
                            rules ++ parseRules minimatch trimmedLines dir content
                        | None => rules
                        end
                   else rules).
    assert (Hrules : respectGitIgnore = false -> rules = [] -> rules' = []).
    { intros -> ->. reflexivity. }
    clearbody rules'.
    assert (Hloop : forall es, incl es entries -> forall files,
               exists new,
                 (fix each (es : list (string * FsNode)) (files : list Path) : list Path :=
                    match es with
                    | [] => files
                    | (name, child) :: rest =>
                        if String.eqb name "." || String.eqb name ".."
                        then each rest files
                        else if isFile child && String.eqb name ".gitignore"
                             then each rest files
                        else if isDirectory child && String.eqb name "node_modules"
                             then each rest files
                        else
                          let entryPath := dir ++ [name] in
                          let entryStatus :=
                            checkIgnores entryPath rules' (isDirectory child) status in
                          match child with
                          | FsDir _ =>
                              if negb (IgnoreStatus_eqb entryStatus Ignored)
                              then each rest
                                     (visit minimatch trimmedLines respectGitIgnore child
                                            entryPath rules' entryStatus files)
                              else each rest files
                          | FsFile _ =>
                              if IgnoreStatus_eqb entryStatus Included
                              then each rest (files ++ [entryPath])
                              else each rest files
                          | FsOther => each rest files
                          end
                    end) es files = files ++ new
                 /\ (forall p, In p new ->
                       exists rel, p = dir ++ rel /\ fileBelow (FsDir entries) rel)
                 /\ (respectGitIgnore = false -> rules = [] -> status = Included ->
                     forall name child,
                       In (name, child) es -> skippedEntry name child = false ->
                       (isFile child = true -> In (dir ++ [name]) new)
                       /\ (forall rest, isDirectory child = true -> fileBelow child rest ->
                           In (dir ++ name :: rest) new))).
    { induction es as [|[name child] es IHes]; intros Hincl files'.
      - exists []. rewrite app_nil_r. split; [reflexivity|].
        split; [intros p []|]. intros _ _ _ name child [].
      - assert (Hin : In (name, child) entries) by (apply Hincl; left; reflexivity).
        assert (Hincl' : incl es entries)
          by (intros e He; apply Hincl; right; exact He).
        assert (Hskip : forall (new : list Path),
                   skippedEntry name child = true
                   \/ isDirectory child = false /\ isFile child = false ->
                   (forall p, In p new ->
                      exists rel, p = dir ++ rel /\ fileBelow (FsDir entries) rel) ->
                   (respectGitIgnore = false -> rules = [] -> status = Included ->
                    forall name0 child0,
                      In (name0, child0) es -> skippedEntry name0 child0 = false ->
                      (isFile child0 = true -> In (dir ++ [name0]) new)
                      /\ (forall rest, isDirectory child0 = true -> fileBelow child0 rest ->
                          In (dir ++ name0 :: rest) new)) ->
                   (forall p, In p new ->
                      exists rel, p = dir ++ rel /\ fileBelow (FsDir entries) rel)
                   /\ (respectGitIgnore = false -> rules = [] -> status = Included ->
                       forall name0 child0,
                         In (name0, child0) ((name, child) :: es) ->
                         skippedEntry name0 child0 = false ->
                         (isFile child0 = true -> In (dir ++ [name0]) new)
                         /\ (forall rest, isDirectory child0 = true ->
                                          fileBelow child0 rest ->
                             In (dir ++ name0 :: rest) new))).
        { intros new Hno Hsound Hcomplete. split; [exact Hsound|].
          intros H1 H2 H3 name0 child0 [Heq|Hin0] Hs0.
          - injection Heq as <- <-. destruct Hno as [Hno|(Hd & Hf)].
            + rewrite Hno in Hs0. discriminate Hs0.
            + split; [intro H; rewrite H in Hf; discriminate Hf|].
              intros rest H; rewrite H in Hd; discriminate Hd.
          - exact (Hcomplete H1 H2 H3 name0 child0 Hin0 Hs0). }
        destruct (String.eqb name "." || String.eqb name "..") eqn:Edot.
        { destruct (IHes Hincl' files') as (new & Heq & Hsound & Hcomplete).
          exists new. split; [exact Heq|]. apply (Hskip new); try assumption.
          left. unfold skippedEntry. rewrite Edot. reflexivity. }
        destruct (isFile child && String.eqb name ".gitignore") eqn:Egit.
        { destruct (IHes Hincl' files') as (new & Heq & Hsound & Hcomplete).
          exists new. split; [exact Heq|]. apply (Hskip new); try assumption.
          left. unfold skippedEntry. rewrite Edot, Egit. reflexivity. }
        destruct (isDirectory child && String.eqb name "node_modules") eqn:Emod.
        { destruct (IHes Hincl' files') as (new & Heq & Hsound & Hcomplete).
          exists new. split; [exact Heq|]. apply (Hskip new); try assumption.
          left. unfold skippedEntry. rewrite Emod. apply orb_true_r. }
        assert (Hkept : skippedEntry name child = false)
          by (apply skippedEntry_false; assumption).
        cbv zeta.
        assert (Hstatus : respectGitIgnore = false -> rules = [] -> status = Included ->
                          checkIgnores (dir ++ [name]) rules' (isDirectory child) status
                          = Included).
        { intros H1 H2 H3. rewrite (Hrules H1 H2), H3. reflexivity. }
        destruct child as [content|sub|].
        + (* a file *)
          destruct (IgnoreStatus_eqb
                      (checkIgnores (dir ++ [name]) rules' (isDirectory (FsFile content))
                                    status) Included) eqn:Einc.
          * destruct (IHes Hincl' (files' ++ [dir ++ [name]]))
              as (new & Heq & Hsound & Hcomplete).
            exists ((dir ++ [name]) :: new). split; [|split].
            -- refine (eq_trans Heq _). rewrite <- app_assoc. reflexivity.
            -- intros p [<-|Hp]; [|exact (Hsound p Hp)].
               exists [name]. split; [reflexivity|].
               exact (@fileBelow_file entries name content Hin Hkept).
            -- intros H1 H2 H3 name0 child0 [Heq0|Hin0] Hs0.
               ++ injection Heq0 as <- <-. split.
                  ** intros _. left. reflexivity.
                  ** intros rest H. discriminate H.
               ++ destruct (Hcomplete H1 H2 H3 name0 child0 Hin0 Hs0) as (Hf & Hd).
                  split; [intro H; right; exact (Hf H)|].
                  intros rest Hdir Hbelow. right. exact (Hd rest Hdir Hbelow).
          * destruct (IHes Hincl' files') as (new & Heq & Hsound & Hcomplete).
            exists new. split; [exact Heq|]. split; [exact Hsound|].
            intros H1 H2 H3. rewrite (Hstatus H1 H2 H3) in Einc. discriminate Einc.
        + (* a directory *)
          pose proof (proj1 (Forall_forall _ _) IH (name, FsDir sub) Hin) as IHsub.
          cbn [snd] in IHsub.
          destruct (negb (IgnoreStatus_eqb
                            (checkIgnores (dir ++ [name]) rules'
                                          (isDirectory (FsDir sub)) status) Ignored))
            eqn:Erec.
          * destruct (IHsub (dir ++ [name]) rules'
                            (checkIgnores (dir ++ [name]) rules' (isDirectory (FsDir sub))
                                          status) files')
              as (new1 & Heq1 & Hsound1 & Hcomplete1).
            destruct (IHes Hincl' (files' ++ new1)) as (new2 & Heq2 & Hsound2 & Hcomplete2).
            exists (new1 ++ new2). split; [|split].
            -- rewrite Heq1. refine (eq_trans Heq2 _). rewrite <- app_assoc. reflexivity.
            -- intros p Hp. apply in_app_or in Hp. destruct Hp as [Hp|Hp];
                 [|exact (Hsound2 p Hp)].
               destruct (Hsound1 p Hp) as (rel & -> & Hbelow).
               exists (name :: rel). split; [rewrite <- app_assoc; reflexivity|].
               exact (@fileBelow_dir entries name sub rel Hin Hkept Hbelow).
            -- intros H1 H2 H3 name0 child0 [Heq0|Hin0] Hs0.
               ++ injection Heq0 as <- <-. split; [intro H; discriminate H|].
                  intros rest _ Hbelow. apply in_or_app. left.
                  pose proof (Hcomplete1 H1 (Hrules H1 H2) (Hstatus H1 H2 H3) rest Hbelow)
                    as Hp.
                  rewrite <- app_assoc in Hp. exact Hp.
               ++ destruct (Hcomplete2 H1 H2 H3 name0 child0 Hin0 Hs0) as (Hf & Hd).
                  split; [intro H; apply in_or_app; right; exact (Hf H)|].
                  intros rest Hdir Hbelow. apply in_or_app. right.
                  exact (Hd rest Hdir Hbelow).
          * destruct (IHes Hincl' files') as (new & Heq & Hsound & Hcomplete).
            exists new. split; [exact Heq|]. split; [exact Hsound|].
            intros H1 H2 H3. rewrite (Hstatus H1 H2 H3) in Erec. discriminate Erec.
        + (* neither *)
          destruct (IHes Hincl' files') as (new & Heq & Hsound & Hcomplete).
          exists new. split; [exact Heq|]. apply (Hskip new); try assumption.
          right. split; reflexivity. }
    destruct (Hloop entries (incl_refl entries) files) as (new & Heq & Hsound & Hcomplete).
    exists new. split; [exact Heq|]. split; [exact Hsound|].
    intros H1 H2 H3 rel Hbelow. pose proof (Hcomplete H1 H2 H3) as Hall.
    inversion Hbelow as [es name content Hin Hs|es name sub rest Hin Hs Hsub]; subst.
    + exact (proj1 (Hall name (FsFile content) Hin Hs) eq_refl).
    + exact (proj2 (Hall name (FsDir sub) Hin Hs) rest eq_refl Hsub).
Qed.

Lemma collectFiles_directory : forall root testDir entries respectGitIgnore,
    lookupPath root testDir = Some (FsDir entries) ->
    collectFiles minimatch trimmedLines root testDir respectGitIgnore
    = visit minimatch trimmedLines respectGitIgnore (FsDir entries) testDir [] Included [].
Proof.
  intros root testDir entries respectGitIgnore H.
  unfold collectFiles, existsSync. rewrite H. reflexivity.
Qed.

Lemma collectFiles_not_directory : forall root testDir respectGitIgnore,
    (forall entries, lookupPath root testDir <> Some (FsDir entries)) ->
    collectFiles minimatch trimmedLines root testDir respectGitIgnore = [].
Proof.
  intros root testDir respectGitIgnore H. unfold collectFiles, existsSync.
  destruct (lookupPath root testDir) as [[content|entries|]|]; try reflexivity.
  contradiction (H entries eq_refl).
Qed.
End VisitFacts.

(** X23. Without the [.gitignore] rules, the collector returns exactly the
    regular files below the test directory, except the files named
    [.gitignore] and what is below a directory named [node_modules] (or [.] or
    [..]). *)
Theorem collectFiles_without_gitignore :
  forall minimatch trimmedLines root testDir entries p,
    lookupPath root testDir = Some (FsDir entries) ->
    In p (collectFiles minimatch trimmedLines root testDir false)
    <-> exists rel, p = testDir ++ rel /\ fileBelow (FsDir entries) rel.
Proof.
  intros minimatch trimmedLines root testDir entries p Hdir.
  rewrite (collectFiles_directory minimatch trimmedLines root testDir false Hdir).
  destruct (visit_appends minimatch trimmedLines false (FsDir entries) testDir []
                          Included [])
    as (new & -> & Hsound & Hcomplete).
  simpl. split.
  - apply Hsound.
  - intros (rel & -> & Hbelow). exact (Hcomplete eq_refl eq_refl eq_refl rel Hbelow).
Qed.

Lemma collectFiles_without_gitignore_witness :
  In ["build"; "x.test.ts"]%string (collectFiles exMinimatch (exLines "") exFs [] false)
  <-> exists rel,
      ["build"; "x.test.ts"]%string = [] ++ rel
      /\ fileBelow (FsDir [(".gitignore", FsFile ("build/" ++ String "010" "!build/keep/"));
                           ("a.spec.ts", FsFile "");
                           ("build", FsDir [("keep", FsDir [("y.test.ts", FsFile "")]);
                                            ("x.test.ts", FsFile "")]);
                           ("node_modules", FsDir [("m.spec.ts", FsFile "")]);
                           ("readme.txt", FsFile "")]%string) rel.
Proof.
  apply (@collectFiles_without_gitignore exMinimatch (exLines "") exFs [] _
           ["build"; "x.test.ts"]%string eq_refl).
Defined.

(** X24. The [.gitignore] rules only take files away: a file that the
    collector returns when it respects the rules is a regular file below the
    test directory that it also returns when it does not. *)
Theorem gitignore_only_removes_files :
  forall minimatch trimmedLines root testDir p,
    In p (collectFiles minimatch trimmedLines root testDir true) ->
    In p (collectFiles minimatch trimmedLines root testDir false).
Proof.
  intros minimatch trimmedLines root testDir p Hp.
  destruct (lookupPath root testDir) as [[content|entries|]|] eqn:Hdir;
    try (rewrite collectFiles_not_directory in Hp;
         [contradiction Hp | intros es; rewrite Hdir; discriminate]).
  rewrite (collectFiles_directory minimatch trimmedLines root testDir true Hdir) in Hp.
  rewrite (collectFiles_directory minimatch trimmedLines root testDir false Hdir).
  destruct (visit_appends minimatch trimmedLines true (FsDir entries) testDir []
                          Included [])
    as (new & Heq & Hsound & _).
  rewrite Heq in Hp. simpl in Hp. destruct (Hsound p Hp) as (rel & -> & Hbelow).
  destruct (visit_appends minimatch trimmedLines false (FsDir entries) testDir []
                          Included [])
    as (new' & -> & _ & Hcomplete).
  simpl. exact (Hcomplete eq_refl eq_refl eq_refl rel Hbelow).
Qed.

Lemma gitignore_only_removes_files_witness :
  In ["a.spec.ts"]%string (collectFiles exMinimatch (exLines "") exFs [] false).
Proof.
  apply (@gitignore_only_removes_files exMinimatch (exLines "") exFs []
           ["a.spec.ts"]%string).
  vm_compute. left. reflexivity.
Defined.

(** ** The configuration file *)

Lemma resolveConfigFileFromDirectory_result : forall root directory configNames,
    match resolveConfigFileFromDirectory root directory configNames with
    | Some configFile =>
        exists before configName after,
          configNames = before ++ configName :: after
          /\ configFile = directory ++ [configName]
          /\ existsSync root configFile = true
          /\ Forall (fun n => existsSync root (directory ++ [n]) = false) before
    | None =>
        Forall (fun n => existsSync root (directory ++ [n]) = false) configNames
    end.
Proof.
  intros root directory configNames.
  induction configNames as [|configName rest IH]; simpl; [constructor|].
  unfold resolveConfig.
  destruct (existsSync root (directory ++ [configName])) eqn:E.
  - exists [], configName, rest. repeat split; [exact E | constructor].
  - destruct (resolveConfigFileFromDirectory root directory rest) as [configFile|].
    + destruct IH as (before & name & after & -> & -> & Hex & Hnone).
      exists (configName :: before), name, after.
      repeat split; [exact Hex | constructor; assumption].
    + constructor; assumption.
Qed.

(** X25. [resolveConfigFile] throws exactly when the path does not exist.
    For a directory it returns the first of the default configuration files
    that exists in it, in the order [.ts], [.js], [.mjs], and [null] when none
    of them exists; for anything else it returns the path itself, never
    [null]. *)
Theorem resolveConfigFile_result :
  forall root configFileOrDirectory,
    match resolveConfigFile root configFileOrDirectory with
    | inr _ => existsSync root configFileOrDirectory = false
    | inl None =>
        (exists entries, lookupPath root configFileOrDirectory = Some (FsDir entries))
        /\ Forall (fun n => existsSync root (configFileOrDirectory ++ [n]) = false)
                  kDefaultConfigFiles
    | inl (Some configFile) =>
        existsSync root configFileOrDirectory = true
        /\ existsSync root configFile = true
        /\ ((exists entries, lookupPath root configFileOrDirectory = Some (FsDir entries))
            /\ (exists before configName after,
                   kDefaultConfigFiles = before ++ configName :: after
                   /\ configFile = configFileOrDirectory ++ [configName]
                   /\ Forall (fun n => existsSync root (configFileOrDirectory ++ [n])
                                       = false) before)
            \/ (exists found, lookupPath root configFileOrDirectory = Some found
                              /\ isDirectory found = false)
               /\ configFile = configFileOrDirectory)
    end.
Proof.
  intros root p. unfold resolveConfigFile.
  destruct (lookupPath root p) as [found|] eqn:Hfound.
  2:{ unfold existsSync. rewrite Hfound. reflexivity. }
  assert (Hex : existsSync root p = true)
    by (unfold existsSync; rewrite Hfound; reflexivity).
  destruct found as [content|entries|]; cbn [isDirectory].
  - unfold resolveConfig. rewrite Hex.
    split; [reflexivity|]. split; [exact Hex|].
    right. split; [|reflexivity]. eexists. split; reflexivity.
  - pose proof (resolveConfigFileFromDirectory_result root p kDefaultConfigFiles) as H.
    destruct (resolveConfigFileFromDirectory root p kDefaultConfigFiles) as [configFile|].
    + destruct H as (before & name & after & Hsplit & -> & Hthere & Hnone).
      split; [exact Hex|]. split; [exact Hthere|]. left.
      split; [exists entries; reflexivity|].
      exists before, name, after. repeat split; assumption.
    + split; [exists entries; reflexivity | exact H].
  - unfold resolveConfig. rewrite Hex.
    split; [reflexivity|]. split; [exact Hex|].
    right. split; [|reflexivity]. eexists. split; reflexivity.
Qed.

Example resolveConfigFile_example :
  resolveConfigFile
    (FsDir [("playwright.config.js", FsFile ""); ("playwright.config.mjs", FsFile "");
            ("tests", FsDir [])])%string []
  = inl (Some ["playwright.config.js"%string])
  /\ resolveConfigFile (FsDir [("tests", FsDir [])])%string ["tests"%string] = inl None
  /\ resolveConfigFile (FsDir [("tests", FsDir [])])%string ["e2e"%string]
     = inr "e2e does not exist"%string.
Proof. repeat split. Qed.

(** ** Duplicate titles *)

Lemma flat_map_nil_iff : forall (A B : Type) (f : A -> list B) l,
    flat_map f l = [] <-> Forall (fun x => f x = []) l.
Proof.
  intros A B f l. induction l as [|x l IH]; simpl.
  - split; [constructor | reflexivity].
  - split.
    + intro H. apply app_eq_nil in H. destruct H as (Hx & Hl).
      constructor; [exact Hx | apply IH; exact Hl].
    + intro H. inversion H as [|y l' Hx Hl]; subst. rewrite Hx. apply IH. exact Hl.
Qed.

Section CountFacts.
Variables K V : Type.
Variable eqb : K -> K -> bool.
Hypothesis eqb_spec : forall a b, eqb a b = true <-> a = b.
Variable keyOf : V -> K.

Lemma filter_key_nil : forall k l,
    ~ In k (map keyOf l) -> filter (fun v => eqb (keyOf v) k) l = [].
Proof.
  intros k l. induction l as [|v l IH]; simpl; intro Hnot; [reflexivity|].
  destruct (eqb (keyOf v) k) eqn:E.
  - apply eqb_spec in E. contradiction Hnot. left. exact E.
  - apply IH. intro Hin. apply Hnot. right. exact Hin.
Qed.

Lemma filter_key_In : forall k l,
    In k (map keyOf l) -> 1 <= length (filter (fun v => eqb (keyOf v) k) l).
Proof.
  intros k l. induction l as [|v l IH]; simpl; intro Hin; [contradiction|].
  destruct (eqb (keyOf v) k) eqn:E; [simpl; lia|].
  destruct Hin as [Heq|Hin]; [|exact (IH Hin)].
  apply eqb_spec in Heq. rewrite Heq in E. discriminate E.
Qed.

(** The keys of a list are pairwise distinct exactly when no key is the key
    of two elements. *)
Lemma NoDup_keys_count : forall l,
    NoDup (map keyOf l)
    <-> forall k, length (filter (fun v => eqb (keyOf v) k) l) <= 1.
Proof.
  induction l as [|v l IH]; simpl.
  - split; [intros _ k; simpl; lia | intros _; constructor].
  - split.
    + intros Hnd k. inversion Hnd as [|x xs Hnot Hrest]; subst.
      destruct (eqb (keyOf v) k) eqn:E.
      * apply eqb_spec in E. subst k. rewrite (filter_key_nil _ _ Hnot). simpl. lia.
      * apply IH. exact Hrest.
    + intros Hcount. constructor.
      * intro Hin. pose proof (Hcount (keyOf v)) as Hv.
        rewrite (proj2 (eqb_spec (keyOf v) (keyOf v)) eq_refl) in Hv. simpl in Hv.
        pose proof (filter_key_In _ _ Hin). lia.
      * apply IH. intro k. pose proof (Hcount k) as Hk.
        destruct (eqb (keyOf v) k); simpl in Hk; lia.
Qed.
End CountFacts.

Section DuplicateTitlesFacts.
Variable fullTitleOf : TestCase -> string.
Variable displayTitle : string -> string.
Variable relativeLocation : TestCase -> option (string * string).

Lemma duplicateLines_nil : forall fileSuite,
    duplicateLines fullTitleOf displayTitle relativeLocation fileSuite = []
    <-> NoDup (map fullTitleOf (allTests fileSuite)).
Proof.
  intro fileSuite. unfold duplicateLines.
  destruct (@multiSet_all string TestCase String.eqb string_eqb_spec fullTitleOf
              (allTests fileSuite) [] [])
    as (Hnd & Hget & Hkeys).
  - constructor.
  - intro k. reflexivity.
  - intro k. simpl. split; [intros [] | intros (v & [] & _)].
  - simpl in Hget, Hkeys.
    set (m := fold_left (fun m test => multiSet String.eqb (fullTitleOf test) test m)
                        (allTests fileSuite) []) in *.
    cbv zeta. rewrite flat_map_nil_iff, Forall_forall.
    rewrite (@NoDup_keys_count string TestCase String.eqb string_eqb_spec fullTitleOf
               (allTests fileSuite)).
    split.
    + intros Hnone k.
      destruct (in_dec string_dec k (map fullTitleOf (allTests fileSuite))) as [Hin|Hnot].
      * assert (Hkey : In k (multiKeys m)).
        { apply Hkeys. apply in_map_iff in Hin. destruct Hin as (v & Hv & Hin).
          exists v. split; assumption. }
        specialize (Hnone k Hkey). rewrite Hget in Hnone.
        destruct (1 <? length (filter (fun v => String.eqb (fullTitleOf v) k)
                                      (allTests fileSuite))) eqn:E; [discriminate Hnone|].
        apply Nat.ltb_ge in E. exact E.
      * rewrite (@filter_key_nil string TestCase String.eqb string_eqb_spec fullTitleOf
                   _ _ Hnot). simpl. lia.
    + intros Hcount k _. rewrite Hget.
      specialize (Hcount k). apply Nat.ltb_ge in Hcount. rewrite Hcount. reflexivity.
Qed.
End DuplicateTitlesFacts.

(** X26. [createDuplicateTitlesError] returns no error exactly when, in
    each file suite, the tests have pairwise distinct full titles.  (Two tests
    of different files may share a title.) *)
Theorem duplicate_titles_error_iff_duplicates :
  forall fullTitleOf displayTitle relativeLocation rootSuite,
    createDuplicateTitlesError fullTitleOf displayTitle relativeLocation rootSuite = None
    <-> Forall (fun fileSuite => NoDup (map fullTitleOf (allTests fileSuite)))
               (suites rootSuite).
Proof.
  intros fullTitleOf displayTitle relativeLocation rootSuite.
  unfold createDuplicateTitlesError. cbv zeta.
  assert (Hlines : flat_map (duplicateLines fullTitleOf displayTitle relativeLocation)
                            (suites rootSuite) = []
                   <-> Forall (fun fileSuite => NoDup (map fullTitleOf (allTests fileSuite)))
                              (suites rootSuite)).
  { rewrite flat_map_nil_iff, !Forall_forall. split; intros H fileSuite Hin.
    - apply (duplicateLines_nil fullTitleOf displayTitle relativeLocation). apply H. exact Hin.
    - apply (duplicateLines_nil fullTitleOf displayTitle relativeLocation). apply H. exact Hin. }
  rewrite <- Hlines.
  destruct (flat_map (duplicateLines fullTitleOf displayTitle relativeLocation)
                     (suites rootSuite)); simpl; split; intro H;
    try reflexivity; discriminate H.
Qed.

Example createDuplicateTitlesError_example :
  createDuplicateTitlesError (fun _ => "same"%string) (fun s => s)
    (fun t => if Nat.eqb (tid t) 12 then Some ("a.spec.ts", "3")
              else Some ("a.spec.ts", "7"))%string exProjectSuite
  <> None
  /\ createDuplicateTitlesError exTitle (fun s => s) (fun _ => None) exProjectSuite = None.
Proof. split; vm_compute; [discriminate | reflexivity]. Qed.

(** ** The focused-line filter *)

Lemma sameOrNull_spec : forall wanted actual,
    sameOrNull wanted actual = true <-> wanted = None \/ wanted = Some actual.
Proof.
  intros [n|] actual; simpl.
  - rewrite Nat.eqb_eq. split.
    + intros ->. right. reflexivity.
    + intros [H|H]; [discriminate H | injection H as ->; reflexivity].
  - split; [intros _; left; reflexivity | reflexivity].
Qed.

Lemma focusedOnly_tests : forall suiteFilter testFilter s,
    focusedOnly suiteFilter testFilter s = true ->
    forall t, In t (treeTests s) ->
      testFilter t = true
      \/ exists c, In c (suitesBelow s) /\ suiteFilter c = true /\ In t (treeTests c).
Proof.
  intros sF tF. induction s as [nd subs ts es IH] using Suite_tree_ind.
  rewrite Forall_forall in IH. cbn [focusedOnly treeTests].
  intros Hfocused t Ht. apply andb_true_iff in Hfocused.
  destruct Hfocused as (Hts & Hsubs).
  rewrite forallb_forall in Hts, Hsubs.
  apply in_app_or in Ht. destruct Ht as [Ht|Ht]; [left; apply Hts; exact Ht|].
  apply in_flat_map in Ht. destruct Ht as (c & Hc & Ht).
  specialize (Hsubs c Hc). apply orb_true_iff in Hsubs.
  destruct Hsubs as [Hfocus|Hbelow].
  - right. exists c. split; [|split; assumption].
    unfold suitesBelow. cbn [suites]. apply in_flat_map. exists c.
    split; [exact Hc | apply allSuites_self].
  - destruct (IH c Hc Hbelow t Ht) as [Hpass|(c' & Hc' & Hfocus & Ht')];
      [left; exact Hpass|].
    right. exists c'. split; [|split; assumption].
    unfold suitesBelow. cbn [suites]. apply in_flat_map. exists c. split; [exact Hc|].
    destruct c as [nd' subs' ts' es']. simpl. right. exact Hc'.
Qed.

Section FocusedLineFacts.
Variable createFileMatcherFromFilters : list TestFileFilter -> string -> bool.
Variable suiteLocation : nat -> option Location.
Variable testLocation : nat -> Location.

Lemma testFileLineMatches_spec : forall filters l,
    testFileLineMatches createFileMatcherFromFilters filters
                        (loc_file l) (loc_line l) (loc_column l) = true
    <-> focusedAt createFileMatcherFromFilters filters l.
Proof.
  intros filters l. unfold testFileLineMatches, focusedAt. rewrite existsb_exists.
  split; intros (f & Hin & H); exists f; (split; [exact Hin|]).
  - cbv zeta in H.
    destruct (sameOrNull (filter_line f) (loc_line l)) eqn:El; [|discriminate H].
    destruct (sameOrNull (filter_column f) (loc_column l)) eqn:Ec; [|discriminate H].
    simpl in H. apply sameOrNull_spec in El. apply sameOrNull_spec in Ec.
    repeat split; assumption.
  - destruct H as (Hl & Hc & Hmatch). cbv zeta.
    apply sameOrNull_spec in Hl. apply sameOrNull_spec in Hc.
    rewrite Hl, Hc. simpl. exact Hmatch.
Qed.

Lemma filterWithLine_spec : forall filters : list TestFileFilter,
    isSome (find (fun f => isSome (filter_line f)) filters) = true
    <-> exists f, In f filters /\ filter_line f <> None.
Proof.
  intro filters. induction filters as [|f rest IH]; simpl.
  - split; [discriminate | intros (f & [] & _)].
  - destruct (filter_line f) as [n|] eqn:E; simpl.
    + split; [|reflexivity]. intros _. exists f. split; [left; reflexivity|].
      rewrite E. discriminate.
    + rewrite IH. split.
      * intros (g & Hg & Hline). exists g. split; [right; exact Hg | exact Hline].
      * intros (g & [<-|Hg] & Hline); [contradiction (Hline E)|].
        exists g. split; assumption.
Qed.
End FocusedLineFacts.

(** X27. [filterByFocusedLine] does nothing unless some filter names a
    line.  When one does, every test at a focused location stays in the tree,
    and a test that stays is at a focused location or below a suite that is;
    a filter without line and column focuses every location of the files it
    matches. *)
Theorem focused_line_filter :
  forall createFileMatcherFromFilters suiteLocation testLocation suite filters,
    let result :=
      filterByFocusedLine createFileMatcherFromFilters suiteLocation testLocation
                          suite filters in
    ((forall f, In f filters -> filter_line f = None) -> result = suite)
    /\ ((exists f, In f filters /\ filter_line f <> None) ->
        (forall t, In t (treeTests suite) ->
                   focusedAt createFileMatcherFromFilters filters (testLocation (tid t)) ->
                   In t (treeTests result))
        /\ (forall t, In t (treeTests result) ->
              focusedAt createFileMatcherFromFilters filters (testLocation (tid t))
              \/ exists c l,
                  In c (suitesBelow result) /\ In t (treeTests c)
                  /\ suiteLocation (sid (node c)) = Some l
                  /\ focusedAt createFileMatcherFromFilters filters l)).
Proof.
  intros matcher sLoc tLoc suite filters result. unfold result, filterByFocusedLine.
  cbv zeta.
  pose proof (filterWithLine_spec filters) as Hline.
  destruct (isSome (find (fun f => isSome (filter_line f)) filters)); cbn [negb].
  - split.
    + intros Hnone. destruct (proj1 Hline eq_refl) as (f & Hin & Hf).
      contradiction (Hf (Hnone f Hin)).
    + intros _. split.
      * intros t Ht Hfocus. apply filterSuite_keeps_matching_tests; [exact Ht|].
        unfold focusedTest. cbv zeta.
        apply (testFileLineMatches_spec matcher). exact Hfocus.
      * intros t Ht.
        destruct (focusedOnly_tests _ _ _
                    (filterSuite_focusedOnly (focusedSuite matcher sLoc filters)
                                             (focusedTest matcher tLoc filters) suite)
                    t Ht)
          as [Hpass|(c & Hc & Hfocus & Htc)].
        -- left. apply (testFileLineMatches_spec matcher). exact Hpass.
        -- right. unfold focusedSuite in Hfocus.
           destruct (sLoc (sid (node c))) as [l|] eqn:El; [|discriminate Hfocus].
           exists c, l. repeat split; try assumption.
           apply (testFileLineMatches_spec matcher). exact Hfocus.
  - split; [reflexivity|].
    intros Hsome. apply Hline in Hsome. discriminate Hsome.
Qed.

(** ** From the configuration to the stages *)

Lemma collectRunStages_nil : forall projects,
    collectRunStages projects = [] <-> projects = [].
Proof.
  intro projects. destruct (collectRunStages_stages projects) as (ids & Heq & _ & Hin).
  rewrite Heq. split.
  - intro Hnil. destruct projects as [|p rest]; [reflexivity|].
    assert (Hid : In (stage p) ids)
      by (apply Hin; exists p; split; [left; reflexivity | reflexivity]).
    destruct ids as [|id more]; [destruct Hid | discriminate Hnil].
  - intros ->. destruct ids as [|id more]; [reflexivity|].
    destruct (proj1 (Hin id) (or_introl eq_refl)) as (p & [] & _).
Qed.

(** X28. When the selection of the projects does not throw, the assertion
    that there is a run stage fails exactly when no project is selected: the
    configuration has no project, or the list of project names is there but
    empty.  Otherwise the stages of the selected projects are returned. *)
Theorem stages_assertion_fails_for_empty_selection :
  forall lower projects projectFilter selected,
    _collectProjects lower projects projectFilter = inl selected ->
    (collectTestGroupsStages lower projects projectFilter = AssertionFails
     <-> projects = [] \/ projectFilter = Some [])
    /\ (projects <> [] -> projectFilter <> Some [] ->
        collectTestGroupsStages lower projects projectFilter
        = RunStages (collectRunStages selected)
        /\ selected <> []).
Proof.
  intros lower projects projectFilter selected Hsel.
  assert (Hempty : selected = [] <-> projects = [] \/ projectFilter = Some []).
  { destruct projectFilter as [names|].
    - pose proof (collectProjects_result lower projects names) as Hres.
      rewrite Hsel in Hres. destruct Hres as (-> & Hall). split.
      + intro Hnil. destruct names as [|n more]; [right; reflexivity|].
        destruct (Hall n (or_introl eq_refl)) as (p & Hp & Hname).
        assert (Hin : In p (filter (requested lower (n :: more)) projects)).
        { apply filter_In. split; [exact Hp|]. unfold requested.
          apply existsb_exists. exists (lower n). split; [left; reflexivity|].
          apply String.eqb_eq. exact Hname. }
        rewrite Hnil in Hin. destruct Hin.
      + intros [->|Hnames]; [reflexivity|]. injection Hnames as ->.
        apply filter_nil_iff. intros p _. reflexivity.
    - simpl in Hsel. injection Hsel as <-. split.
      + intro H. left. exact H.
      + intros [H|H]; [exact H | discriminate H]. }
  unfold collectTestGroupsStages. rewrite Hsel. cbv zeta.
  destruct (collectRunStages selected) as [|st more] eqn:Est; simpl.
  - apply collectRunStages_nil in Est. split.
    + split; [intros _; apply Hempty; exact Est | reflexivity].
    + intros Hp Hf. destruct (proj1 Hempty Est) as [H|H]; contradiction.
  - assert (Hne : selected <> []).
    { intro Hnil. apply collectRunStages_nil in Hnil. rewrite Hnil in Est.
      discriminate Est. }
    split.
    + split; [discriminate|]. intro H. apply Hempty in H. contradiction.
    + intros _ _. split; [reflexivity | exact Hne].
Qed.

Lemma stages_assertion_fails_for_empty_selection_witness :
  (collectTestGroupsStages exLower exProjects (Some []) = AssertionFails
   <-> exProjects = [] \/ Some [] = Some (@nil string))
  /\ (exProjects <> [] -> Some [] <> Some (@nil string) ->
      collectTestGroupsStages exLower exProjects (Some [])
      = RunStages (collectRunStages [])
      /\ @nil Project <> []).
Proof.
  apply (@stages_assertion_fails_for_empty_selection exLower exProjects (Some []) []
           eq_refl).
Defined.

(** ** The output directories *)

Section OutputDirsFacts.
Variable outputDir : Project -> string.

Lemma setAdd_spec : forall x s d, In d (setAdd x s) <-> In d s \/ d = x.
Proof.
  intros x s d. unfold setAdd. destruct (existsb (String.eqb x) s) eqn:E.
  - split; [intro H; left; exact H|]. intros [H| ->]; [exact H|].
    apply existsb_exists in E. destruct E as (y & Hy & Heq).
    apply String.eqb_eq in Heq. subst y. exact Hy.
  - rewrite in_app_iff. simpl. split.
    + intros [H|[H|[]]]; [left; exact H | right; symmetry; exact H].
    + intros [H| ->]; [left; exact H | right; left; reflexivity].
Qed.

Lemma setAdd_NoDup : forall x s, NoDup s -> NoDup (setAdd x s).
Proof.
  intros x s Hnd. unfold setAdd. destruct (existsb (String.eqb x) s) eqn:E; [exact Hnd|].
  apply (Permutation_NoDup (Permutation_cons_append s x)).
  constructor; [|exact Hnd]. intro Hy.
  assert (Ht : existsb (String.eqb x) s = true)
    by (apply existsb_exists; exists x; split; [exact Hy | apply String.eqb_refl]).
  rewrite Ht in E. discriminate E.
Qed.

Lemma outputDirs_spec : forall projectFilter projects dirs d,
    NoDup dirs ->
    let dirs' :=
      fold_left (fun dirs p =>
                   if match projectFilter with
                      | None => true
                      | Some names => existsb (String.eqb (project_name p)) names
                      end
                   then setAdd (outputDir p) dirs else dirs)
                projects dirs in
    NoDup dirs'
    /\ (In d dirs' <->
        In d dirs \/ exists p, In p projects /\ namedBy projectFilter p /\ outputDir p = d).
Proof.
  intros projectFilter projects.
  induction projects as [|p rest IH]; intros dirs d Hnd; simpl.
  - split; [exact Hnd|]. split; [intro H; left; exact H|].
    intros [H|(p & [] & _)]. exact H.
  - assert (Hnamed : match projectFilter with
                     | None => true
                     | Some names => existsb (String.eqb (project_name p)) names
                     end = true <-> namedBy projectFilter p).
    { unfold namedBy. destruct projectFilter as [names|]; [|split; trivial].
      rewrite existsb_exists. split.
      - intros (n & Hn & Heq). apply String.eqb_eq in Heq. rewrite Heq. exact Hn.
      - intro Hin. exists (project_name p). split; [exact Hin | apply String.eqb_refl]. }
    destruct (match projectFilter with
              | None => true
              | Some names => existsb (String.eqb (project_name p)) names
              end) eqn:E.
    + destruct (IH (setAdd (outputDir p) dirs) d (setAdd_NoDup _ Hnd)) as (Hnd' & Hin).
      split; [exact Hnd'|]. rewrite Hin, setAdd_spec. split.
      * intros [[H|H]|(q & Hq & Hn & Hd)].
        -- left. exact H.
        -- right. exists p. split; [left; reflexivity|].
           split; [apply Hnamed; reflexivity | symmetry; exact H].
        -- right. exists q. split; [right; exact Hq | split; assumption].
      * intros [H|(q & [<-|Hq] & Hn & Hd)].
        -- left. left. exact H.
        -- left. right. symmetry. exact Hd.
        -- right. exists q. split; [exact Hq | split; assumption].
    + destruct (IH dirs d Hnd) as (Hnd' & Hin).
      split; [exact Hnd'|]. rewrite Hin. split.
      * intros [H|(q & Hq & Hn & Hd)]; [left; exact H|].
        right. exists q. split; [right; exact Hq | split; assumption].
      * intros [H|(q & [<-|Hq] & Hn & Hd)].
        -- left. exact H.
        -- apply Hnamed in Hn. discriminate Hn.
        -- right. exists q. split; [exact Hq | split; assumption].
Qed.
End OutputDirsFacts.

(** X29. The output directories that are removed are those of the
    configured projects that the project filter names letter for letter (all
    of them without a filter), each directory once; every such project is
    among the projects selected to run. *)
Theorem output_dirs_of_named_projects :
  forall lower outputDir projects projectFilter,
    NoDup (outputDirs outputDir projects projectFilter)
    /\ (forall d, In d (outputDirs outputDir projects projectFilter)
                  <-> exists p, In p projects /\ namedBy projectFilter p
                                /\ outputDir p = d)
    /\ (forall selected p,
           _collectProjects lower projects projectFilter = inl selected ->
           In p projects -> namedBy projectFilter p -> In p selected).
Proof.
  intros lower outputDir projects projectFilter. split; [|split].
  - apply (@outputDirs_spec outputDir projectFilter projects [] EmptyString).
    constructor.
  - intro d. unfold outputDirs.
    destruct (@outputDirs_spec outputDir projectFilter projects [] d (NoDup_nil _))
      as (_ & Hin).
    rewrite Hin. split; [intros [[]|H]; exact H | intro H; right; exact H].
  - intros selected p Hsel Hp Hnamed. destruct projectFilter as [names|].
    + pose proof (collectProjects_result lower projects names) as Hres.
      rewrite Hsel in Hres. destruct Hres as (-> & _).
      apply filter_In. split; [exact Hp|]. unfold requested.
      apply existsb_exists. exists (lower (project_name p)).
      split; [apply in_map; exact Hnamed | apply String.eqb_refl].
    + simpl in Hsel. injection Hsel as <-. exact Hp.
Qed.

(** A project selected under another letter case runs, but its output
    directory stays. *)
Example output_dirs_example :
  _collectProjects exLower exProjects (Some ["SMOKE"; "setup"]%string)
  = inl [mkProject "setup" RunDefault 0; mkProject "smoke" RunDefault 1]
  /\ outputDirs exOutputDir exProjects (Some ["SMOKE"; "setup"]%string)
     = ["out/setup"%string].
Proof. split; vm_compute; reflexivity. Qed.

(** ** The global set-up, step by step *)

Section GlobalSetupFacts.
Import GlobalSetup.

Lemma runAndReportError_calls : forall st thrown,
    exists new,
      calls (GlobalSetup._runAndReportError st thrown) = calls st ++ new
      /\ pluginSetups new = [] /\ pluginTeardowns new = []
      /\ existsb isGlobalTeardown new = false.
Proof.
  intros st [e|]; simpl.
  - exists [ReporterOnError e]. repeat split.
  - exists []. rewrite app_nil_r. repeat split.
Qed.

Lemma GlobalSetup_pluginSetups_app : forall a b,
    pluginSetups (a ++ b) = pluginSetups a ++ pluginSetups b.
Proof. intros a b. apply flat_map_app. Qed.

Lemma GlobalSetup_pluginTeardowns_app : forall a b,
    pluginTeardowns (a ++ b) = pluginTeardowns a ++ pluginTeardowns b.
Proof. intros a b. apply flat_map_app. Qed.

Lemma setUpPlugins_result : forall plugins st done,
    exists new,
      GlobalSetup.setUpPlugins plugins st done
      = (mkState (calls st ++ new) (status st), done ++ setUpPrefix plugins,
         match skipn (length (setUpPrefix plugins)) plugins with
         | [] => Completes
         | plugin :: _ =>
             match setup plugin with Some stepEnd => stepEnd | None => Completes end
         end)
      /\ pluginSetups new = map plugin_id (filter hasSetup (attempted plugins))
      /\ pluginTeardowns new = []
      /\ existsb isGlobalTeardown new = false.
Proof.
  induction plugins as [|plugin rest IH]; intros st done.
  - exists []. simpl. rewrite !app_nil_r. destruct st. repeat split.
  - cbn [GlobalSetup.setUpPlugins setUpPrefix]. unfold attempted.
    cbn [setUpPrefix]. unfold hasSetup.
    destruct (setup plugin) as [[|e|]|] eqn:Es.
    + destruct (IH (call st (PluginSetup (plugin_id plugin))) (done ++ [plugin]))
        as (new & -> & Hs & Ht & Hg).
      exists (PluginSetup (plugin_id plugin) :: new). simpl.
      rewrite <- !app_assoc. simpl. split; [reflexivity|].
      rewrite Es. simpl. unfold attempted, hasSetup in Hs. simpl in Hs.
      split; [f_equal; exact Hs|]. split; assumption.
    + exists [PluginSetup (plugin_id plugin)]. simpl. rewrite Es, app_nil_r. simpl.
      repeat split.
    + exists [PluginSetup (plugin_id plugin)]. simpl. rewrite Es, app_nil_r. simpl.
      repeat split.
    + destruct (IH st (done ++ [plugin])) as (new & -> & Hs & Ht & Hg).
      exists new. simpl. rewrite <- !app_assoc. simpl. split; [reflexivity|].
      rewrite Es. simpl. unfold attempted, hasSetup in Hs. simpl in Hs.
      split; [exact Hs|]. split; assumption.
Qed.

Lemma pluginTeardowns_result : forall ps st,
    exists new,
      calls (fold_left
               (fun s plugin =>
                  match teardown plugin with
                  | Some thrown =>
                      GlobalSetup._runAndReportError
                        (call s (PluginTeardown (plugin_id plugin))) thrown
                  | None => s
                  end) ps st)
      = calls st ++ new
      /\ pluginSetups new = []
      /\ pluginTeardowns new = map plugin_id (filter hasTeardown ps)
      /\ existsb isGlobalTeardown new = false.
Proof.
  induction ps as [|plugin rest IH]; intro st; simpl.
  - exists []. rewrite app_nil_r. repeat split.
  - unfold hasTeardown at 1. destruct (teardown plugin) as [thrown|] eqn:Et; simpl.
    + destruct (runAndReportError_calls (call st (PluginTeardown (plugin_id plugin))) thrown)
        as (new1 & Hc1 & Hs1 & Ht1 & Hg1).
      destruct (IH (GlobalSetup._runAndReportError
                      (call st (PluginTeardown (plugin_id plugin))) thrown))
        as (new2 & Hc2 & Hs2 & Ht2 & Hg2).
      exists (PluginTeardown (plugin_id plugin) :: new1 ++ new2).
      rewrite Hc2, Hc1. simpl. rewrite <- !app_assoc. simpl.
      split; [reflexivity|].
      rewrite GlobalSetup_pluginSetups_app, GlobalSetup_pluginTeardowns_app, existsb_app,
        Hs1, Hs2, Ht1, Ht2,
        Hg1, Hg2.
      repeat split.
    + apply IH.
Qed.

Lemma tearDown_calls : forall hooks globalSetupResult ps st,
    exists new,
      calls (GlobalSetup.tearDown hooks globalSetupResult ps st) = calls st ++ new
      /\ pluginSetups new = []
      /\ pluginTeardowns new = map plugin_id (filter hasTeardown (rev ps))
      /\ existsb isGlobalTeardown new
         = isSome globalSetupResult && isSome (globalTeardown hooks).
Proof.
  intros hooks globalSetupResult ps st. unfold GlobalSetup.tearDown.
  set (st1 := match globalSetupResult with
              | Some true =>
                  GlobalSetup._runAndReportError (call st ReturnedFunction)
                                                 (returnedFunction hooks)
              | _ => st
              end).
  assert (H1 : exists new, calls st1 = calls st ++ new
                           /\ pluginSetups new = [] /\ pluginTeardowns new = []
                           /\ existsb isGlobalTeardown new = false).
  { unfold st1. destruct globalSetupResult as [[|]|].
    - destruct (runAndReportError_calls (call st ReturnedFunction) (returnedFunction hooks))
        as (new & Hc & Hs & Ht & Hg).
      exists (ReturnedFunction :: new). rewrite Hc. simpl. rewrite <- app_assoc.
      repeat split; assumption.
    - exists []. rewrite app_nil_r. repeat split.
    - exists []. rewrite app_nil_r. repeat split. }
  destruct H1 as (new1 & Hc1 & Hs1 & Ht1 & Hg1). clearbody st1.
  set (st2 := match globalSetupResult, globalTeardown hooks with
              | Some _, Some thrown =>
                  GlobalSetup._runAndReportError (call st1 GlobalTeardownHook) thrown
              | _, _ => st1
              end).
  assert (H2 : exists new, calls st2 = calls st1 ++ new
                           /\ pluginSetups new = [] /\ pluginTeardowns new = []
                           /\ existsb isGlobalTeardown new
                              = isSome globalSetupResult && isSome (globalTeardown hooks)).
  { unfold st2. destruct globalSetupResult as [isFunction|];
      [destruct (globalTeardown hooks) as [thrown|]|].
    - destruct (runAndReportError_calls (call st1 GlobalTeardownHook) thrown)
        as (new & Hc & Hs & Ht & Hg).
      exists (GlobalTeardownHook :: new). rewrite Hc. simpl. rewrite <- app_assoc.
      repeat split; assumption.
    - exists []. rewrite app_nil_r. repeat split.
    - exists []. rewrite app_nil_r. repeat split. }
  destruct H2 as (new2 & Hc2 & Hs2 & Ht2 & Hg2). clearbody st2.
  destruct (pluginTeardowns_result (rev ps) st2) as (new3 & Hc3 & Hs3 & Ht3 & Hg3).
  exists (new1 ++ new2 ++ new3). rewrite Hc3, Hc2, Hc1, <- !app_assoc.
  split; [reflexivity|].
  rewrite !GlobalSetup_pluginSetups_app, !GlobalSetup_pluginTeardowns_app, !existsb_app,
    Hs1, Hs2, Hs3, Ht1, Ht2, Ht3, Hg1, Hg2, Hg3.
  simpl. rewrite orb_false_r. repeat split.
Qed.

Lemma setUpPrefix_all : forall plugins,
    Nat.eqb (length (setUpPrefix plugins)) (length plugins) = true ->
    skipn (length (setUpPrefix plugins)) plugins = [].
Proof.
  intros plugins H. apply Nat.eqb_eq in H. rewrite H. apply skipn_all.
Qed.

Lemma setUpPrefix_stops : forall plugins,
    Nat.eqb (length (setUpPrefix plugins)) (length plugins) = false ->
    exists plugin rest stepEnd,
      skipn (length (setUpPrefix plugins)) plugins = plugin :: rest
      /\ setup plugin = Some stepEnd /\ stepEnd <> Completes.
Proof.
  induction plugins as [|plugin rest IH]; simpl; intro H; [discriminate H|].
  destruct (setup plugin) as [[|e|]|] eqn:Es; simpl in *.
  - apply IH. exact H.
  - exists plugin, rest, (Throws e). repeat split; [exact Es | discriminate].
  - exists plugin, rest, Interrupted. repeat split; [exact Es | discriminate].
  - apply IH. exact H.
Qed.

(** The end of each case of the set-up: the calls of the teardown are those of
    [tearDown_calls], after the calls of the set-up. *)
Ltac setup_case Hpassed Hs1 Ht1 Hg1 :=
  cbn [GlobalSetup._runAndReportError GlobalSetup.call GlobalSetup.calls
       GlobalSetup.status FullStatus_eqb negb orb fst snd GlobalSetup.globalTearDown
       isSome];
  rewrite ?Hpassed;
  cbn [GlobalSetup.calls GlobalSetup.status FullStatus_eqb negb orb fst snd
       GlobalSetup.globalTearDown isSome];
  match goal with
  | |- context [GlobalSetup.tearDown ?h ?r ?ps ?s] =>
      let new2 := fresh "new" in
      let Hc2 := fresh "Hc" in
      let Hs2 := fresh "Hs" in
      let Ht2 := fresh "Ht" in
      let Hg2 := fresh "Hg" in
      destruct (tearDown_calls h r ps s) as (new2 & Hc2 & Hs2 & Ht2 & Hg2);
      rewrite Hc2; cbn [GlobalSetup.call GlobalSetup.calls]; rewrite <- !app_assoc;
      split;
      [ eexists; split; [reflexivity|];
        rewrite ?GlobalSetup_pluginSetups_app, ?GlobalSetup_pluginTeardowns_app,
          ?existsb_app, Hs1, Hs2, Ht1, Ht2, Hg1, Hg2;
        simpl; rewrite ?app_nil_r, ?orb_false_r; repeat split
      | split; [reflexivity | split; first [reflexivity | discriminate]] ]
  end.

Lemma performGlobalSetup_result : forall hooks _plugins webServerPlugins dockerPlugin st,
    status st = passed ->
    let plugins := _plugins ++ webServerPlugins ++ [dockerPlugin] in
    let outcome :=
      GlobalSetup._performGlobalSetup hooks _plugins webServerPlugins dockerPlugin st in
    let final := globalTearDown hooks (snd outcome) (fst outcome) in
    (exists new,
        calls final = calls st ++ new
        /\ pluginSetups new = map plugin_id (filter hasSetup (attempted plugins))
        /\ pluginTeardowns new
           = map plugin_id (filter hasTeardown (rev (setUpPrefix plugins)))
        /\ existsb isGlobalTeardown new
           = setupCompleted hooks plugins && isSome (globalTeardown hooks))
    /\ (isSome (snd outcome) = setupCompleted hooks plugins)
    /\ (status (fst outcome) = passed <-> setupCompleted hooks plugins = true).
Proof.
  intros hooks _plugins webServerPlugins dockerPlugin st Hpassed plugins outcome final.
  unfold final, outcome, GlobalSetup._performGlobalSetup. fold plugins.
  destruct (setUpPlugins_result plugins st []) as (new1 & -> & Hs1 & Ht1 & Hg1).
  cbn [app]. unfold setupCompleted.
  destruct (Nat.eqb (length (setUpPrefix plugins)) (length plugins)) eqn:Eall.
  - rewrite (setUpPrefix_all plugins Eall). cbn [andb].
    destruct (globalSetup hooks) as [[|e|]|] eqn:Eg;
      setup_case Hpassed Hs1 Ht1 Hg1.
  - destruct (setUpPrefix_stops plugins Eall) as (plugin & rest & stepEnd & -> & -> & Hend).
    cbn [andb].
    destruct stepEnd as [|e|]; [contradiction (Hend eq_refl)| |];
      setup_case Hpassed Hs1 Ht1 Hg1.
Qed.

End GlobalSetupFacts.

(** X30. The global set-up tears down what it set up: whether the teardown
    runs at once, because a set-up step threw or was interrupted, or later
    through the function returned, the plugins torn down are those whose
    set-up completed, in the reverse order, and the set-up of no plugin after
    the first that did not complete is tried; the global teardown hook runs
    exactly when it is configured and all the set-up completed.  The teardown
    function is returned, and the status stays [passed], exactly when all the
    set-up completed. *)
Theorem teardown_mirrors_setup :
  forall hooks _plugins webServerPlugins dockerPlugin st,
    GlobalSetup.status st = passed ->
    let plugins := _plugins ++ webServerPlugins ++ [dockerPlugin] in
    let outcome :=
      GlobalSetup._performGlobalSetup hooks _plugins webServerPlugins dockerPlugin st in
    let final := GlobalSetup.globalTearDown hooks (snd outcome) (fst outcome) in
    (exists new,
        GlobalSetup.calls final = GlobalSetup.calls st ++ new
        /\ GlobalSetup.pluginSetups new
           = map GlobalSetup.plugin_id
                 (filter GlobalSetup.hasSetup (GlobalSetup.attempted plugins))
        /\ GlobalSetup.pluginTeardowns new
           = map GlobalSetup.plugin_id
                 (filter GlobalSetup.hasTeardown (rev (GlobalSetup.setUpPrefix plugins)))
        /\ existsb GlobalSetup.isGlobalTeardown new
           = GlobalSetup.setupCompleted hooks plugins
             && isSome (GlobalSetup.globalTeardown hooks))
    /\ (isSome (snd outcome) = GlobalSetup.setupCompleted hooks plugins)
    /\ (GlobalSetup.status (fst outcome) = passed
        <-> GlobalSetup.setupCompleted hooks plugins = true).
Proof.
  intros hooks _plugins webServerPlugins dockerPlugin st Hpassed.
  exact (performGlobalSetup_result hooks _plugins webServerPlugins dockerPlugin st Hpassed).
Qed.

Lemma teardown_mirrors_setup_witness :
  GlobalSetup.pluginTeardowns
    (GlobalSetup.calls
       (GlobalSetup.globalTearDown GlobalSetup.exHooks
          (snd (GlobalSetup._performGlobalSetup GlobalSetup.exHooks GlobalSetup.exPlugins []
                  GlobalSetup.exDocker (GlobalSetup.mkState [] passed)))
          (fst (GlobalSetup._performGlobalSetup GlobalSetup.exHooks GlobalSetup.exPlugins []
                  GlobalSetup.exDocker (GlobalSetup.mkState [] passed)))))
  = [2; 1]
  /\ isSome (snd (GlobalSetup._performGlobalSetup GlobalSetup.exHooks GlobalSetup.exPlugins
                    [] GlobalSetup.exDocker (GlobalSetup.mkState [] passed)))
     = GlobalSetup.setupCompleted GlobalSetup.exHooks
         (GlobalSetup.exPlugins ++ [] ++ [GlobalSetup.exDocker]).
Proof.
  split; [vm_compute; reflexivity|].
  exact (proj1 (proj2 (@teardown_mirrors_setup GlobalSetup.exHooks GlobalSetup.exPlugins []
                         GlobalSetup.exDocker (GlobalSetup.mkState [] passed) eq_refl))).
Defined.
